(** * The layered LRU state cache of turbo/shards/state_cache.go

    A shallow embedding of the cache (items, the two heaps that share one
    backing array, the two ordered indices and the coordinator) together
    with the properties established about it.

    Conventions of the embedding:
    - Go [int] and [uint64] values are integers in [Z]; the one counter that
      only ever grows, [sc.sequence], is incremented with the 64-bit
      wrap-around written out ([int_incr]), and so is the sum of the two
      limits, which the caller chooses ([int_add]).
    - [uint16] flag words are [Z] with [Z.land], [Z.lor] and [Z.ldiff].
    - byte slices and byte arrays are [list byte]; a [[]byte] that may be
      [nil] is an [option (list byte)].
    - pointers to cache items are locations in an explicit store, so that
      the B-trees and the heap array alias the same items, as in the
      source.
    - a panic is a result of its own ([Panic]); code that loops runs on
      fuel and reports [OutOfFuel] if the fuel does not suffice. *)

From Stdlib Require Import ZArith List Bool Lia Sorting.Sorted.
From Stdlib Require Import Strings.Byte.
From stdpp Require Import base list.

Local Open Scope Z_scope.

(* ------------------------------------------------------------------ *)
(** * Bytes *)

(** [bytes.Compare] of the Go standard library: lexicographic comparison
    of two byte slices, yielding -1, 0 or +1. *)
Fixpoint bytes_Compare (a b : list byte) : Z :=
  match a, b with
  | [], [] => 0
  | [], _ :: _ => -1
  | _ :: _, [] => 1
  | x :: a', y :: b' =>
      if (Byte.to_N x <? Byte.to_N y)%N then -1
      else if (Byte.to_N y <? Byte.to_N x)%N then 1
      else bytes_Compare a' b'
  end.

(** The builtin [copy(dst, src)] on byte slices: the first
    [min (len dst) (len src)] bytes of [dst] are overwritten. *)
Definition copy_bytes (dst src : list byte) : list byte :=
  take (length dst) src ++ drop (length src) dst.

Definition zero_bytes (n : nat) : list byte := repeat x00 n.

(** [common.Address] is [[20]byte] and [common.Hash] is [[32]byte]. *)
Definition AddressLength : nat := 20.
Definition HashLength : nat := 32.
Definition Address := list byte.
Definition Hash := list byte.

(** Modelled from the spec: [accounts.Account] and its [Copy] and [Reset]
    methods are declared in core/types/accounts, which is not among the
    sources.  The spec treats an account as an opaque value that is
    byte-copied, and the value of a deleted account as zeroed; it is kept
    here as a byte string whose zero value is the empty one. *)
Definition Account := list byte.
Definition Account_zero : Account := [].
Definition Account_Copy (_dst src : Account) : Account := src.
Definition Account_Reset (_a : Account) : Account := Account_zero.

(* ------------------------------------------------------------------ *)
(** * Cache items *)

Definition ModifiedFlag : Z := 1.
Definition DeletedFlag : Z := 2.

Record AccountCacheItem := mkAccountCacheItem {
  aci_address : Address;
  aci_account : Account;
  aci_sequence : Z;
  aci_queuePos : Z;
  aci_flags : Z }.

Record StorageCacheItem := mkStorageCacheItem {
  sci_address : Address;
  sci_incarnation : Z;
  sci_location : Hash;
  sci_value : Hash;
  sci_sequence : Z;
  sci_queuePos : Z;
  sci_flags : Z }.

Record CodeCacheItem := mkCodeCacheItem {
  cci_address : Address;
  cci_code : option (list byte);
  cci_sequence : Z;
  cci_queuePos : Z;
  cci_flags : Z }.

(** A value of the interface type [CacheItem]: one of the three
    implementations. *)
Inductive CacheItem :=
| AccountItem (aci : AccountCacheItem)
| StorageItem (sci : StorageCacheItem)
| CodeItem (cci : CodeCacheItem).

(** The zero values that [var aci AccountCacheItem] and its siblings
    declare. *)
Definition AccountCacheItem_zero : AccountCacheItem :=
  mkAccountCacheItem (zero_bytes AddressLength) Account_zero 0 0 0.
Definition StorageCacheItem_zero : StorageCacheItem :=
  mkStorageCacheItem (zero_bytes AddressLength) 0 (zero_bytes HashLength)
                     (zero_bytes HashLength) 0 0 0.
Definition CodeCacheItem_zero : CodeCacheItem :=
  mkCodeCacheItem (zero_bytes AddressLength) None 0 0 0.

(** The methods of the [CacheItem] interface other than [Less]. *)
Class CacheItemOps (T : Type) := {
  GetSequence : T -> Z;
  SetSequence : Z -> T -> T;
  GetSize : T -> Z;
  GetQueuePos : T -> Z;
  SetQueuePos : Z -> T -> T;
  HasFlag : Z -> T -> bool;
  SetFlags : Z -> T -> T;
  ClearFlags : Z -> T -> T }.

#[export] Instance AccountCacheItem_ops : CacheItemOps AccountCacheItem := {
  GetSequence aci := aci_sequence aci;
  SetSequence s aci :=
    mkAccountCacheItem (aci_address aci) (aci_account aci) s
                       (aci_queuePos aci) (aci_flags aci);
  GetSize _ := 1;
  GetQueuePos aci := aci_queuePos aci;
  SetQueuePos pos aci :=
    mkAccountCacheItem (aci_address aci) (aci_account aci) (aci_sequence aci)
                       pos (aci_flags aci);
  HasFlag flag aci := negb (Z.land (aci_flags aci) flag =? 0);
  SetFlags flags aci :=
    mkAccountCacheItem (aci_address aci) (aci_account aci) (aci_sequence aci)
                       (aci_queuePos aci) (Z.lor (aci_flags aci) flags);
  ClearFlags flags aci :=
    mkAccountCacheItem (aci_address aci) (aci_account aci) (aci_sequence aci)
                       (aci_queuePos aci) (Z.ldiff (aci_flags aci) flags) }.

#[export] Instance StorageCacheItem_ops : CacheItemOps StorageCacheItem := {
  GetSequence sci := sci_sequence sci;
  SetSequence s sci :=
    mkStorageCacheItem (sci_address sci) (sci_incarnation sci)
                       (sci_location sci) (sci_value sci) s
                       (sci_queuePos sci) (sci_flags sci);
  GetSize _ := 1;
  GetQueuePos sci := sci_queuePos sci;
  SetQueuePos pos sci :=
    mkStorageCacheItem (sci_address sci) (sci_incarnation sci)
                       (sci_location sci) (sci_value sci) (sci_sequence sci)
                       pos (sci_flags sci);
  HasFlag flag sci := negb (Z.land (sci_flags sci) flag =? 0);
  SetFlags flags sci :=
    mkStorageCacheItem (sci_address sci) (sci_incarnation sci)
                       (sci_location sci) (sci_value sci) (sci_sequence sci)
                       (sci_queuePos sci) (Z.lor (sci_flags sci) flags);
  ClearFlags flags sci :=
    mkStorageCacheItem (sci_address sci) (sci_incarnation sci)
                       (sci_location sci) (sci_value sci) (sci_sequence sci)
                       (sci_queuePos sci) (Z.ldiff (sci_flags sci) flags) }.

#[export] Instance CodeCacheItem_ops : CacheItemOps CodeCacheItem := {
  GetSequence cci := cci_sequence cci;
  SetSequence s cci :=
    mkCodeCacheItem (cci_address cci) (cci_code cci) s
                    (cci_queuePos cci) (cci_flags cci);
  GetSize _ := 1;
  GetQueuePos cci := cci_queuePos cci;
  SetQueuePos pos cci :=
    mkCodeCacheItem (cci_address cci) (cci_code cci) (cci_sequence cci)
                    pos (cci_flags cci);
  HasFlag flag cci := negb (Z.land (cci_flags cci) flag =? 0);
  SetFlags flags cci :=
    mkCodeCacheItem (cci_address cci) (cci_code cci) (cci_sequence cci)
                    (cci_queuePos cci) (Z.lor (cci_flags cci) flags);
  ClearFlags flags cci :=
    mkCodeCacheItem (cci_address cci) (cci_code cci) (cci_sequence cci)
                    (cci_queuePos cci) (Z.ldiff (cci_flags cci) flags) }.

(** A method call through the interface dispatches on the dynamic type. *)
Definition lift_item {R : Type}
    (fa : AccountCacheItem -> R) (fs : StorageCacheItem -> R)
    (fc : CodeCacheItem -> R) (i : CacheItem) : R :=
  match i with
  | AccountItem aci => fa aci
  | StorageItem sci => fs sci
  | CodeItem cci => fc cci
  end.

Definition map_item
    (fa : AccountCacheItem -> AccountCacheItem)
    (fs : StorageCacheItem -> StorageCacheItem)
    (fc : CodeCacheItem -> CodeCacheItem) (i : CacheItem) : CacheItem :=
  match i with
  | AccountItem aci => AccountItem (fa aci)
  | StorageItem sci => StorageItem (fs sci)
  | CodeItem cci => CodeItem (fc cci)
  end.

#[export] Instance CacheItem_ops : CacheItemOps CacheItem := {
  GetSequence := lift_item GetSequence GetSequence GetSequence;
  SetSequence s := map_item (SetSequence s) (SetSequence s) (SetSequence s);
  GetSize := lift_item GetSize GetSize GetSize;
  GetQueuePos := lift_item GetQueuePos GetQueuePos GetQueuePos;
  SetQueuePos p := map_item (SetQueuePos p) (SetQueuePos p) (SetQueuePos p);
  HasFlag f := lift_item (HasFlag f) (HasFlag f) (HasFlag f);
  SetFlags f := map_item (SetFlags f) (SetFlags f) (SetFlags f);
  ClearFlags f := map_item (ClearFlags f) (ClearFlags f) (ClearFlags f) }.

Definition item_address : CacheItem -> Address :=
  lift_item aci_address sci_address cci_address.
Definition item_flags : CacheItem -> Z :=
  lift_item aci_flags sci_flags cci_flags.

(** ** The ordering [Less] of [btree.Item]

    One method per receiver type, each a type switch on [than]; the
    [default] branch of the switch cannot be reached from the three
    implementations. *)
Definition AccountCacheItem_Less (aci : AccountCacheItem) (than : CacheItem) : bool :=
  match than with
  | AccountItem i => bytes_Compare (aci_address aci) (aci_address i) <? 0
  | StorageItem i =>
      let c := bytes_Compare (aci_address aci) (sci_address i) in
      if c =? 0 then true else c <? 0
  | CodeItem i =>
      let c := bytes_Compare (aci_address aci) (cci_address i) in
      if c =? 0 then true else c <? 0
  end.

Definition StorageCacheItem_Less (sci : StorageCacheItem) (than : CacheItem) : bool :=
  match than with
  | AccountItem i =>
      let c := bytes_Compare (sci_address sci) (aci_address i) in
      if c =? 0 then false else c <? 0
  | StorageItem i =>
      let c := bytes_Compare (sci_address sci) (sci_address i) in
      if c =? 0 then
        if sci_incarnation sci =? sci_incarnation i then
          bytes_Compare (sci_location sci) (sci_location i) <? 0
        else sci_incarnation sci <? sci_incarnation i
      else c <? 0
  | CodeItem i =>
      let c := bytes_Compare (sci_address sci) (cci_address i) in
      if c =? 0 then false else c <? 0
  end.

Definition CodeCacheItem_Less (cci : CodeCacheItem) (than : CacheItem) : bool :=
  match than with
  | AccountItem i =>
      let c := bytes_Compare (cci_address cci) (aci_address i) in
      if c =? 0 then false else c <? 0
  | StorageItem i =>
      let c := bytes_Compare (cci_address cci) (sci_address i) in
      if c =? 0 then true else c <? 0
  | CodeItem i => bytes_Compare (cci_address cci) (cci_address i) <? 0
  end.

Definition Less (x than : CacheItem) : bool :=
  match x with
  | AccountItem aci => AccountCacheItem_Less aci than
  | StorageItem sci => StorageCacheItem_Less sci than
  | CodeItem cci => CodeCacheItem_Less cci than
  end.

(* ------------------------------------------------------------------ *)
(** * Results, the store and the cache state *)

Inductive PanicKind :=
| IndexOutOfRange      (* index or slice bound outside the slice *)
| NilDereference       (* method call through a nil interface value *)
| TypeAssertion        (* a failed [x.(T)] *)
| BadDegree            (* [btree.New] with a degree below 2 *)
| MakeLenOutOfRange    (* [make] with a negative length *)
| NilItemAdded         (* [ReplaceOrInsert(nil)] *)
| ItemAlreadyPresent   (* the panic of [setRead] *)
| WritesOverLimit.     (* the panic of the write insertions *)

Inductive Result (A : Type) :=
| Ok (a : A)
| Panic (p : PanicKind)
| OutOfFuel.
Arguments Ok {A} a.
Arguments Panic {A} p.
Arguments OutOfFuel {A}.

(** A pointer to a cache item is a location of the store; an interface
    value of type [CacheItem] is such a pointer or [nil]. *)
Definition loc := nat.
Definition ItemRef := option loc.

(** The B-trees of github.com/google/btree (an external library) are kept
    as the ascending sequence of the pointers they hold. *)
Definition BTree := list loc.

(** [readQueue.items] and [writeQueue.items] are two slice headers over
    one backing array, [heapItems]; [readQueue_end] is [readQueue.end] and
    [writeQueue_start] is [writeQueue.start]. *)
Record StateCache := mkStateCache {
  store : list CacheItem;
  readWrites : BTree;
  writes : BTree;
  heapItems : list ItemRef;
  readQueue_end : Z;
  writeQueue_start : Z;
  limitReads : Z;
  limitWrites : Z;
  sequence : Z }.

Definition set_store (v : list CacheItem) (sc : StateCache) : StateCache :=
  mkStateCache v (readWrites sc) (writes sc) (heapItems sc) (readQueue_end sc)
    (writeQueue_start sc) (limitReads sc) (limitWrites sc) (sequence sc).
Definition set_readWrites (v : BTree) (sc : StateCache) : StateCache :=
  mkStateCache (store sc) v (writes sc) (heapItems sc) (readQueue_end sc)
    (writeQueue_start sc) (limitReads sc) (limitWrites sc) (sequence sc).
Definition set_writes (v : BTree) (sc : StateCache) : StateCache :=
  mkStateCache (store sc) (readWrites sc) v (heapItems sc) (readQueue_end sc)
    (writeQueue_start sc) (limitReads sc) (limitWrites sc) (sequence sc).
Definition set_heapItems (v : list ItemRef) (sc : StateCache) : StateCache :=
  mkStateCache (store sc) (readWrites sc) (writes sc) v (readQueue_end sc)
    (writeQueue_start sc) (limitReads sc) (limitWrites sc) (sequence sc).
Definition set_readQueue_end (v : Z) (sc : StateCache) : StateCache :=
  mkStateCache (store sc) (readWrites sc) (writes sc) (heapItems sc) v
    (writeQueue_start sc) (limitReads sc) (limitWrites sc) (sequence sc).
Definition set_writeQueue_start (v : Z) (sc : StateCache) : StateCache :=
  mkStateCache (store sc) (readWrites sc) (writes sc) (heapItems sc)
    (readQueue_end sc) v (limitReads sc) (limitWrites sc) (sequence sc).
Definition set_sequence (v : Z) (sc : StateCache) : StateCache :=
  mkStateCache (store sc) (readWrites sc) (writes sc) (heapItems sc)
    (readQueue_end sc) (writeQueue_start sc) (limitReads sc) (limitWrites sc) v.

(** ** The state-and-panic monad of the methods of [*StateCache] *)
Definition M (A : Type) : Type := StateCache -> Result (A * StateCache).

Definition ret {A} (a : A) : M A := fun sc => Ok (a, sc).
Definition bind {A B} (m : M A) (k : A -> M B) : M B :=
  fun sc =>
    match m sc with
    | Ok (a, sc') => k a sc'
    | Panic p => Panic p
    | OutOfFuel => OutOfFuel
    end.
Definition panic {A} (p : PanicKind) : M A := fun _ => Panic p.
Definition out_of_fuel {A} : M A := fun _ => OutOfFuel.
Definition gets {A} (f : StateCache -> A) : M A := fun sc => Ok (f sc, sc).
Definition modify (f : StateCache -> StateCache) : M unit :=
  fun sc => Ok (tt, f sc).

Declare Scope go_scope.
Delimit Scope go_scope with go.
Notation "'do' x <- m ;; k" := (bind m (fun x => k))
  (at level 10, x name, m at level 99, k at level 200) : go_scope.
Notation "'run' m ;; k" := (bind m (fun _ => k))
  (at level 10, m at level 99, k at level 200) : go_scope.
Local Open Scope go_scope.

(** [int] increment with the 64-bit two's-complement wrap-around. *)
Definition int_incr (x : Z) : Z :=
  if x + 1 <? 2 ^ 63 then x + 1 else x + 1 - 2 ^ 64.

(** [int] addition of two [int] values, with the same wrap-around. *)
Definition int_add (x y : Z) : Z :=
  if x + y <? - 2 ^ 63 then x + y + 2 ^ 64
  else if x + y <? 2 ^ 63 then x + y
  else x + y - 2 ^ 64.

(** ** Store access *)

(** Allocation of a fresh item (a variable whose address is taken). *)
Definition alloc (v : CacheItem) : M loc :=
  fun sc => Ok (length (store sc), set_store (store sc ++ [v]) sc).

(** Dereference of an interface value for a method call. *)
Definition deref (r : ItemRef) : M CacheItem :=
  fun sc =>
    match r with
    | None => Panic NilDereference
    | Some p =>
        match store sc !! p with
        | Some v => Ok (v, sc)
        | None => Panic NilDereference
        end
    end.

(** A mutating method call through an interface value. *)
Definition update (r : ItemRef) (f : CacheItem -> CacheItem) : M unit :=
  do v <- deref r ;;
  match r with
  | Some p => modify (fun sc => set_store (<[p := f v]> (store sc)) sc)
  | None => panic NilDereference
  end.

(** The type assertions of an item to a pointer to one of the three
    structs, followed by a read of the struct. *)
Definition as_account (r : ItemRef) : M AccountCacheItem :=
  do v <- deref r ;;
  match v with AccountItem a => ret a | _ => panic TypeAssertion end.
Definition as_storage (r : ItemRef) : M StorageCacheItem :=
  do v <- deref r ;;
  match v with StorageItem s => ret s | _ => panic TypeAssertion end.
Definition as_code (r : ItemRef) : M CodeCacheItem :=
  do v <- deref r ;;
  match v with CodeItem c => ret c | _ => panic TypeAssertion end.

(** Field assignments through a typed pointer. *)
Definition update_account (r : ItemRef)
    (f : AccountCacheItem -> AccountCacheItem) : M unit :=
  do a <- as_account r ;; update r (fun _ => AccountItem (f a)).
Definition update_storage (r : ItemRef)
    (f : StorageCacheItem -> StorageCacheItem) : M unit :=
  do s <- as_storage r ;; update r (fun _ => StorageItem (f s)).
Definition update_code (r : ItemRef)
    (f : CodeCacheItem -> CodeCacheItem) : M unit :=
  do c <- as_code r ;; update r (fun _ => CodeItem (f c)).

(** ** The shared backing array *)
Definition items_len : M Z := gets (fun sc => Z.of_nat (length (heapItems sc))).

Definition items_get (i : Z) : M ItemRef :=
  fun sc =>
    if (i <? 0) || (Z.of_nat (length (heapItems sc)) <=? i)
    then Panic IndexOutOfRange
    else match heapItems sc !! Z.to_nat i with
         | Some r => Ok (r, sc)
         | None => Panic IndexOutOfRange
         end.

Definition items_set (i : Z) (r : ItemRef) : M unit :=
  fun sc =>
    if (i <? 0) || (Z.of_nat (length (heapItems sc)) <=? i)
    then Panic IndexOutOfRange
    else Ok (tt, set_heapItems (<[Z.to_nat i := r]> (heapItems sc)) sc).

(** The type assertion [x.(CacheItem)] on an [interface{}] value. *)
Definition assert_CacheItem (x : ItemRef) : M ItemRef :=
  match x with
  | Some p => ret (Some p)
  | None => panic TypeAssertion
  end.

(* ------------------------------------------------------------------ *)
(** * The two heaps over the shared array *)

(** [heap.Interface] of the Go standard library, with the receiver's
    state threaded through [M]. *)
Record Interface := mkInterface {
  h_Len : M Z;
  h_Less : Z -> Z -> M bool;
  h_Swap : Z -> Z -> M unit;
  h_Push : ItemRef -> M unit;
  h_Pop : M ItemRef }.

Definition ReadHeap_Len : M Z := gets readQueue_end.

Definition ReadHeap_Less (i j : Z) : M bool :=
  do a <- items_get i ;;
  do x <- deref a ;;
  do b <- items_get j ;;
  do y <- deref b ;;
  ret (GetSequence x <? GetSequence y).

Definition ReadHeap_Swap (i j : Z) : M unit :=
  do a <- items_get i ;;
  run update a (SetQueuePos j) ;;
  do b <- items_get j ;;
  run update b (SetQueuePos i) ;;
  do vj <- items_get j ;;
  do vi <- items_get i ;;
  run items_set i vj ;;
  items_set j vi.

Definition ReadHeap_Push (x : ItemRef) : M unit :=
  do v <- assert_CacheItem x ;;
  do e <- gets readQueue_end ;;
  run items_set e v ;;
  modify (fun sc => set_readQueue_end (readQueue_end sc + 1) sc).

Definition ReadHeap_Pop : M ItemRef :=
  run modify (fun sc => set_readQueue_end (readQueue_end sc - 1) sc) ;;
  do e <- gets readQueue_end ;;
  items_get e.

Definition WriteHeap_Len : M Z :=
  do n <- items_len ;;
  do s <- gets writeQueue_start ;;
  ret (n - s).

Definition WriteHeap_Less (i j : Z) : M bool :=
  do n <- items_len ;;
  let l := n - 1 in
  do a <- items_get (l - i) ;;
  do x <- deref a ;;
  do b <- items_get (l - j) ;;
  do y <- deref b ;;
  ret (GetSequence x <? GetSequence y).

(** The two [SetQueuePos] calls index the array with [i] and [j] as
    given; the reflection [l - i], [l - j] comes only afterwards. *)
Definition WriteHeap_Swap (i j : Z) : M unit :=
  do a <- items_get i ;;
  run update a (SetQueuePos j) ;;
  do b <- items_get j ;;
  run update b (SetQueuePos i) ;;
  do n <- items_len ;;
  let l := n - 1 in
  let i := l - i in
  let j := l - j in
  do vj <- items_get j ;;
  do vi <- items_get i ;;
  run items_set i vj ;;
  items_set j vi.

Definition WriteHeap_Push (x : ItemRef) : M unit :=
  run modify (fun sc => set_writeQueue_start (writeQueue_start sc - 1) sc) ;;
  do v <- assert_CacheItem x ;;
  do s <- gets writeQueue_start ;;
  items_set s v.

Definition WriteHeap_Pop : M ItemRef :=
  run modify (fun sc => set_writeQueue_start (writeQueue_start sc + 1) sc) ;;
  do s <- gets writeQueue_start ;;
  items_get (s - 1).

Definition readQueue : Interface :=
  mkInterface ReadHeap_Len ReadHeap_Less ReadHeap_Swap ReadHeap_Push ReadHeap_Pop.
Definition writeQueue : Interface :=
  mkInterface WriteHeap_Len WriteHeap_Less WriteHeap_Swap WriteHeap_Push WriteHeap_Pop.

(** ** [container/heap] of the Go standard library

    [up] and [down] are loops; they run here on fuel that bounds the
    number of iterations ([j] shrinks towards 0 in [up], [i] grows towards
    [n] in [down]).  Integer division is Go's, truncating ([Z.quot]). *)
Module heap.

Fixpoint up_loop (fuel : nat) (h : Interface) (j : Z) : M unit :=
  match fuel with
  | O => out_of_fuel
  | S fuel' =>
      let i := Z.quot (j - 1) 2 in
      if i =? j then ret tt
      else
        do lt <- h_Less h j i ;;
        if negb lt then ret tt
        else run h_Swap h i j ;; up_loop fuel' h i
  end.

Definition up (h : Interface) (j : Z) : M unit :=
  up_loop (S (Z.to_nat (Z.abs j))) h j.

Fixpoint down_loop (fuel : nat) (h : Interface) (i n : Z) : M Z :=
  match fuel with
  | O => out_of_fuel
  | S fuel' =>
      let j1 := 2 * i + 1 in
      if (n <=? j1) || (j1 <? 0) then ret i
      else
        let j2 := j1 + 1 in
        do j <- (if j2 <? n
                 then do lt <- h_Less h j2 j1 ;; ret (if lt then j2 else j1)
                 else ret j1) ;;
        do lt <- h_Less h j i ;;
        if negb lt then ret i
        else run h_Swap h i j ;; down_loop fuel' h j n
  end.

Definition down (h : Interface) (i0 n : Z) : M bool :=
  do i <- down_loop (S (Z.to_nat n)) h i0 n ;;
  ret (i0 <? i).

Fixpoint Init_loop (h : Interface) (k : nat) (n : Z) : M unit :=
  match k with
  | O => ret tt
  | S k' => run down h (Z.of_nat k') n ;; Init_loop h k' n
  end.

Definition Init (h : Interface) : M unit :=
  do n <- h_Len h ;;
  Init_loop h (Z.to_nat (Z.quot n 2)) n.

Definition Push (h : Interface) (x : ItemRef) : M unit :=
  run h_Push h x ;;
  do n <- h_Len h ;;
  up h (n - 1).

Definition Pop (h : Interface) : M ItemRef :=
  do len <- h_Len h ;;
  let n := len - 1 in
  run h_Swap h 0 n ;;
  run down h 0 n ;;
  h_Pop h.

Definition Remove (h : Interface) (i : Z) : M ItemRef :=
  do len <- h_Len h ;;
  let n := len - 1 in
  run (if negb (n =? i)
       then run h_Swap h i n ;;
            do moved <- down h i n ;;
            if negb moved then up h i else ret tt
       else ret tt) ;;
  h_Pop h.

Definition Fix (h : Interface) (i : Z) : M unit :=
  do len <- h_Len h ;;
  do moved <- down h i len ;;
  if negb moved then up h i else ret tt.

End heap.

(* ------------------------------------------------------------------ *)
(** * The ordered indices

    [Get], [ReplaceOrInsert], [Delete] and [Len] of google/btree on the
    ascending sequence of item pointers; every comparison goes through
    [Less] of the items pointed to. *)
Module btree.

(** [btree.New] refuses a degree of 1 or less. *)
Definition New (degree : Z) : Result BTree :=
  if degree <=? 1 then Panic BadDegree else Ok [].

Fixpoint Get (st : list CacheItem) (t : BTree) (key : CacheItem)
  : Result ItemRef :=
  match t with
  | [] => Ok None
  | p :: t' =>
      match st !! p with
      | None => Panic NilDereference
      | Some x =>
          if Less x key then Get st t' key
          else if Less key x then Ok None
          else Ok (Some p)
      end
  end.

Fixpoint insert (st : list CacheItem) (t : BTree) (p : loc) (v : CacheItem)
  : Result BTree :=
  match t with
  | [] => Ok [p]
  | q :: t' =>
      match st !! q with
      | None => Panic NilDereference
      | Some x =>
          if Less x v then
            match insert st t' p v with
            | Ok r => Ok (q :: r)
            | Panic e => Panic e
            | OutOfFuel => OutOfFuel
            end
          else if Less v x then Ok (p :: q :: t')
          else Ok (p :: t')
      end
  end.

Definition ReplaceOrInsert (st : list CacheItem) (t : BTree) (item : ItemRef)
  : Result BTree :=
  match item with
  | None => Panic NilItemAdded
  | Some p =>
      match st !! p with
      | None => Panic NilDereference
      | Some v => insert st t p v
      end
  end.

Fixpoint remove (st : list CacheItem) (t : BTree) (key : CacheItem)
  : Result BTree :=
  match t with
  | [] => Ok []
  | q :: t' =>
      match st !! q with
      | None => Panic NilDereference
      | Some x =>
          if Less x key then
            match remove st t' key with
            | Ok r => Ok (q :: r)
            | Panic e => Panic e
            | OutOfFuel => OutOfFuel
            end
          else if Less key x then Ok (q :: t')
          else Ok t'
      end
  end.

(** [Delete] on an empty tree returns at once; otherwise it searches with
    [item.Less], which a nil [item] cannot answer. *)
Definition Delete (st : list CacheItem) (t : BTree) (item : ItemRef)
  : Result BTree :=
  match t with
  | [] => Ok []
  | _ :: _ =>
      match item with
      | None => Panic NilDereference
      | Some p =>
          match st !! p with
          | None => Panic NilDereference
          | Some key => remove st t key
          end
      end
  end.

Definition Len (t : BTree) : Z := Z.of_nat (length t).

End btree.

(** Lifting of a library result into [M]. *)
Definition liftR {A} (r : Result A) : M A :=
  fun sc =>
    match r with
    | Ok a => Ok (a, sc)
    | Panic p => Panic p
    | OutOfFuel => OutOfFuel
    end.

Definition readWrites_Get (key : CacheItem) : M ItemRef :=
  do st <- gets store ;; do t <- gets readWrites ;; liftR (btree.Get st t key).
Definition writes_Get (key : CacheItem) : M ItemRef :=
  do st <- gets store ;; do t <- gets writes ;; liftR (btree.Get st t key).
Definition readWrites_ReplaceOrInsert (item : ItemRef) : M unit :=
  do st <- gets store ;; do t <- gets readWrites ;;
  do t' <- liftR (btree.ReplaceOrInsert st t item) ;;
  modify (set_readWrites t').
Definition writes_ReplaceOrInsert (item : ItemRef) : M unit :=
  do st <- gets store ;; do t <- gets writes ;;
  do t' <- liftR (btree.ReplaceOrInsert st t item) ;;
  modify (set_writes t').
Definition readWrites_Delete (item : ItemRef) : M unit :=
  do st <- gets store ;; do t <- gets readWrites ;;
  do t' <- liftR (btree.Delete st t item) ;;
  modify (set_readWrites t').

(* ------------------------------------------------------------------ *)
(** * The coordinator *)

(** Field assignments of the three structs. *)
Definition aci_set_address (v : Address) (a : AccountCacheItem) :=
  mkAccountCacheItem v (aci_account a) (aci_sequence a) (aci_queuePos a) (aci_flags a).
Definition aci_set_account (v : Account) (a : AccountCacheItem) :=
  mkAccountCacheItem (aci_address a) v (aci_sequence a) (aci_queuePos a) (aci_flags a).
Definition aci_set_sequence (v : Z) (a : AccountCacheItem) :=
  mkAccountCacheItem (aci_address a) (aci_account a) v (aci_queuePos a) (aci_flags a).
Definition aci_set_queuePos (v : Z) (a : AccountCacheItem) :=
  mkAccountCacheItem (aci_address a) (aci_account a) (aci_sequence a) v (aci_flags a).
Definition aci_set_flags (v : Z) (a : AccountCacheItem) :=
  mkAccountCacheItem (aci_address a) (aci_account a) (aci_sequence a) (aci_queuePos a) v.

Definition sci_set_address (v : Address) (s : StorageCacheItem) :=
  mkStorageCacheItem v (sci_incarnation s) (sci_location s) (sci_value s)
    (sci_sequence s) (sci_queuePos s) (sci_flags s).
Definition sci_set_incarnation (v : Z) (s : StorageCacheItem) :=
  mkStorageCacheItem (sci_address s) v (sci_location s) (sci_value s)
    (sci_sequence s) (sci_queuePos s) (sci_flags s).
Definition sci_set_location (v : Hash) (s : StorageCacheItem) :=
  mkStorageCacheItem (sci_address s) (sci_incarnation s) v (sci_value s)
    (sci_sequence s) (sci_queuePos s) (sci_flags s).
Definition sci_set_value (v : Hash) (s : StorageCacheItem) :=
  mkStorageCacheItem (sci_address s) (sci_incarnation s) (sci_location s) v
    (sci_sequence s) (sci_queuePos s) (sci_flags s).
Definition sci_set_sequence (v : Z) (s : StorageCacheItem) :=
  mkStorageCacheItem (sci_address s) (sci_incarnation s) (sci_location s)
    (sci_value s) v (sci_queuePos s) (sci_flags s).
Definition sci_set_queuePos (v : Z) (s : StorageCacheItem) :=
  mkStorageCacheItem (sci_address s) (sci_incarnation s) (sci_location s)
    (sci_value s) (sci_sequence s) v (sci_flags s).
Definition sci_set_flags (v : Z) (s : StorageCacheItem) :=
  mkStorageCacheItem (sci_address s) (sci_incarnation s) (sci_location s)
    (sci_value s) (sci_sequence s) (sci_queuePos s) v.

Definition cci_set_address (v : Address) (c : CodeCacheItem) :=
  mkCodeCacheItem v (cci_code c) (cci_sequence c) (cci_queuePos c) (cci_flags c).
Definition cci_set_code (v : option (list byte)) (c : CodeCacheItem) :=
  mkCodeCacheItem (cci_address c) v (cci_sequence c) (cci_queuePos c) (cci_flags c).
Definition cci_set_sequence (v : Z) (c : CodeCacheItem) :=
  mkCodeCacheItem (cci_address c) (cci_code c) v (cci_queuePos c) (cci_flags c).
Definition cci_set_queuePos (v : Z) (c : CodeCacheItem) :=
  mkCodeCacheItem (cci_address c) (cci_code c) (cci_sequence c) v (cci_flags c).
Definition cci_set_flags (v : Z) (c : CodeCacheItem) :=
  mkCodeCacheItem (cci_address c) (cci_code c) (cci_sequence c) (cci_queuePos c) v.

(** The largest length that [make([]CacheItem, n)] accepts.  The
    runtime refuses a slice of more than 2^48 bytes (64-bit platforms
    with 48-bit heap addresses) and an interface value takes 16 of them.
    A length within the bound that the machine cannot serve ends the
    program with a fatal error of the runtime, which is no panic and is
    not part of this embedding. *)
Definition maxSliceLen : Z := 2 ^ 44.

(** [make([]CacheItem, n)] panics on a negative length and on one above
    [maxSliceLen]; the length is the [int] sum of the two limits. *)
Definition NewStateCache (degree limitReads limitWrites : Z) : Result StateCache :=
  match btree.New degree with
  | Ok rw =>
      match btree.New degree with
      | Ok w =>
          let n := int_add limitReads limitWrites in
          if (n <? 0) || (maxSliceLen <? n) then Panic MakeLenOutOfRange
          else
            let heapItems : list ItemRef := repeat None (Z.to_nat n) in
            Ok (mkStateCache [] rw w heapItems 0
                  (Z.of_nat (length heapItems)) limitReads limitWrites 0)
      | Panic p => Panic p
      | OutOfFuel => OutOfFuel
      end
  | Panic p => Panic p
  | OutOfFuel => OutOfFuel
  end.

(** ** Lookups

    The key stub of a lookup never outlives the call and is passed by
    value. *)
Definition get (key : CacheItem) : M (ItemRef * bool) :=
  do item <- readWrites_Get key ;;
  match item with
  | None => ret (None, false)
  | Some _ =>
      do cacheItem <- deref item ;;
      if HasFlag DeletedFlag cacheItem then ret (None, false)
      else ret (item, true)
  end.

Definition account_key (address : list byte) : CacheItem :=
  AccountItem (aci_set_address
                 (copy_bytes (aci_address AccountCacheItem_zero) address)
                 AccountCacheItem_zero).

Definition storage_key (address : list byte) (incarnation : Z)
    (location : list byte) : CacheItem :=
  StorageItem
    (sci_set_location
       (copy_bytes (sci_location StorageCacheItem_zero) location)
       (sci_set_incarnation incarnation
          (sci_set_address
             (copy_bytes (sci_address StorageCacheItem_zero) address)
             StorageCacheItem_zero))).

Definition code_key (address : list byte) : CacheItem :=
  CodeItem (cci_set_address
              (copy_bytes (cci_address CodeCacheItem_zero) address)
              CodeCacheItem_zero).

Definition GetAccount (address : list byte) : M (option Account * bool) :=
  do r <- get (account_key address) ;;
  if snd r then
    do a <- as_account (fst r) ;; ret (Some (aci_account a), true)
  else ret (None, false).

Definition GetStorage (address : list byte) (incarnation : Z)
    (location : list byte) : M (option (list byte) * bool) :=
  do r <- get (storage_key address incarnation location) ;;
  if snd r then
    do s <- as_storage (fst r) ;; ret (Some (sci_value s), true)
  else ret (None, false).

Definition GetCode (address : list byte) : M (option (list byte) * bool) :=
  do r <- get (code_key address) ;;
  if snd r then
    do c <- as_code (fst r) ;; ret (cci_code c, true)
  else ret (None, true).

(** ** Read insertion *)
Definition setRead (item : ItemRef) : M unit :=
  do v <- deref item ;;
  do found <- readWrites_Get v ;;
  match found with
  | Some _ => panic ItemAlreadyPresent
  | None =>
      run update item (SetQueuePos 0) ;;
      do s <- gets sequence ;;
      run update item (SetSequence s) ;;
      run readWrites_ReplaceOrInsert item ;;
      do len <- ReadHeap_Len ;;
      do lim <- gets limitReads ;;
      if lim <=? len then
        do old <- items_get 0 ;;
        run readWrites_Delete old ;;
        run items_set 0 item ;;
        heap.Fix readQueue 0
      else
        heap.Push readQueue item
  end.

Definition SetAccountRead (address : list byte) (account : Account) : M unit :=
  do aci <- alloc (AccountItem AccountCacheItem_zero) ;;
  run update_account (Some aci)
        (fun a => aci_set_address (copy_bytes (aci_address a) address) a) ;;
  run update_account (Some aci)
        (fun a => aci_set_account (Account_Copy (aci_account a) account) a) ;;
  run update_account (Some aci) (aci_set_flags 0) ;;
  setRead (Some aci).

Definition SetAccountAbsent (address : list byte) : M unit :=
  do aci <- alloc (AccountItem AccountCacheItem_zero) ;;
  run update_account (Some aci)
        (fun a => aci_set_address (copy_bytes (aci_address a) address) a) ;;
  run update_account (Some aci) (aci_set_flags DeletedFlag) ;;
  setRead (Some aci).

Definition SetStorageRead (address : list byte) (incarnation : Z)
    (location value : list byte) : M unit :=
  do sci <- alloc (StorageItem StorageCacheItem_zero) ;;
  run update_storage (Some sci)
        (fun s => sci_set_address (copy_bytes (sci_address s) address) s) ;;
  run update_storage (Some sci) (sci_set_incarnation incarnation) ;;
  run update_storage (Some sci)
        (fun s => sci_set_location (copy_bytes (sci_location s) location) s) ;;
  run update_storage (Some sci)
        (fun s => sci_set_value (copy_bytes (sci_value s) value) s) ;;
  run update_storage (Some sci) (sci_set_flags 0) ;;
  setRead (Some sci).

Definition SetStorageAbsent (address : list byte) (incarnation : Z)
    (location : list byte) : M unit :=
  do sci <- alloc (StorageItem StorageCacheItem_zero) ;;
  run update_storage (Some sci)
        (fun s => sci_set_address (copy_bytes (sci_address s) address) s) ;;
  run update_storage (Some sci) (sci_set_incarnation incarnation) ;;
  run update_storage (Some sci)
        (fun s => sci_set_location (copy_bytes (sci_location s) location) s) ;;
  run update_storage (Some sci) (sci_set_flags DeletedFlag) ;;
  setRead (Some sci).

(** [make([]byte, len(code))] followed by [copy]: a fresh, non-nil copy. *)
Definition fresh_code (code : list byte) : option (list byte) :=
  Some (copy_bytes (zero_bytes (length code)) code).

Definition SetCodeRead (address code : list byte) : M unit :=
  do cci <- alloc (CodeItem CodeCacheItem_zero) ;;
  run update_code (Some cci)
        (fun c => cci_set_address (copy_bytes (cci_address c) address) c) ;;
  run update_code (Some cci) (cci_set_code (fresh_code code)) ;;
  run update_code (Some cci) (cci_set_flags 0) ;;
  setRead (Some cci).

Definition SetCodeAbsent (address : list byte) : M unit :=
  do cci <- alloc (CodeItem CodeCacheItem_zero) ;;
  run update_code (Some cci)
        (fun c => cci_set_address (copy_bytes (cci_address c) address) c) ;;
  run update_code (Some cci) (cci_set_flags DeletedFlag) ;;
  setRead (Some cci).

(** ** Write insertion

    Three statement groups recur verbatim in the six write insertions of
    the source and are named here: the bump of [sc.sequence], the
    write-limit check and the eviction of one read when both queues are
    full. *)
Definition sequence_incr : M unit :=
  modify (fun sc => set_sequence (int_incr (sequence sc)) sc).

Definition check_writes_limit : M unit :=
  do wl <- WriteHeap_Len ;;
  do lw <- gets limitWrites ;;
  if lw <=? wl then panic WritesOverLimit else ret tt.

Definition evict_read_if_full : M unit :=
  do rl <- ReadHeap_Len ;;
  do wl <- WriteHeap_Len ;;
  do lr <- gets limitReads ;;
  do lw <- gets limitWrites ;;
  if lr + lw <=? rl + wl then
    do x <- heap.Pop readQueue ;;
    do it <- assert_CacheItem x ;;
    readWrites_Delete it
  else ret tt.

Definition SetAccountWrite (address : list byte) (account : Account) : M unit :=
  do aci <- alloc (AccountItem AccountCacheItem_zero) ;;
  run update_account (Some aci)
        (fun a => aci_set_address (copy_bytes (aci_address a) address) a) ;;
  do key <- deref (Some aci) ;;
  do item <- writes_Get key ;;
  match item with
  | Some _ =>
      let existing := item in
      run update_account existing
            (fun a => aci_set_account (Account_Copy (aci_account a) account) a) ;;
      do s <- gets sequence ;;
      run update_account existing (aci_set_sequence s) ;;
      run sequence_incr ;;
      run update_account existing (aci_set_flags ModifiedFlag) ;;
      do e <- as_account existing ;;
      heap.Fix writeQueue (aci_queuePos e)
  | None =>
      do item <- readWrites_Get key ;;
      match item with
      | Some _ =>
          let existing := item in
          run update_account existing
                (fun a => aci_set_account (Account_Copy (aci_account a) account) a) ;;
          do s <- gets sequence ;;
          run update_account existing (aci_set_sequence s) ;;
          run sequence_incr ;;
          run update_account existing (aci_set_flags ModifiedFlag) ;;
          do e <- as_account existing ;;
          do _ <- heap.Remove readQueue (aci_queuePos e) ;;
          do wl <- WriteHeap_Len ;;
          run update_account existing (aci_set_queuePos wl) ;;
          heap.Push writeQueue existing
      | None =>
          run check_writes_limit ;;
          run evict_read_if_full ;;
          run update_account (Some aci)
                (fun a => aci_set_address (copy_bytes (aci_address a) address) a) ;;
          run update_account (Some aci)
                (fun a => aci_set_account (Account_Copy (aci_account a) account) a) ;;
          do s <- gets sequence ;;
          run update_account (Some aci) (aci_set_sequence s) ;;
          run sequence_incr ;;
          run update_account (Some aci) (aci_set_flags ModifiedFlag) ;;
          do wl <- WriteHeap_Len ;;
          run update_account (Some aci) (aci_set_queuePos wl) ;;
          run heap.Push writeQueue (Some aci) ;;
          run readWrites_ReplaceOrInsert (Some aci) ;;
          writes_ReplaceOrInsert (Some aci)
      end
  end.

Definition SetAccountDelete (address : list byte) : M unit :=
  do aci <- alloc (AccountItem AccountCacheItem_zero) ;;
  run update_account (Some aci)
        (fun a => aci_set_address (copy_bytes (aci_address a) address) a) ;;
  do key <- deref (Some aci) ;;
  do item <- writes_Get key ;;
  match item with
  | Some _ =>
      let existing := item in
      run update_account existing
            (fun a => aci_set_account (Account_Reset (aci_account a)) a) ;;
      do s <- gets sequence ;;
      run update_account existing (aci_set_sequence s) ;;
      run sequence_incr ;;
      run update_account existing
            (aci_set_flags (Z.lor ModifiedFlag DeletedFlag)) ;;
      do e <- as_account existing ;;
      heap.Fix writeQueue (aci_queuePos e)
  | None =>
      do item <- readWrites_Get key ;;
      match item with
      | Some _ =>
          let existing := item in
          run update_account existing
                (fun a => aci_set_account (Account_Reset (aci_account a)) a) ;;
          do s <- gets sequence ;;
          run update_account existing (aci_set_sequence s) ;;
          run sequence_incr ;;
          run update_account existing
                (aci_set_flags (Z.lor ModifiedFlag DeletedFlag)) ;;
          do e <- as_account existing ;;
          do _ <- heap.Remove readQueue (aci_queuePos e) ;;
          do wl <- WriteHeap_Len ;;
          run update_account existing (aci_set_queuePos wl) ;;
          heap.Push writeQueue existing
      | None =>
          run check_writes_limit ;;
          run evict_read_if_full ;;
          run update_account (Some aci)
                (fun a => aci_set_address (copy_bytes (aci_address a) address) a) ;;
          do s <- gets sequence ;;
          run update_account (Some aci) (aci_set_sequence s) ;;
          run sequence_incr ;;
          run update_account (Some aci) (aci_set_flags DeletedFlag) ;;
          do wl <- WriteHeap_Len ;;
          run update_account (Some aci) (aci_set_queuePos wl) ;;
          run heap.Push writeQueue (Some aci) ;;
          run readWrites_ReplaceOrInsert (Some aci) ;;
          writes_ReplaceOrInsert (Some aci)
      end
  end.

(** The prologue shared by the storage insertions: the stub [sci] with its
    key fields filled in. *)
Definition storage_stub (address : list byte) (incarnation : Z)
    (location : list byte) : M loc :=
  do sci <- alloc (StorageItem StorageCacheItem_zero) ;;
  run update_storage (Some sci)
        (fun s => sci_set_address (copy_bytes (sci_address s) address) s) ;;
  run update_storage (Some sci) (sci_set_incarnation incarnation) ;;
  run update_storage (Some sci)
        (fun s => sci_set_location (copy_bytes (sci_location s) location) s) ;;
  ret sci.

Definition SetStorageWrite (address : list byte) (incarnation : Z)
    (location value : list byte) : M unit :=
  do sci <- storage_stub address incarnation location ;;
  do key <- deref (Some sci) ;;
  do item <- writes_Get key ;;
  match item with
  | Some _ =>
      let existing := item in
      run update_storage existing
            (fun s => sci_set_value (copy_bytes (sci_value s) value) s) ;;
      do s <- gets sequence ;;
      run update_storage existing (sci_set_sequence s) ;;
      run sequence_incr ;;
      run update_storage existing (sci_set_flags ModifiedFlag) ;;
      do e <- as_storage existing ;;
      heap.Fix writeQueue (sci_queuePos e)
  | None =>
      do item <- readWrites_Get key ;;
      match item with
      | Some _ =>
          let existing := item in
          run update_storage existing
                (fun s => sci_set_value (copy_bytes (sci_value s) value) s) ;;
          do s <- gets sequence ;;
          run update_storage existing (sci_set_sequence s) ;;
          run sequence_incr ;;
          run update_storage existing (sci_set_flags ModifiedFlag) ;;
          do e <- as_storage existing ;;
          do _ <- heap.Remove readQueue (sci_queuePos e) ;;
          do wl <- WriteHeap_Len ;;
          run update_storage existing (sci_set_queuePos wl) ;;
          heap.Push writeQueue existing
      | None =>
          run check_writes_limit ;;
          run evict_read_if_full ;;
          run update_storage (Some sci)
                (fun s => sci_set_address (copy_bytes (sci_address s) address) s) ;;
          run update_storage (Some sci) (sci_set_incarnation incarnation) ;;
          run update_storage (Some sci)
                (fun s => sci_set_location (copy_bytes (sci_location s) location) s) ;;
          run update_storage (Some sci)
                (fun s => sci_set_value (copy_bytes (sci_value s) value) s) ;;
          do s <- gets sequence ;;
          run update_storage (Some sci) (sci_set_sequence s) ;;
          run sequence_incr ;;
          run update_storage (Some sci) (sci_set_flags ModifiedFlag) ;;
          do wl <- WriteHeap_Len ;;
          run update_storage (Some sci) (sci_set_queuePos wl) ;;
          heap.Push writeQueue (Some sci)
      end
  end.

Definition SetStorageDelete (address : list byte) (incarnation : Z)
    (location : list byte) : M unit :=
  do sci <- storage_stub address incarnation location ;;
  do key <- deref (Some sci) ;;
  do item <- writes_Get key ;;
  match item with
  | Some _ =>
      let existing := item in
      do s <- gets sequence ;;
      run update_storage existing (sci_set_sequence s) ;;
      run sequence_incr ;;
      run update_storage existing
            (sci_set_flags (Z.lor ModifiedFlag DeletedFlag)) ;;
      do e <- as_storage existing ;;
      heap.Fix writeQueue (sci_queuePos e)
  | None =>
      do item <- readWrites_Get key ;;
      match item with
      | Some _ =>
          let existing := item in
          do s <- gets sequence ;;
          run update_storage existing (sci_set_sequence s) ;;
          run sequence_incr ;;
          run update_storage existing
                (sci_set_flags (Z.lor ModifiedFlag DeletedFlag)) ;;
          do e <- as_storage existing ;;
          do _ <- heap.Remove readQueue (sci_queuePos e) ;;
          do wl <- WriteHeap_Len ;;
          run update_storage existing (sci_set_queuePos wl) ;;
          heap.Push writeQueue existing
      | None =>
          run check_writes_limit ;;
          run evict_read_if_full ;;
          run update_storage (Some sci)
                (fun s => sci_set_address (copy_bytes (sci_address s) address) s) ;;
          run update_storage (Some sci) (sci_set_incarnation incarnation) ;;
          run update_storage (Some sci)
                (fun s => sci_set_location (copy_bytes (sci_location s) location) s) ;;
          do s <- gets sequence ;;
          run update_storage (Some sci) (sci_set_sequence s) ;;
          run sequence_incr ;;
          run update_storage (Some sci) (sci_set_flags DeletedFlag) ;;
          do wl <- WriteHeap_Len ;;
          run update_storage (Some sci) (sci_set_queuePos wl) ;;
          heap.Push writeQueue (Some sci)
      end
  end.

Definition code_stub (address : list byte) : M loc :=
  do cci <- alloc (CodeItem CodeCacheItem_zero) ;;
  run update_code (Some cci)
        (fun c => cci_set_address (copy_bytes (cci_address c) address) c) ;;
  ret cci.

Definition SetCodeWrite (address code : list byte) : M unit :=
  do cci <- code_stub address ;;
  do key <- deref (Some cci) ;;
  do item <- writes_Get key ;;
  match item with
  | Some _ =>
      let existing := item in
      run update_code existing (cci_set_code (fresh_code code)) ;;
      do s <- gets sequence ;;
      run update_code existing (cci_set_sequence s) ;;
      run sequence_incr ;;
      run update_code existing (cci_set_flags ModifiedFlag) ;;
      do e <- as_code existing ;;
      heap.Fix writeQueue (cci_queuePos e)
  | None =>
      do item <- readWrites_Get key ;;
      match item with
      | Some _ =>
          let existing := item in
          run update_code existing (cci_set_code (fresh_code code)) ;;
          do s <- gets sequence ;;
          run update_code existing (cci_set_sequence s) ;;
          run sequence_incr ;;
          run update_code existing (cci_set_flags ModifiedFlag) ;;
          do e <- as_code existing ;;
          do _ <- heap.Remove readQueue (cci_queuePos e) ;;
          do wl <- WriteHeap_Len ;;
          run update_code existing (cci_set_queuePos wl) ;;
          heap.Push writeQueue existing
      | None =>
          run check_writes_limit ;;
          run evict_read_if_full ;;
          run update_code (Some cci)
                (fun c => cci_set_address (copy_bytes (cci_address c) address) c) ;;
          run update_code (Some cci) (cci_set_code (fresh_code code)) ;;
          do s <- gets sequence ;;
          run update_code (Some cci) (cci_set_sequence s) ;;
          run sequence_incr ;;
          run update_code (Some cci) (cci_set_flags ModifiedFlag) ;;
          do wl <- WriteHeap_Len ;;
          run update_code (Some cci) (cci_set_queuePos wl) ;;
          heap.Push writeQueue (Some cci)
      end
  end.

Definition SetCodeDelete (address : list byte) : M unit :=
  do cci <- code_stub address ;;
  do key <- deref (Some cci) ;;
  do item <- writes_Get key ;;
  match item with
  | Some _ =>
      let existing := item in
      run update_code existing (cci_set_code None) ;;
      do s <- gets sequence ;;
      run update_code existing (cci_set_sequence s) ;;
      run sequence_incr ;;
      run update_code existing (cci_set_flags ModifiedFlag) ;;
      do e <- as_code existing ;;
      heap.Fix writeQueue (cci_queuePos e)
  | None =>
      do item <- readWrites_Get key ;;
      match item with
      | Some _ =>
          let existing := item in
          run update_code existing (cci_set_code None) ;;
          do s <- gets sequence ;;
          run update_code existing (cci_set_sequence s) ;;
          run sequence_incr ;;
          run update_code existing
                (cci_set_flags (Z.lor ModifiedFlag DeletedFlag)) ;;
          do e <- as_code existing ;;
          do _ <- heap.Remove readQueue (cci_queuePos e) ;;
          do wl <- WriteHeap_Len ;;
          run update_code existing (cci_set_queuePos wl) ;;
          heap.Push writeQueue existing
      | None =>
          run check_writes_limit ;;
          run evict_read_if_full ;;
          run update_code (Some cci)
                (fun c => cci_set_address (copy_bytes (cci_address c) address) c) ;;
          run update_code (Some cci) (cci_set_code None) ;;
          do s <- gets sequence ;;
          run update_code (Some cci) (cci_set_sequence s) ;;
          run sequence_incr ;;
          run update_code (Some cci)
                (cci_set_flags (Z.lor ModifiedFlag DeletedFlag)) ;;
          do wl <- WriteHeap_Len ;;
          run update_code (Some cci) (cci_set_queuePos wl) ;;
          heap.Push writeQueue (Some cci)
      end
  end.

(** ** The commit boundary *)

(** [Ascend] over an index, the visitor always answering [true]. *)
Fixpoint Ascend (t : BTree) (visit : ItemRef -> M unit) : M unit :=
  match t with
  | [] => ret tt
  | p :: t' => run visit (Some p) ;; Ascend t' visit
  end.

(** [copy(items[e:], items[s:])] within the one backing array, with the
    bound checks of the two slice expressions. *)
Definition copy_items (e s : Z) : M unit :=
  fun sc =>
    let items := heapItems sc in
    let n := Z.of_nat (length items) in
    if (e <? 0) || (n <? e) || (s <? 0) || (n <? s) then Panic IndexOutOfRange
    else
      let k := Z.to_nat (Z.min (n - e) (n - s)) in
      let src := take k (drop (Z.to_nat s) items) in
      Ok (tt, set_heapItems
                (take (Z.to_nat e) items ++ src ++ drop (Z.to_nat e + k) items)
                sc).

Definition TurnWritesToReads : M unit :=
  do wl <- WriteHeap_Len ;;
  let writeLen := wl - 1 in
  do t <- gets writes ;;
  run Ascend t (fun i =>
        do cacheItem <- deref i ;;
        do e <- gets readQueue_end ;;
        run update i (SetQueuePos (e + writeLen - GetQueuePos cacheItem)) ;;
        update i (ClearFlags ModifiedFlag)) ;;
  do e <- gets readQueue_end ;;
  do s <- gets writeQueue_start ;;
  run copy_items e s ;;
  do n <- items_len ;;
  run modify (fun sc => set_readQueue_end (readQueue_end sc + (n - writeQueue_start sc)) sc) ;;
  run modify (set_writeQueue_start n) ;;
  heap.Init readQueue.

(* ------------------------------------------------------------------ *)
(** * Observations on a cache state *)

(** The value an operation returns from a state. *)
Definition eval {A} (m : M A) (sc : StateCache) : Result A :=
  match m sc with
  | Ok (a, _) => Ok a
  | Panic p => Panic p
  | OutOfFuel => OutOfFuel
  end.

(** A run that starts with [NewStateCache]. *)
Definition from_new {A} (degree limitReads limitWrites : Z) (m : M A)
  : Result (A * StateCache) :=
  match NewStateCache degree limitReads limitWrites with
  | Ok sc => m sc
  | Panic p => Panic p
  | OutOfFuel => OutOfFuel
  end.

(** The slot of the backing array that an item's [queuePos] designates:
    the position itself in the read heap, its reflection [N - 1 - pos] in
    the write heap; an item belongs to the write heap when [MODIFIED] is
    set. *)
Definition pos_of (sc : StateCache) (v : CacheItem) : Z :=
  if HasFlag ModifiedFlag v
  then Z.of_nat (length (heapItems sc)) - 1 - GetQueuePos v
  else GetQueuePos v.

Definition at_own_slot (sc : StateCache) (p : loc) : bool :=
  match store sc !! p with
  | None => false
  | Some v =>
      let i := pos_of sc v in
      if i <? 0 then false
      else match heapItems sc !! Z.to_nat i with
           | Some (Some q) => Nat.eqb p q
           | _ => false
           end
  end.

(** [H[pos_of(item)] == item] for every live item. *)
Definition heap_positions_ok (sc : StateCache) : bool :=
  forallb (at_own_slot sc) (readWrites sc).

Definition item_modified (sc : StateCache) (p : loc) : bool :=
  match store sc !! p with
  | Some v => HasFlag ModifiedFlag v
  | None => false
  end.

(** No live item carries [MODIFIED]. *)
Definition no_live_modified (sc : StateCache) : bool :=
  forallb (fun p => negb (item_modified sc p)) (readWrites sc).

(** The sequence numbers of the live items. *)
Definition live_sequences (sc : StateCache) : list Z :=
  omap (fun p => GetSequence <$> (store sc !! p)) (readWrites sc).

Definition is_panic {A} (r : Result A) : Prop :=
  match r with
  | Panic _ => True
  | _ => False
  end.

(** What a lookup key meets in [readWrites]: nothing, or an item that
    carries [DELETED]. *)
Definition missing (sc : StateCache) (key : CacheItem) : Prop :=
  btree.Get (store sc) (readWrites sc) key = Ok None.


(** Slot 0 of the backing array holds no item: the array is empty or its
    first element is nil. *)
Definition slot0_empty (sc : StateCache) : Prop :=
  match heapItems sc with
  | [] => True
  | None :: _ => True
  | Some _ :: _ => False
  end.

(* ------------------------------------------------------------------ *)
(** * The key order as the specification words it

    Address first; at one address the class, Account before Code before
    Storage; within Storage the incarnation, then the location. *)
Definition class_rank (x : CacheItem) : Z :=
  match x with
  | AccountItem _ => 0
  | CodeItem _ => 1
  | StorageItem _ => 2
  end.

Definition spec_less (a b : CacheItem) : bool :=
  let c := bytes_Compare (item_address a) (item_address b) in
  if c <? 0 then true
  else if 0 <? c then false
  else if class_rank a <? class_rank b then true
  else if class_rank b <? class_rank a then false
  else
    match a, b with
    | StorageItem s, StorageItem t =>
        if sci_incarnation s <? sci_incarnation t then true
        else if sci_incarnation t <? sci_incarnation s then false
        else bytes_Compare (sci_location s) (sci_location t) <? 0
    | _, _ => false
    end.

(** Two items carry the same key. *)
Definition same_key (a b : CacheItem) : Prop :=
  match a, b with
  | AccountItem x, AccountItem y => aci_address x = aci_address y
  | StorageItem x, StorageItem y =>
      sci_address x = sci_address y /\
      sci_incarnation x = sci_incarnation y /\
      sci_location x = sci_location y
  | CodeItem x, CodeItem y => cci_address x = cci_address y
  | _, _ => False
  end.

(** A sequence of items in the order an index visits them: every item is
    [Less] than all that follow. *)
Fixpoint ascending (l : list CacheItem) : bool :=
  match l with
  | [] => true
  | x :: l' => forallb (Less x) l' && ascending l'
  end.

(** In-order iteration from a pivot ([AscendGreaterOrEqual] of the B-tree
    library): the items that are not [Less] than the pivot, in order. *)
Definition ascend_from (pivot : CacheItem) (l : list CacheItem) : list CacheItem :=
  List.filter (fun x => negb (Less x pivot)) l.

Definition is_account_of (A : Address) (x : CacheItem) : bool :=
  match x with
  | AccountItem a => bytes_Compare (aci_address a) A =? 0
  | _ => false
  end.
Definition is_code_of (A : Address) (x : CacheItem) : bool :=
  match x with
  | CodeItem c => bytes_Compare (cci_address c) A =? 0
  | _ => false
  end.
Definition is_storage_of (A : Address) (x : CacheItem) : bool :=
  match x with
  | StorageItem s => bytes_Compare (sci_address s) A =? 0
  | _ => false
  end.
Definition address_above (A : Address) (x : CacheItem) : bool :=
  0 <? bytes_Compare (item_address x) A.

(** The segment of the walk an item falls into, relative to address [A]:
    0 below [A], then account, code and storage of [A], 4 above [A]. *)
Definition segment (A : Address) (x : CacheItem) : nat :=
  let c := bytes_Compare (item_address x) A in
  if c <? 0 then 0%nat
  else if 0 <? c then 4%nat
  else match x with
       | AccountItem _ => 1%nat
       | CodeItem _ => 2%nat
       | StorageItem _ => 3%nat
       end.

(* ------------------------------------------------------------------ *)
(** * Concrete inputs *)

Definition pad20 (b : byte) : list byte := b :: repeat x00 19.
Definition addr1 : list byte := pad20 x01.
Definition addr2 : list byte := pad20 x02.
Definition addr3 : list byte := pad20 x03.
Definition loc7 : list byte := repeat x00 31 ++ [x07].
Definition val9 : list byte := repeat x00 31 ++ [x09].
Definition acc1 : Account := [x0a].
Definition acc2 : Account := [x0b].

Definition sample_index : list CacheItem :=
  [ AccountItem (aci_set_address addr1 AccountCacheItem_zero);
    StorageItem (sci_set_address addr1 StorageCacheItem_zero);
    AccountItem (aci_set_address addr2 AccountCacheItem_zero);
    CodeItem (cci_set_address addr2 CodeCacheItem_zero);
    StorageItem (sci_set_incarnation 1 (sci_set_address addr2 StorageCacheItem_zero));
    StorageItem (sci_set_location loc7
      (sci_set_incarnation 1 (sci_set_address addr2 StorageCacheItem_zero)));
    StorageItem (sci_set_incarnation 2 (sci_set_address addr2 StorageCacheItem_zero));
    CodeItem (cci_set_address addr3 CodeCacheItem_zero) ].


(** States of concrete runs; a run that does not return leaves
    [empty_state]. *)
Definition empty_state : StateCache := mkStateCache [] [] [] [] 0 0 0 0 0.

Definition state_of {A} (r : Result (A * StateCache)) : StateCache :=
  match r with
  | Ok (_, sc) => sc
  | _ => empty_state
  end.

Definition fresh22 : StateCache := state_of (from_new 32 2 2 (ret tt)).
Definition fresh02 : StateCache := state_of (from_new 32 0 2 (ret tt)).

(* ------------------------------------------------------------------ *)
(** * Relations between the states around an operation *)

(** Every returning run of [m] relates its two states by [R]. *)
Definition keeps {A} (R : StateCache -> StateCache -> Prop) (m : M A) : Prop :=
  forall sc a sc', m sc = Ok (a, sc') -> R sc sc'.

(** An item with its heap position blanked: key, value, sequence and
    flags. *)
Definition item_rest (v : CacheItem) : CacheItem := SetQueuePos 0 v.

(** What a heap operation leaves alone: both indices, the limits, the
    counter, the size of the backing array, and every field of every item
    except [queuePos]. *)
Definition heap_frame (sc sc' : StateCache) : Prop :=
  readWrites sc' = readWrites sc /\
  writes sc' = writes sc /\
  limitReads sc' = limitReads sc /\
  limitWrites sc' = limitWrites sc /\
  sequence sc' = sequence sc /\
  length (heapItems sc') = length (heapItems sc) /\
  item_rest <$> store sc' = item_rest <$> store sc.

(** A key that an index holds. *)
Definition held (st : list CacheItem) (t : BTree) (key : CacheItem) : Prop :=
  exists p, btree.Get st t key = Ok (Some p).

(** The store [st'] has every item of [st] at its place (and possibly
    more behind them). *)
Definition extends (st st' : list CacheItem) : Prop :=
  forall (q : loc) (v : CacheItem), st !! q = Some v -> st' !! q = Some v.

(** The write queue has reached [limitWrites]. *)
Definition writes_at_limit (sc : StateCache) : Prop :=
  limitWrites sc <= Z.of_nat (length (heapItems sc)) - writeQueue_start sc.

(** A key that neither index holds. *)
Definition fresh_key (sc : StateCache) (key : CacheItem) : Prop :=
  btree.Get (store sc) (writes sc) key = Ok None /\
  btree.Get (store sc) (readWrites sc) key = Ok None.

(** An item as the lookups see it: without its heap position and its
    [MODIFIED] bit. *)
Definition item_view (v : CacheItem) : CacheItem :=
  item_rest (ClearFlags ModifiedFlag v).

(** The two states show the same to every lookup: [readWrites] is the
    same, and so is every item up to [queuePos] and [MODIFIED]. *)
Definition view_frame (sc sc' : StateCache) : Prop :=
  readWrites sc' = readWrites sc /\
  item_view <$> store sc' = item_view <$> store sc.

(** The capacity of the cache: the two limits and the size of the
    backing array. *)
Definition same_capacity (sc sc' : StateCache) : Prop :=
  limitReads sc' = limitReads sc /\
  limitWrites sc' = limitWrites sc /\
  length (heapItems sc') = length (heapItems sc).

(** The capacity is kept and the counter [sc.sequence] stands still, or
    has advanced by one step. *)
Definition steady (sc sc' : StateCache) : Prop :=
  same_capacity sc sc' /\ sequence sc' = sequence sc.

Definition bumped (sc sc' : StateCache) : Prop :=
  same_capacity sc sc' /\ sequence sc' = int_incr (sequence sc).

(** No item gains the [MODIFIED] flag. *)
Definition no_new_modified (sc sc' : StateCache) : Prop :=
  forall p : loc, item_modified sc p = false -> item_modified sc' p = false.

(** What the commit keeps: the view of the lookups and the absence of
    [MODIFIED] where it was absent. *)
Definition commit_frame (sc sc' : StateCache) : Prop :=
  view_frame sc sc' /\ no_new_modified sc sc'.

(** The bounds of the two queues and the size of the array. *)
Definition bounds_frame (sc sc' : StateCache) : Prop :=
  readQueue_end sc' = readQueue_end sc /\
  writeQueue_start sc' = writeQueue_start sc /\
  length (heapItems sc') = length (heapItems sc).

(** The cache with two accounts written, before and after the commit. *)
Definition full22 : StateCache :=
  state_of (from_new 32 2 2
              (run SetAccountWrite addr1 acc1 ;; SetAccountWrite addr2 acc2)).
Definition committed22 : StateCache := state_of (TurnWritesToReads full22).

(** The first [n] slots of the backing array hold pointers to items of
    the store. *)
Definition filled (sc : StateCache) (n : Z) : Prop :=
  forall k, 0 <= k < n ->
    exists q : loc,
      heapItems sc !! Z.to_nat k = Some (Some q) /\
      (q < length (store sc))%nat.

(** The read queue can take one more item: its region of the array is
    filled, it ends inside the array and below [limitReads]. *)
Definition read_room (sc : StateCache) : Prop :=
  filled sc (readQueue_end sc) /\
  0 <= readQueue_end sc < Z.of_nat (length (heapItems sc)) /\
  readQueue_end sc < limitReads sc.


(** The key is held by [readWrites] at [p], and [writes] either does not
    hold it or holds it at the same item. *)
Definition held_at (sc : StateCache) (key : CacheItem) (p : loc) : Prop :=
  btree.Get (store sc) (readWrites sc) key = Ok (Some p) /\
  (btree.Get (store sc) (writes sc) key = Ok None \/
   btree.Get (store sc) (writes sc) key = Ok (Some p)).

(** The store [st'] has, at every place of [st], an item with the same
    key. *)
Definition same_keys (st st' : list CacheItem) : Prop :=
  forall (q : loc) (v : CacheItem),
    st !! q = Some v -> exists v', st' !! q = Some v' /\ same_key v' v.

(** An operation is [fuelled] when the fuel given to its loops suffices
    in every state: it returns or panics. *)
Definition fuelled {A} (m : M A) : Prop := forall sc, m sc <> OutOfFuel.

Definition fuelled_heap (h : Interface) : Prop :=
  fuelled (h_Len h) /\
  (forall i j, fuelled (h_Less h i j)) /\
  (forall i j, fuelled (h_Swap h i j)) /\
  (forall x, fuelled (h_Push h x)) /\
  fuelled (h_Pop h).

(** A cache of limits 2 and 2 after one read insertion, and after one
    write. *)
Definition read12 : StateCache :=
  state_of (from_new 32 2 2 (SetAccountRead addr1 acc1)).
Definition written12 : StateCache :=
  state_of (from_new 32 2 2 (SetAccountWrite addr1 acc1)).

(* ------------------------------------------------------------------ *)
(** * Properties of the byte comparison *)

Lemma to_N_inj (x y : byte) : Byte.to_N x = Byte.to_N y -> x = y.
Proof.
  intros H.
  assert (E : Some x = Some y).
  { rewrite <- (Byte.of_to_N x), <- (Byte.of_to_N y), H. reflexivity. }
  now inversion E.
Qed.

Lemma bytes_Compare_range (a b : list byte) :
  bytes_Compare a b = -1 \/ bytes_Compare a b = 0 \/ bytes_Compare a b = 1.
Proof.
  revert b; induction a as [|x a IH]; intros [|y b]; simpl; auto.
  destruct (N.ltb_spec (Byte.to_N x) (Byte.to_N y)); auto.
  destruct (N.ltb_spec (Byte.to_N y) (Byte.to_N x)); auto.
Qed.

Lemma bytes_Compare_eq (a b : list byte) :
  bytes_Compare a b = 0 <-> a = b.
Proof.
  revert b; induction a as [|x a IH]; intros [|y b]; simpl;
    try (split; [lia | discriminate]); try tauto.
  destruct (N.ltb_spec (Byte.to_N x) (Byte.to_N y)) as [Hxy|Hxy].
  { split; [lia|]. intros E; inversion E; subst; lia. }
  destruct (N.ltb_spec (Byte.to_N y) (Byte.to_N x)) as [Hyx|Hyx].
  { split; [lia|]. intros E; inversion E; subst; lia. }
  assert (x = y) by (apply to_N_inj; lia). subst y.
  rewrite IH. split; [now intros -> | now inversion 1].
Qed.

Lemma bytes_Compare_antisym (a b : list byte) :
  bytes_Compare b a = - bytes_Compare a b.
Proof.
  revert b; induction a as [|x a IH]; intros [|y b]; simpl; try reflexivity.
  destruct (N.ltb_spec (Byte.to_N x) (Byte.to_N y)),
           (N.ltb_spec (Byte.to_N y) (Byte.to_N x)); try lia; auto.
Qed.

Lemma bytes_Compare_trans (a b c : list byte) :
  bytes_Compare a b < 0 -> bytes_Compare b c < 0 -> bytes_Compare a c < 0.
Proof.
  revert b c; induction a as [|x a IH]; intros [|y b] [|z c]; simpl; try lia.
  destruct (N.ltb_spec (Byte.to_N x) (Byte.to_N y)),
           (N.ltb_spec (Byte.to_N y) (Byte.to_N x)),
           (N.ltb_spec (Byte.to_N y) (Byte.to_N z)),
           (N.ltb_spec (Byte.to_N z) (Byte.to_N y)),
           (N.ltb_spec (Byte.to_N x) (Byte.to_N z)),
           (N.ltb_spec (Byte.to_N z) (Byte.to_N x)); try lia.
  apply IH.
Qed.

(** The sign of a comparison, as the three cases the order needs. *)
Lemma bytes_Compare_cases (a b : list byte) :
  (bytes_Compare a b < 0 /\ 0 < bytes_Compare b a /\ a <> b) \/
  (bytes_Compare a b = 0 /\ bytes_Compare b a = 0 /\ a = b) \/
  (0 < bytes_Compare a b /\ bytes_Compare b a < 0 /\ a <> b).
Proof.
  pose proof (bytes_Compare_antisym a b) as Ha.
  pose proof (bytes_Compare_eq a b) as He.
  destruct (bytes_Compare_range a b) as [H|[H|H]].
  - left. repeat split; try lia. intros E. apply He in E. lia.
  - right; left. repeat split; try lia. now apply He.
  - right; right. repeat split; try lia. intros E. apply He in E. lia.
Qed.

(* ------------------------------------------------------------------ *)
(** * The order of the items *)

Ltac less_unfold :=
  unfold Less, AccountCacheItem_Less, StorageCacheItem_Less, CodeCacheItem_Less,
    spec_less, item_address, lift_item, class_rank, same_key in *;
  cbn [aci_address sci_address cci_address sci_incarnation sci_location] in *.

Ltac bool_cases :=
  repeat match goal with
  | |- context [?x =? ?y] => destruct (Z.eqb_spec x y)
  | |- context [?x <? ?y] => destruct (Z.ltb_spec x y)
  | H : context [?x =? ?y] |- _ => destruct (Z.eqb_spec x y)
  | H : context [?x <? ?y] |- _ => destruct (Z.ltb_spec x y)
  end.

Lemma Less_spec_less (a b : CacheItem) : Less a b = spec_less a b.
Proof.
  destruct a as [x|x|x], b as [y|y|y]; less_unfold;
    bool_cases; try reflexivity; try lia.
Qed.

Lemma Less_trichotomy (a b : CacheItem) :
  (Less a b = true /\ Less b a = false /\ ~ same_key a b) \/
  (Less a b = false /\ Less b a = true /\ ~ same_key a b) \/
  (Less a b = false /\ Less b a = false /\ same_key a b).
Proof.
  destruct a as [x|x|x], b as [y|y|y]; less_unfold;
    match goal with
    | |- context [bytes_Compare ?p ?q] =>
        destruct (bytes_Compare_cases p q) as [(?&?&?)|[(?&?&?)|(?&?&?)]]
    end;
    try (destruct (bytes_Compare_cases (sci_location x) (sci_location y))
           as [(?&?&?)|[(?&?&?)|(?&?&?)]]);
    bool_cases; try lia;
    try (left; repeat split; [tauto || congruence ..]; fail);
    try (left; repeat split; try reflexivity; intuition congruence);
    try (right; left; repeat split; try reflexivity; intuition congruence);
    try (right; right; repeat split; try reflexivity; intuition congruence).
Qed.

Lemma bytes_lt_irrefl (a : list byte) : ~ bytes_Compare a a < 0.
Proof.
  assert (bytes_Compare a a = 0) by now apply bytes_Compare_eq. lia.
Qed.

Ltac address_facts p q r :=
  pose proof (bytes_Compare_trans p q r);
  pose proof (bytes_lt_irrefl p);
  pose proof (bytes_lt_irrefl q);
  pose proof (bytes_lt_irrefl r);
  destruct (bytes_Compare_cases p q) as [(?&?&?)|[(?&?&?)|(?&?&?)]];
  destruct (bytes_Compare_cases q r) as [(?&?&?)|[(?&?&?)|(?&?&?)]];
  try subst p; try subst q; try subst r.

Lemma Less_trans (a b c : CacheItem) :
  Less a b = true -> Less b c = true -> Less a c = true.
Proof.
  destruct a as [[pa ? ? ? ?]|[pa ia la ? ? ? ?]|[pa ? ? ? ?]],
           b as [[pb ? ? ? ?]|[pb ib lb ? ? ? ?]|[pb ? ? ? ?]],
           c as [[pc ? ? ? ?]|[pc ic lc ? ? ? ?]|[pc ? ? ? ?]];
    less_unfold; intros Hab Hbc;
    address_facts pa pb pc;
    try (address_facts la lb lc);
    bool_cases; try reflexivity; try discriminate; try lia.
Qed.

Lemma Less_irrefl (a : CacheItem) : Less a a = false.
Proof.
  destruct (Less_trichotomy a a) as [(H1&H2&_)|[(H1&H2&_)|(H1&_)]];
    congruence.
Qed.

(** ** Walks over an ascending sequence *)

Lemma Less_segment_mono (A : Address) (x y : CacheItem) :
  Less x y = true -> (segment A x <= segment A y)%nat.
Proof.
  destruct x as [[px ? ? ? ?]|[px ? ? ? ? ? ?]|[px ? ? ? ?]],
           y as [[py ? ? ? ?]|[py ? ? ? ? ? ?]|[py ? ? ? ?]];
    unfold segment; less_unfold; intros Hxy;
    address_facts px py A;
    bool_cases; try discriminate; try lia.
Qed.

Lemma not_Less_account_key (address : list byte) (x : CacheItem) :
  negb (Less x (account_key address)) =
  (1 <=? segment (item_address (account_key address)) x)%nat.
Proof.
  unfold account_key. cbn [item_address lift_item aci_set_address aci_address].
  set (A := copy_bytes _ _).
  destruct x as [[px ? ? ? ?]|[px ? ? ? ? ? ?]|[px ? ? ? ?]];
    unfold segment; less_unfold; cbn [aci_set_address aci_address];
    fold A; bool_cases; try reflexivity; try lia.
Qed.

Lemma filter_all_false {T} (p : T -> bool) (l : list T) :
  Forall (fun x => p x = false) l -> List.filter p l = [].
Proof.
  induction 1 as [|x l Hx _ IH]; simpl; [reflexivity|].
  now rewrite Hx.
Qed.

Lemma filter_ext_Forall {T} (p q : T -> bool) (l : list T) :
  Forall (fun x => p x = q x) l -> List.filter p l = List.filter q l.
Proof.
  induction 1 as [|x l Hx _ IH]; simpl; [reflexivity|].
  rewrite Hx, IH. reflexivity.
Qed.

Lemma ascending_cons (x : CacheItem) (l : list CacheItem) :
  ascending (x :: l) = true ->
  Forall (fun y => Less x y = true) l /\ ascending l = true.
Proof.
  simpl. rewrite andb_true_iff, forallb_forall. intros [H1 H2]. split; auto.
  apply List.Forall_forall. exact H1.
Qed.

(** In an ascending sequence the items of segment [n] come as one block,
    before all items of later segments. *)
Lemma ascending_split (A : Address) (n : nat) (l : list CacheItem) :
  ascending l = true ->
  List.filter (fun x => (n <=? segment A x)%nat) l =
  List.filter (fun x => (segment A x =? n)%nat) l ++
  List.filter (fun x => (S n <=? segment A x)%nat) l.
Proof.
  induction l as [|x l IH]; intros Hl; [reflexivity|].
  apply ascending_cons in Hl as [Hx Hl]. specialize (IH Hl).
  cbn [List.filter].
  destruct (Nat.leb_spec n (segment A x)) as [Hn|Hn].
  - destruct (Nat.eqb_spec (segment A x) n) as [He|He].
    + destruct (Nat.leb_spec (S n) (segment A x)); [lia|].
      cbn [app]. now rewrite IH.
    + destruct (Nat.leb_spec (S n) (segment A x)); [|lia].
      rewrite (filter_all_false (fun y => (segment A y =? n)%nat) l).
      * cbn [app]. f_equal. apply filter_ext_Forall.
        eapply List.Forall_impl; [|exact Hx]. intros y Hy. simpl in Hy.
        apply (Less_segment_mono A) in Hy.
        destruct (Nat.leb_spec n (segment A y)), (Nat.leb_spec (S n) (segment A y));
          try reflexivity; lia.
      * eapply List.Forall_impl; [|exact Hx]. intros y Hy. simpl in Hy.
        apply (Less_segment_mono A) in Hy. apply Nat.eqb_neq. lia.
  - destruct (Nat.eqb_spec (segment A x) n); [lia|].
    destruct (Nat.leb_spec (S n) (segment A x)); [lia|]. exact IH.
Qed.

Lemma ascending_filter (p : CacheItem -> bool) (l : list CacheItem) :
  ascending l = true -> ascending (List.filter p l) = true.
Proof.
  induction l as [|x l IH]; intros Hl; [reflexivity|].
  apply ascending_cons in Hl as [Hx Hl]. simpl.
  destruct (p x); [|now apply IH].
  simpl. rewrite IH by assumption. rewrite andb_true_r.
  apply forallb_forall. intros y Hy. apply List.filter_In in Hy as [Hy _].
  rewrite List.Forall_forall in Hx. now apply Hx.
Qed.

Lemma segment_account (A : Address) (x : CacheItem) :
  (segment A x =? 1)%nat = is_account_of A x.
Proof.
  destruct x; unfold segment, is_account_of; less_unfold;
    bool_cases; try reflexivity; lia.
Qed.
Lemma segment_code (A : Address) (x : CacheItem) :
  (segment A x =? 2)%nat = is_code_of A x.
Proof.
  destruct x; unfold segment, is_code_of; less_unfold;
    bool_cases; try reflexivity; lia.
Qed.
Lemma segment_storage (A : Address) (x : CacheItem) :
  (segment A x =? 3)%nat = is_storage_of A x.
Proof.
  destruct x; unfold segment, is_storage_of; less_unfold;
    bool_cases; try reflexivity; lia.
Qed.
Lemma segment_above (A : Address) (x : CacheItem) :
  (4 <=? segment A x)%nat = address_above A x.
Proof.
  destruct x; unfold segment, address_above; less_unfold;
    bool_cases; try reflexivity; lia.
Qed.

Lemma ascend_from_account_key (address : list byte) (l : list CacheItem) :
  ascending l = true ->
  let A := item_address (account_key address) in
  ascend_from (account_key address) l =
    List.filter (is_account_of A) l ++ List.filter (is_code_of A) l ++
    List.filter (is_storage_of A) l ++ List.filter (address_above A) l.
Proof.
  intros Hl A. unfold ascend_from.
  rewrite (List.filter_ext _ _ (not_Less_account_key address)). fold A.
  rewrite (ascending_split A 1 l Hl), (ascending_split A 2 l Hl),
          (ascending_split A 3 l Hl).
  rewrite (List.filter_ext _ _ (segment_account A)),
          (List.filter_ext _ _ (segment_code A)),
          (List.filter_ext _ _ (segment_storage A)),
          (List.filter_ext _ _ (segment_above A)).
  reflexivity.
Qed.

(** C9.  The comparison [Less] implements the stated total order over the
    three kinds of items: it agrees with the order worded by the
    specification (address first, then Account before Code before Storage,
    then incarnation and location among storage slots); for any two items
    exactly one of [a < b], [b < a] and key equality holds; the order is
    transitive; and an in-order walk that starts at the account key of an
    address yields the account of that address, then its code, then its
    storage slots in ascending order, and only then items of larger
    addresses. *)
Theorem C9_Less_total_order (a b c : CacheItem) :
  Less a b = spec_less a b /\
  ((Less a b = true /\ Less b a = false /\ ~ same_key a b) \/
   (Less a b = false /\ Less b a = true /\ ~ same_key a b) \/
   (Less a b = false /\ Less b a = false /\ same_key a b)) /\
  (Less a b = true -> Less b c = true -> Less a c = true) /\
  (forall (address : list byte) (l : list CacheItem),
      ascending l = true ->
      ascend_from (account_key address) l =
        List.filter (is_account_of (item_address (account_key address))) l ++
        List.filter (is_code_of (item_address (account_key address))) l ++
        List.filter (is_storage_of (item_address (account_key address))) l ++
        List.filter (address_above (item_address (account_key address))) l /\
      ascending
        (List.filter (is_storage_of (item_address (account_key address))) l)
        = true).
Proof.
  split; [apply Less_spec_less|].
  split; [apply Less_trichotomy|].
  split; [apply Less_trans|].
  intros address l Hl. split.
  - exact (ascend_from_account_key address l Hl).
  - now apply ascending_filter.
Qed.

(** The walk from the account key of the second address over a sample
    index of three addresses. *)
Lemma C9_Less_total_order_witness :
  ascending sample_index = true /\
  ascend_from (account_key addr2) sample_index =
    [ AccountItem (aci_set_address addr2 AccountCacheItem_zero);
      CodeItem (cci_set_address addr2 CodeCacheItem_zero);
      StorageItem (sci_set_incarnation 1 (sci_set_address addr2 StorageCacheItem_zero));
      StorageItem (sci_set_location loc7
        (sci_set_incarnation 1 (sci_set_address addr2 StorageCacheItem_zero)));
      StorageItem (sci_set_incarnation 2 (sci_set_address addr2 StorageCacheItem_zero));
      CodeItem (cci_set_address addr3 CodeCacheItem_zero) ].
Proof.
  split; [reflexivity|].
  destruct (C9_Less_total_order
              (account_key addr1) (code_key addr1) (storage_key addr1 0 loc7))
    as (_ & _ & _ & Hwalk).
  destruct (Hwalk addr2 sample_index eq_refl) as [-> _].
  reflexivity.
Defined.

(* ------------------------------------------------------------------ *)
(** * Stepping through the monad *)

Lemma bind_alloc {B} (v : CacheItem) (k : loc -> M B) (sc : StateCache) :
  bind (alloc v) k sc =
  k (length (store sc)) (set_store (store sc ++ [v]) sc).
Proof. reflexivity. Qed.

Lemma lookup_alloc (st : list CacheItem) (v : CacheItem) :
  (st ++ [v]) !! length st = Some v.
Proof. now apply list_lookup_middle. Qed.

Lemma lookup_updated (st : list CacheItem) (p : loc) (v w : CacheItem) :
  st !! p = Some v -> <[p := w]> st !! p = Some w.
Proof.
  intros H. apply list_lookup_insert_eq. now apply lookup_lt_Some in H.
Qed.

Lemma bind_update {B} (p : loc) (f : CacheItem -> CacheItem) (k : unit -> M B)
    (sc : StateCache) (v : CacheItem) :
  store sc !! p = Some v ->
  bind (update (Some p) f) k sc =
  k tt (set_store (<[p := f v]> (store sc)) sc).
Proof.
  intros H. unfold update, bind, deref, modify. now rewrite H.
Qed.

Lemma bind_update_account {B} (p : loc) (f : AccountCacheItem -> AccountCacheItem)
    (k : unit -> M B) (sc : StateCache) (a : AccountCacheItem) :
  store sc !! p = Some (AccountItem a) ->
  bind (update_account (Some p) f) k sc =
  k tt (set_store (<[p := AccountItem (f a)]> (store sc)) sc).
Proof.
  intros H. unfold update_account, as_account, update, bind, deref, modify, ret.
  rewrite H. cbn iota beta. now rewrite H.
Qed.

Lemma bind_update_storage {B} (p : loc) (f : StorageCacheItem -> StorageCacheItem)
    (k : unit -> M B) (sc : StateCache) (s : StorageCacheItem) :
  store sc !! p = Some (StorageItem s) ->
  bind (update_storage (Some p) f) k sc =
  k tt (set_store (<[p := StorageItem (f s)]> (store sc)) sc).
Proof.
  intros H. unfold update_storage, as_storage, update, bind, deref, modify, ret.
  rewrite H. cbn iota beta. now rewrite H.
Qed.

Lemma bind_update_code {B} (p : loc) (f : CodeCacheItem -> CodeCacheItem)
    (k : unit -> M B) (sc : StateCache) (c : CodeCacheItem) :
  store sc !! p = Some (CodeItem c) ->
  bind (update_code (Some p) f) k sc =
  k tt (set_store (<[p := CodeItem (f c)]> (store sc)) sc).
Proof.
  intros H. unfold update_code, as_code, update, bind, deref, modify, ret.
  rewrite H. cbn iota beta. now rewrite H.
Qed.

(** The index operations run without fuel. *)
Lemma Get_fuel_free (st : list CacheItem) (t : BTree) (key : CacheItem) :
  btree.Get st t key <> OutOfFuel.
Proof.
  induction t as [|p t IH]; simpl; [discriminate|].
  destruct (st !! p); [|discriminate].
  destruct (Less c key); [exact IH|].
  destruct (Less key c); discriminate.
Qed.

Lemma insert_nonempty (st : list CacheItem) (t : BTree) (p : loc) (v : CacheItem) :
  match btree.insert st t p v with
  | Ok t' => t' <> []
  | Panic _ => True
  | OutOfFuel => False
  end.
Proof.
  induction t as [|q t IH]; simpl; [discriminate|].
  destruct (st !! q); [|exact I].
  destruct (Less c v).
  - destruct (btree.insert st t p v); auto; discriminate.
  - destruct (Less v c); discriminate.
Qed.

(** ** Lookups *)

Lemma get_missing (sc : StateCache) (key : CacheItem) :
  missing sc key -> get key sc = Ok ((None, false), sc).
Proof.
  unfold missing, get, readWrites_Get, bind, gets, liftR, ret.
  now intros ->.
Qed.


(** ** Read insertion without room for reads *)

Lemma setRead_no_room (sc : StateCache) (p : loc) (v : CacheItem) :
  limitReads sc = 0 ->
  0 <= readQueue_end sc ->
  slot0_empty sc ->
  store sc !! p = Some v ->
  is_panic (setRead (Some p) sc).
Proof.
  intros Hlim Hend Hslot Hp.
  unfold setRead.
  unfold bind at 1. unfold deref at 1. rewrite Hp.
  unfold bind at 1. unfold readWrites_Get, bind, gets, liftR.
  pose proof (Get_fuel_free (store sc) (readWrites sc) v) as Hfuel.
  destruct (btree.Get (store sc) (readWrites sc) v) as [[q|]|e|];
    [exact I| |exact I|congruence].
  fold (@bind unit unit).
  change (is_panic
    (bind (update (Some p) (SetQueuePos 0)) (fun _ =>
       bind (gets sequence) (fun s =>
       bind (update (Some p) (SetSequence s)) (fun _ =>
       bind (readWrites_ReplaceOrInsert (Some p)) (fun _ =>
       bind ReadHeap_Len (fun len =>
       bind (gets limitReads) (fun lim =>
         if lim <=? len
         then bind (items_get 0) (fun old =>
              bind (readWrites_Delete old) (fun _ =>
              bind (items_set 0 (Some p)) (fun _ => heap.Fix readQueue 0)))
         else heap.Push readQueue (Some p))))))) sc)).
  rewrite (bind_update p _ _ sc v Hp).
  set (sc1 := set_store _ sc).
  assert (Hp1 : store sc1 !! p = Some (SetQueuePos 0 v))
    by (apply (lookup_updated _ _ v); exact Hp).
  unfold bind at 1. unfold gets at 1.
  rewrite (bind_update p _ _ sc1 _ Hp1).
  set (sc2 := set_store _ sc1).
  assert (Hp2 : store sc2 !! p = Some (SetSequence (sequence sc1) (SetQueuePos 0 v)))
    by (apply (lookup_updated _ _ (SetQueuePos 0 v)); exact Hp1).
  unfold bind at 1.
  unfold readWrites_ReplaceOrInsert, bind, gets, liftR, btree.ReplaceOrInsert.
  rewrite Hp2.
  pose proof (insert_nonempty (store sc2) (readWrites sc2) p
                (SetSequence (sequence sc1) (SetQueuePos 0 v))) as Hins.
  destruct (btree.insert _ _ _ _) as [t'| |]; [|exact I|contradiction].
  unfold modify, ReadHeap_Len, gets.
  cbn [limitReads readQueue_end set_readWrites set_store sc2 sc1].
  rewrite Hlim.
  destruct (Z.leb_spec 0 (readQueue_end sc)) as [_|]; [|lia].
  unfold items_get.
  change (heapItems (set_readWrites t' sc2)) with (heapItems sc).
  unfold slot0_empty in Hslot.
  destruct (heapItems sc) as [|[x|] items]; [exact I|contradiction|].
  cbn [length].
  replace ((0 <? 0) || (Z.of_nat (S (length items)) <=? 0)) with false
    by (symmetry; apply orb_false_iff; split; [reflexivity | apply Z.leb_gt; lia]).
  cbn [Z.to_nat lookup list_lookup].
  unfold readWrites_Delete, bind, gets, liftR, btree.Delete.
  cbn [readWrites set_readWrites].
  destruct t'; [congruence | exact I].
Qed.

(* ------------------------------------------------------------------ *)
(** * The coordinator on concrete runs *)

(** C1.  Write-then-read: a storage or code write of a key that the cache
    does not hold yet pushes the new item on the write heap and returns
    without inserting it into [readWrites] or [writes]; the lookup that
    follows does not find the value just written.  ([SetAccountWrite]
    does insert, and its lookup returns the value.) *)
Theorem C1_fresh_storage_code_write_lost
    (address location value code : list byte) (incarnation : Z) (account : Account) :
  (exists sc,
      from_new 32 2 2
        (run SetStorageWrite address incarnation location value ;;
         GetStorage address incarnation location) = Ok ((None, false), sc) /\
      readWrites sc = [] /\ writes sc = [] /\
      heapItems sc = [None; None; None; Some 0%nat]) /\
  (exists sc,
      from_new 32 2 2
        (run SetCodeWrite address code ;; GetCode address)
        = Ok ((None, true), sc) /\
      readWrites sc = [] /\ writes sc = [] /\
      heapItems sc = [None; None; None; Some 0%nat]) /\
  (exists sc,
      from_new 32 2 2 (SetAccountWrite address account) = Ok (tt, sc) /\
      readWrites sc = [0%nat] /\ writes sc = [0%nat]) /\
  (exists sc,
      from_new 32 2 2
        (run SetAccountWrite addr1 account ;; GetAccount addr1)
        = Ok ((Some account, true), sc)).
Proof.
  split; [|split; [|split]].
  - eexists. split; [vm_compute; reflexivity|]. repeat split.
  - eexists. split; [vm_compute; reflexivity|]. repeat split.
  - eexists. split; [vm_compute; reflexivity|]. repeat split.
  - eexists. vm_compute. reflexivity.
Qed.

(** C2.  A write over a clean read: the existing item is updated in
    place, leaves the read heap and is pushed on the write heap, and the
    lookup returns the new value with one item in [readWrites]; the item
    is not inserted into [writes], which stays empty. *)
Theorem C2_read_then_write_skips_writes_index (A A' : Account) :
  exists sc,
    from_new 32 2 2
      (run SetAccountRead addr1 A ;;
       run SetAccountWrite addr1 A' ;;
       GetAccount addr1) = Ok ((Some A', true), sc) /\
    readWrites sc = [0%nat] /\
    store sc !! 0%nat =
      Some (AccountItem (mkAccountCacheItem addr1 A' 0 0 ModifiedFlag)) /\
    readQueue_end sc = 0 /\
    writeQueue_start sc = 3 /\
    heapItems sc !! 3%nat = Some (Some 0%nat) /\
    btree.Len (readWrites sc) = 1 /\
    btree.Len (writes sc) = 0 /\
    btree.Get (store sc) (writes sc) (account_key addr1) = Ok None.
Proof.
  eexists. split; [vm_compute; reflexivity|]. repeat split.
Qed.

(** C3.  After [TurnWritesToReads] the [writes] index still holds every
    item it held before, and an item that reached the write heap without
    being in [writes] keeps its [MODIFIED] flag. *)
Theorem C3_commit_leaves_writes_and_modified (A A' : Account) :
  (exists sc,
      from_new 32 2 2
        (run SetAccountWrite addr1 A ;; TurnWritesToReads) = Ok (tt, sc) /\
      btree.Len (writes sc) = 1 /\
      no_live_modified sc = true) /\
  (exists sc,
      from_new 32 2 2
        (run SetAccountRead addr1 A ;;
         run SetAccountWrite addr1 A' ;;
         TurnWritesToReads) = Ok (tt, sc) /\
      readWrites sc = [0%nat] /\
      item_modified sc 0%nat = true /\
      no_live_modified sc = false).
Proof.
  split; eexists; (split; [vm_compute; reflexivity|]); repeat split.
Qed.

(** C4.  Heap positions: the second read pushed on the read heap sits in
    slot 1 with [queuePos] 0, and a swap in the write heap stamps the
    positions on the items of the unreflected slots (or panics when one of
    those slots is nil), so a live item is not at the slot its [queuePos]
    designates. *)
Theorem C4_queuePos_out_of_step (A : Account) :
  (exists sc,
      from_new 32 2 2
        (run SetAccountRead addr1 A ;; SetAccountRead addr2 A) = Ok (tt, sc) /\
      readWrites sc = [0%nat; 1%nat] /\
      heapItems sc !! 1%nat = Some (Some 1%nat) /\
      GetQueuePos <$> (store sc !! 1%nat) = Some 0 /\
      heap_positions_ok sc = false) /\
  (exists sc,
      from_new 32 0 2
        (run SetAccountWrite addr1 A ;;
         run SetAccountWrite addr2 A ;;
         SetAccountWrite addr1 A) = Ok (tt, sc) /\
      readWrites sc = [0%nat; 1%nat] /\
      heapItems sc = [Some 0%nat; Some 1%nat] /\
      GetQueuePos <$> (store sc !! 0%nat) = Some 0 /\
      GetQueuePos <$> (store sc !! 1%nat) = Some 1 /\
      heap_positions_ok sc = false) /\
  from_new 32 2 2
    (run SetAccountWrite addr1 A ;;
     run SetAccountWrite addr2 A ;;
     SetAccountWrite addr1 A) = Panic NilDereference.
Proof.
  split; [|split].
  - eexists. split; [vm_compute; reflexivity|]. repeat split.
  - eexists. split; [vm_compute; reflexivity|]. repeat split.
  - vm_compute. reflexivity.
Qed.

(** C5.  Read insertions take the current value of the counter without
    advancing it: two reads in a row carry the same sequence number, and
    the counter is unchanged; a write advances it. *)
Theorem C5_reads_share_a_sequence (A : Account) :
  (exists sc,
      from_new 32 2 2
        (run SetAccountRead addr1 A ;; SetAccountRead addr2 A) = Ok (tt, sc) /\
      live_sequences sc = [0; 0] /\
      sequence sc = 0) /\
  (exists sc,
      from_new 32 2 2
        (run SetAccountWrite addr1 A ;; SetAccountWrite addr2 A) = Ok (tt, sc) /\
      live_sequences sc = [0; 1] /\
      sequence sc = 2).
Proof.
  split; eexists; (split; [vm_compute; reflexivity|]); repeat split.
Qed.

(** C6.  Deletes: on a key the cache does not hold, [SetAccountDelete]
    and [SetStorageDelete] leave the item with [DELETED] alone (flags 2),
    without [MODIFIED]; a storage delete over a clean read sets both flags
    and keeps the old value. *)
Theorem C6_delete_flags (A : Account) :
  (exists sc,
      from_new 32 2 2 (SetAccountDelete addr1) = Ok (tt, sc) /\
      readWrites sc = [0%nat] /\
      item_flags <$> (store sc !! 0%nat) = Some DeletedFlag /\
      item_modified sc 0%nat = false) /\
  (exists sc,
      from_new 32 2 2 (SetStorageDelete addr1 1 loc7) = Ok (tt, sc) /\
      heapItems sc !! 3%nat = Some (Some 0%nat) /\
      item_flags <$> (store sc !! 0%nat) = Some DeletedFlag) /\
  (exists sc,
      from_new 32 2 2
        (run SetStorageRead addr1 1 loc7 val9 ;; SetStorageDelete addr1 1 loc7)
        = Ok (tt, sc) /\
      store sc !! 0%nat =
        Some (StorageItem
                (mkStorageCacheItem addr1 1 loc7 val9 0 0
                   (Z.lor ModifiedFlag DeletedFlag)))).
Proof.
  repeat split; eexists; (split; [vm_compute; reflexivity|]); repeat split.
Qed.




(** C8.  On a key that [readWrites] does not hold, [GetAccount] and
    [GetStorage] report not found ([false]) while [GetCode] reports
    [true] with a nil slice. *)
Theorem C8_GetCode_miss_reports_found (sc : StateCache) (address location : list byte)
    (incarnation : Z) :
  match btree.Get (store sc) (readWrites sc) (code_key address) with
  | Ok None => eval (GetCode address) sc = Ok (None, true)
  | _ => True
  end /\
  match btree.Get (store sc) (readWrites sc) (account_key address) with
  | Ok None => eval (GetAccount address) sc = Ok (None, false)
  | _ => True
  end /\
  match btree.Get (store sc) (readWrites sc)
          (storage_key address incarnation location) with
  | Ok None => eval (GetStorage address incarnation location) sc = Ok (None, false)
  | _ => True
  end /\
  eval (GetCode address) fresh22 = Ok (None, true) /\
  eval (GetAccount address) fresh22 = Ok (None, false) /\
  eval (GetStorage address incarnation location) fresh22 = Ok (None, false).
Proof.
  repeat split; try reflexivity.
  - destruct (btree.Get _ _ (code_key address)) as [[p|]| |] eqn:E; try exact I.
    unfold eval, GetCode, bind. now rewrite (get_missing sc _ E).
  - destruct (btree.Get _ _ (account_key address)) as [[p|]| |] eqn:E; try exact I.
    unfold eval, GetAccount, bind. now rewrite (get_missing sc _ E).
  - destruct (btree.Get _ _ (storage_key _ _ _)) as [[p|]| |] eqn:E; try exact I.
    unfold eval, GetStorage, bind. now rewrite (get_missing sc _ E).
Qed.

Ltac store_lookup :=
  cbn [store set_store];
  repeat (eapply lookup_updated); apply lookup_alloc.

Ltac step_update :=
  first
    [ erewrite bind_update_account by store_lookup
    | erewrite bind_update_storage by store_lookup
    | erewrite bind_update_code by store_lookup ].

Ltac no_room_tac :=
  rewrite bind_alloc; repeat step_update;
  eapply setRead_no_room; [assumption | assumption | assumption | store_lookup].

(** C10.  A cache built with [limitReads = 0] and [limitWrites = 1].
    Once a write occupies slot 0 of the shared array, the eviction branch
    of [setRead] takes that slot for the oldest read: the read
    insertion returns instead of panicking, the written account is
    deleted from [readWrites] while it still carries [MODIFIED] and is
    no longer found, and the read takes its slot and is found by the
    lookup, in a cache whose limit on reads is 0. *)
Theorem C10_read_cached_without_read_room :
  exists sc,
    from_new 32 0 1
      (run SetAccountWrite addr1 acc1 ;;
       run SetAccountRead addr2 acc2 ;;
       GetAccount addr2) = Ok ((Some acc2, true), sc) /\
    limitReads sc = 0 /\
    readWrites sc = [1%nat] /\
    heapItems sc = [Some 1%nat] /\
    item_modified sc 0%nat = true /\
    eval (GetAccount addr1) sc = Ok (None, false).
Proof.
  eexists. split; [vm_compute; reflexivity|]. repeat split.
Qed.

(** X17.  With [limitReads = 0] the eviction branch of [setRead] is taken
    on every call; it deletes the item of slot 0 of the backing array from
    [readWrites].  While that slot holds no item (the array is empty or
    the slot is nil, as in the cache just constructed) each of the six
    read insertions panics. *)
Theorem X17_no_read_room_panics_on_empty_slot (sc : StateCache) :
  limitReads sc = 0 ->
  0 <= readQueue_end sc ->
  slot0_empty sc ->
  (forall address account, is_panic (SetAccountRead address account sc)) /\
  (forall address, is_panic (SetAccountAbsent address sc)) /\
  (forall address incarnation location value,
      is_panic (SetStorageRead address incarnation location value sc)) /\
  (forall address incarnation location,
      is_panic (SetStorageAbsent address incarnation location sc)) /\
  (forall address code, is_panic (SetCodeRead address code sc)) /\
  (forall address, is_panic (SetCodeAbsent address sc)).
Proof.
  intros Hlim Hend Hslot.
  repeat split; intros.
  - unfold SetAccountRead. no_room_tac.
  - unfold SetAccountAbsent. no_room_tac.
  - unfold SetStorageRead. no_room_tac.
  - unfold SetStorageAbsent. no_room_tac.
  - unfold SetCodeRead. no_room_tac.
  - unfold SetCodeAbsent. no_room_tac.
Qed.

(** The cache just constructed with limits 0 and 2. *)
Lemma X17_no_read_room_panics_on_empty_slot_witness :
  limitReads fresh02 = 0 /\
  is_panic (SetAccountRead addr1 acc1 fresh02) /\
  is_panic (SetCodeAbsent addr1 fresh02).
Proof.
  assert (H0 : limitReads fresh02 = 0) by reflexivity.
  assert (H1 : 0 <= readQueue_end fresh02) by (vm_compute; discriminate).
  assert (H2 : slot0_empty fresh02) by exact I.
  destruct (X17_no_read_room_panics_on_empty_slot fresh02 H0 H1 H2)
    as (Ha & _ & _ & _ & _ & Hc).
  split; [exact H0|]. split; [apply Ha | apply Hc].
Defined.

(* ------------------------------------------------------------------ *)
(** * Lookups in any state *)

Lemma bind_Ok_inv {A B} (m : M A) (k : A -> M B) (sc sc'' : StateCache) (b : B) :
  bind m k sc = Ok (b, sc'') ->
  exists a sc', m sc = Ok (a, sc') /\ k a sc' = Ok (b, sc'').
Proof.
  unfold bind. destruct (m sc) as [[a sc']| |]; try discriminate.
  intros H. now exists a, sc'.
Qed.

Lemma Get_found (st : list CacheItem) (t : BTree) (key : CacheItem) (p : loc) :
  btree.Get st t key = Ok (Some p) ->
  exists v, st !! p = Some v /\ Less v key = false /\ Less key v = false.
Proof.
  induction t as [|q t IH]; simpl; [discriminate|].
  destruct (st !! q) as [x|] eqn:Eq; [|discriminate].
  destruct (Less x key) eqn:E1; [exact IH|].
  destruct (Less key x) eqn:E2; [discriminate|].
  intros H. inversion H; subst. now exists x.
Qed.

Lemma Get_found_same_key (st : list CacheItem) (t : BTree) (key : CacheItem) (p : loc) :
  btree.Get st t key = Ok (Some p) ->
  exists v, st !! p = Some v /\ same_key v key.
Proof.
  intros H. apply Get_found in H as (v & Hv & H1 & H2).
  exists v. split; [exact Hv|].
  destruct (Less_trichotomy v key) as [(?&?&?)|[(?&?&?)|(?&?&?)]];
    congruence.
Qed.

(** X1.  [GetAccount] and [GetStorage] in any state.  The answer is read off
    the item that [readWrites] holds under the key: nothing under the key,
    or an item with [DELETED], gives no value and [false]; otherwise the
    stored value and [true].  The item found is of the kind the key asks
    for, so the type assertion of the lookup does not fail, and the state
    is returned unchanged. *)
Theorem X1_lookup_account_storage (sc : StateCache) (address location : list byte)
    (incarnation : Z) :
  match btree.Get (store sc) (readWrites sc) (account_key address) with
  | Ok None => GetAccount address sc = Ok ((None, false), sc)
  | Ok (Some p) =>
      exists a,
        store sc !! p = Some (AccountItem a) /\
        aci_address a = item_address (account_key address) /\
        GetAccount address sc =
          Ok ((if HasFlag DeletedFlag a then (None, false)
               else (Some (aci_account a), true)), sc)
  | Panic e => GetAccount address sc = Panic e
  | OutOfFuel => False
  end /\
  match btree.Get (store sc) (readWrites sc)
          (storage_key address incarnation location) with
  | Ok None => GetStorage address incarnation location sc = Ok ((None, false), sc)
  | Ok (Some p) =>
      exists s,
        store sc !! p = Some (StorageItem s) /\
        sci_address s = item_address (storage_key address incarnation location) /\
        sci_incarnation s = incarnation /\
        GetStorage address incarnation location sc =
          Ok ((if HasFlag DeletedFlag s then (None, false)
               else (Some (sci_value s), true)), sc)
  | Panic e => GetStorage address incarnation location sc = Panic e
  | OutOfFuel => False
  end.
Proof.
  split.
  - destruct (btree.Get _ _ _) as [[p|]|e|] eqn:E.
    + destruct (Get_found_same_key _ _ _ _ E) as (v & Hv & Hk).
      destruct v as [a|s|c]; try contradiction.
      exists a. split; [exact Hv|]. split; [exact Hk|].
      unfold GetAccount, get, readWrites_Get, bind, gets, liftR, ret, deref,
        as_account.
      rewrite E, Hv. cbn [HasFlag CacheItem_ops lift_item].
      destruct (HasFlag DeletedFlag a); cbn [fst snd]; [reflexivity|].
      unfold bind, deref, ret; rewrite ?Hv; reflexivity.
    + unfold GetAccount, bind. now rewrite (get_missing sc _ E).
    + unfold GetAccount, get, readWrites_Get, bind, gets, liftR. now rewrite E.
    + exact (Get_fuel_free _ _ _ E).
  - destruct (btree.Get _ _ _) as [[p|]|e|] eqn:E.
    + destruct (Get_found_same_key _ _ _ _ E) as (v & Hv & Hk).
      destruct v as [a|s|c]; try contradiction.
      destruct Hk as (Hk1 & Hk2 & _).
      exists s. split; [exact Hv|]. split; [exact Hk1|]. split; [exact Hk2|].
      unfold GetStorage, get, readWrites_Get, bind, gets, liftR, ret, deref,
        as_storage.
      rewrite E, Hv. cbn [HasFlag CacheItem_ops lift_item].
      destruct (HasFlag DeletedFlag s); cbn [fst snd]; [reflexivity|].
      unfold bind, deref, ret; rewrite ?Hv; reflexivity.
    + unfold GetStorage, bind. now rewrite (get_missing sc _ E).
    + unfold GetStorage, get, readWrites_Get, bind, gets, liftR. now rewrite E.
    + exact (Get_fuel_free _ _ _ E).
Qed.

(** X2.  [GetCode] in any state: the first result is the stored code of an
    item that [readWrites] holds without [DELETED], with [true] as the
    second, and nil in every other case.  The item found is a code item,
    so the type assertion does not fail, and the state is returned
    unchanged. *)
Theorem X2_lookup_code (sc : StateCache) (address : list byte) :
  match btree.Get (store sc) (readWrites sc) (code_key address) with
  | Ok None => exists found, GetCode address sc = Ok ((None, found), sc)
  | Ok (Some p) =>
      exists c,
        store sc !! p = Some (CodeItem c) /\
        cci_address c = item_address (code_key address) /\
        if HasFlag DeletedFlag c
        then exists found, GetCode address sc = Ok ((None, found), sc)
        else GetCode address sc = Ok ((cci_code c, true), sc)
  | Panic e => GetCode address sc = Panic e
  | OutOfFuel => False
  end.
Proof.
  destruct (btree.Get _ _ _) as [[p|]|e|] eqn:E.
  - destruct (Get_found_same_key _ _ _ _ E) as (v & Hv & Hk).
    destruct v as [a|s|c]; try contradiction.
    exists c. split; [exact Hv|]. split; [exact Hk|].
    unfold GetCode, get, readWrites_Get, bind, gets, liftR, ret, deref, as_code.
    rewrite E, Hv. cbn [HasFlag CacheItem_ops lift_item].
    destruct (HasFlag DeletedFlag c); cbn [fst snd]; [now exists true|].
    unfold bind, deref, ret; rewrite ?Hv; reflexivity.
  - exists true. unfold GetCode, bind. now rewrite (get_missing sc _ E).
  - unfold GetCode, get, readWrites_Get, bind, gets, liftR. now rewrite E.
  - exact (Get_fuel_free _ _ _ E).
Qed.

(* ------------------------------------------------------------------ *)
(** * Keys are fixed-size arrays *)

Lemma drop_repeat {T} (x : T) (n k : nat) :
  drop k (repeat x n) = repeat x (n - k).
Proof.
  revert k; induction n as [|n IH]; intros [|k]; simpl; auto.
Qed.

Lemma copy_into_zero (n : nat) (a : list byte) :
  copy_bytes (zero_bytes n) a = take n a ++ repeat x00 (n - length a).
Proof.
  unfold copy_bytes, zero_bytes. now rewrite repeat_length, drop_repeat.
Qed.

Lemma copy_into_zero_length (n : nat) (a : list byte) :
  length (copy_bytes (zero_bytes n) a) = n.
Proof.
  rewrite copy_into_zero, length_app, length_take, repeat_length. lia.
Qed.

Lemma copy_into_zero_take (n : nat) (a : list byte) :
  copy_bytes (zero_bytes n) (take n a) = copy_bytes (zero_bytes n) a.
Proof.
  rewrite !copy_into_zero, take_take, Nat.min_id, length_take.
  f_equal. f_equal. lia.
Qed.

Lemma take_repeat_fill {T} (x : T) (n k : nat) :
  take n (repeat x k) ++ repeat x (n - k) = repeat x n.
Proof.
  revert n; induction k as [|k IH]; intros [|n]; simpl; auto.
  now rewrite IH.
Qed.

Lemma take_app_repeat {T} (x : T) (n k : nat) (a : list T) :
  take n (a ++ repeat x k) ++ repeat x (n - (length a + k)) =
  take n a ++ repeat x (n - length a).
Proof.
  revert n; induction a as [|y a IH]; intros n; simpl.
  - rewrite take_repeat_fill. destruct n; reflexivity.
  - destruct n as [|n]; simpl; [reflexivity|]. now rewrite IH.
Qed.

Lemma copy_into_zero_padded (n k : nat) (a : list byte) :
  copy_bytes (zero_bytes n) (a ++ repeat x00 k) = copy_bytes (zero_bytes n) a.
Proof.
  rewrite !copy_into_zero, length_app, repeat_length. apply take_app_repeat.
Qed.

Lemma copy_into_zero_app (n : nat) (a extra : list byte) :
  (n <= length a)%nat ->
  copy_bytes (zero_bytes n) (a ++ extra) = copy_bytes (zero_bytes n) a.
Proof.
  intros H. rewrite !copy_into_zero, length_app.
  rewrite take_app_le by exact H.
  replace (n - (length a + length extra))%nat with 0%nat by lia.
  replace (n - length a)%nat with 0%nat by lia. reflexivity.
Qed.

(** X3.  The byte strings that name a key are cut or zero-filled to the size
    of the array they are copied into: 20 bytes of address, 32 bytes of
    location.  Bytes past that size and trailing zero bytes do not
    matter, so such byte strings name one key and every lookup treats
    them alike. *)
Theorem X3_keys_are_fixed_size (address location extra : list byte)
    (incarnation : Z) (k : nat) :
  length (item_address (account_key address)) = 20%nat /\
  account_key (take 20 address) = account_key address /\
  account_key (address ++ repeat x00 k) = account_key address /\
  code_key (take 20 address) = code_key address /\
  code_key (address ++ repeat x00 k) = code_key address /\
  storage_key (take 20 address) incarnation (take 32 location)
    = storage_key address incarnation location /\
  storage_key (address ++ repeat x00 k) incarnation (location ++ repeat x00 k)
    = storage_key address incarnation location /\
  ((20 <= length address)%nat ->
     account_key (address ++ extra) = account_key address /\
     code_key (address ++ extra) = code_key address /\
     GetAccount (address ++ extra) = GetAccount address /\
     GetCode (address ++ extra) = GetCode address) /\
  GetAccount (address ++ repeat x00 k) = GetAccount address /\
  GetStorage (address ++ repeat x00 k) incarnation (location ++ repeat x00 k)
    = GetStorage address incarnation location.
Proof.
  assert (Ha : account_key (address ++ repeat x00 k) = account_key address).
  { unfold account_key. cbn [aci_address AccountCacheItem_zero].
    fold (zero_bytes AddressLength). now rewrite copy_into_zero_padded. }
  assert (Hs : storage_key (address ++ repeat x00 k) incarnation
                 (location ++ repeat x00 k)
               = storage_key address incarnation location).
  { unfold storage_key.
    cbn [sci_address sci_location StorageCacheItem_zero].
    now rewrite !copy_into_zero_padded. }
  repeat split.
  - unfold account_key. cbn. apply (copy_into_zero_length 20).
  - unfold account_key. cbn [aci_address AccountCacheItem_zero].
    now rewrite (copy_into_zero_take AddressLength).
  - exact Ha.
  - unfold code_key. cbn [cci_address CodeCacheItem_zero].
    now rewrite (copy_into_zero_take AddressLength).
  - unfold code_key. cbn [cci_address CodeCacheItem_zero].
    now rewrite copy_into_zero_padded.
  - unfold storage_key. cbn [sci_address sci_location StorageCacheItem_zero].
    now rewrite (copy_into_zero_take AddressLength),
                (copy_into_zero_take HashLength).
  - exact Hs.
  - unfold account_key. cbn [aci_address AccountCacheItem_zero].
    now rewrite copy_into_zero_app.
  - unfold code_key. cbn [cci_address CodeCacheItem_zero].
    now rewrite copy_into_zero_app.
  - unfold GetAccount, account_key. cbn [aci_address AccountCacheItem_zero].
    now rewrite copy_into_zero_app.
  - unfold GetCode, code_key. cbn [cci_address CodeCacheItem_zero].
    now rewrite copy_into_zero_app.
  - unfold GetAccount. now rewrite Ha.
  - unfold GetStorage. now rewrite Hs.
Qed.

(* ------------------------------------------------------------------ *)
(** * Index lookups under store growth and key-equal probes *)

Lemma Less_same_key_r (x k k' : CacheItem) :
  same_key k k' -> Less x k = Less x k'.
Proof.
  destruct x as [[]|[]|[]], k as [[]|[]|[]], k' as [[]|[]|[]];
    less_unfold; try contradiction; intros H;
    try (destruct H as (? & ? & ?)); subst; reflexivity.
Qed.

Lemma Less_same_key_l (x k k' : CacheItem) :
  same_key k k' -> Less k x = Less k' x.
Proof.
  destruct x as [[]|[]|[]], k as [[]|[]|[]], k' as [[]|[]|[]];
    less_unfold; try contradiction; intros H;
    try (destruct H as (? & ? & ?)); subst; reflexivity.
Qed.

Lemma Get_same_key (st : list CacheItem) (t : BTree) (k k' : CacheItem) :
  same_key k k' -> btree.Get st t k = btree.Get st t k'.
Proof.
  intros H. induction t as [|q t IH]; cbn [btree.Get]; [reflexivity|].
  destruct (st !! q) as [x|]; [|reflexivity].
  rewrite (Less_same_key_r x k k' H), (Less_same_key_l x k k' H), IH.
  reflexivity.
Qed.

Lemma Get_extends (st st' : list CacheItem) (t : BTree) (k : CacheItem)
    (r : ItemRef) :
  extends st st' -> btree.Get st t k = Ok r -> btree.Get st' t k = Ok r.
Proof.
  intros He. induction t as [|q t IH]; cbn [btree.Get]; [auto|].
  destruct (st !! q) as [x|] eqn:Eq; [|discriminate].
  rewrite (He q x Eq).
  destruct (Less x k); [exact IH|]. auto.
Qed.

Lemma extends_refl (st : list CacheItem) : extends st st.
Proof. intros q v H; exact H. Qed.

Lemma extends_alloc (st : list CacheItem) (v : CacheItem) : extends st (st ++ [v]).
Proof. intros q w H. now apply lookup_app_l_Some. Qed.

Lemma extends_update (st st' : list CacheItem) (p : loc) (w : CacheItem) :
  extends st st' -> (length st <= p)%nat -> extends st (<[p := w]> st').
Proof.
  intros He Hp q v Hq.
  rewrite list_lookup_insert_ne.
  - now apply He.
  - apply lookup_lt_Some in Hq. lia.
Qed.

Lemma bind_deref {B} (p : loc) (k : CacheItem -> M B) (sc : StateCache)
    (v : CacheItem) :
  store sc !! p = Some v -> bind (deref (Some p)) k sc = k v sc.
Proof. intros H. unfold bind, deref. now rewrite H. Qed.

Lemma bind_readWrites_Get {B} (key : CacheItem) (k : ItemRef -> M B)
    (sc : StateCache) (r : ItemRef) :
  btree.Get (store sc) (readWrites sc) key = Ok r ->
  bind (readWrites_Get key) k sc = k r sc.
Proof.
  intros H. unfold readWrites_Get, bind, gets, liftR. now rewrite H.
Qed.

Lemma bind_writes_Get {B} (key : CacheItem) (k : ItemRef -> M B)
    (sc : StateCache) (r : ItemRef) :
  btree.Get (store sc) (writes sc) key = Ok r ->
  bind (writes_Get key) k sc = k r sc.
Proof.
  intros H. unfold writes_Get, bind, gets, liftR. now rewrite H.
Qed.

Ltac extends_tac :=
  cbn [store set_store];
  repeat (apply extends_update; [|cbn [store set_store]; lia]);
  first [apply extends_alloc | apply extends_refl].

(** ** A read insertion over a key that is there *)

Lemma setRead_present (sc : StateCache) (p q : loc) (v : CacheItem) :
  store sc !! p = Some v ->
  btree.Get (store sc) (readWrites sc) v = Ok (Some q) ->
  setRead (Some p) sc = Panic ItemAlreadyPresent.
Proof.
  intros Hp Hg. unfold setRead.
  rewrite (bind_deref p _ sc v Hp).
  now rewrite (bind_readWrites_Get v _ sc (Some q) Hg).
Qed.

Ltac present_tac key Hheld :=
  rewrite bind_alloc; repeat step_update;
  destruct Hheld as [q Hq];
  eapply (setRead_present _ _ q);
  [ store_lookup
  | cbn [readWrites set_store];
    erewrite (Get_same_key _ _ _ key) by (cbn; auto);
    eapply Get_extends; [|exact Hq]; extends_tac ].

(** X4.  A read insertion of a key that [readWrites] already holds panics
    with the message of [setRead], whatever else the state is; this holds
    for the three [SetXRead] and the three [SetXAbsent]. *)
Theorem X4_read_insert_twice_panics (sc : StateCache)
    (address location value code : list byte) (incarnation : Z) (account : Account) :
  (held (store sc) (readWrites sc) (account_key address) ->
     SetAccountRead address account sc = Panic ItemAlreadyPresent /\
     SetAccountAbsent address sc = Panic ItemAlreadyPresent) /\
  (held (store sc) (readWrites sc) (storage_key address incarnation location) ->
     SetStorageRead address incarnation location value sc = Panic ItemAlreadyPresent /\
     SetStorageAbsent address incarnation location sc = Panic ItemAlreadyPresent) /\
  (held (store sc) (readWrites sc) (code_key address) ->
     SetCodeRead address code sc = Panic ItemAlreadyPresent /\
     SetCodeAbsent address sc = Panic ItemAlreadyPresent).
Proof.
  split; [|split]; intros H; split.
  - unfold SetAccountRead. present_tac (account_key address) H.
  - unfold SetAccountAbsent. present_tac (account_key address) H.
  - unfold SetStorageRead. present_tac (storage_key address incarnation location) H.
  - unfold SetStorageAbsent. present_tac (storage_key address incarnation location) H.
  - unfold SetCodeRead. present_tac (code_key address) H.
  - unfold SetCodeAbsent. present_tac (code_key address) H.
Qed.

Lemma bind_assoc {A B C} (m : M A) (f : A -> M B) (k : B -> M C) (sc : StateCache) :
  bind (bind m f) k sc = bind m (fun a => bind (f a) k) sc.
Proof. unfold bind. destruct (m sc) as [[a sc']| |]; reflexivity. Qed.

Lemma bind_ret {A B} (a : A) (k : A -> M B) (sc : StateCache) :
  bind (ret a) k sc = k a sc.
Proof. reflexivity. Qed.

(** ** A write insertion at the write limit *)

Lemma check_writes_limit_full {B} (k : unit -> M B) (sc : StateCache) :
  writes_at_limit sc ->
  bind check_writes_limit k sc = Panic WritesOverLimit.
Proof.
  unfold writes_at_limit, check_writes_limit, WriteHeap_Len, items_len, bind,
    gets, ret, panic.
  intros H. destruct (Z.leb_spec (limitWrites sc)
    (Z.of_nat (length (heapItems sc)) - writeQueue_start sc)); [reflexivity|lia].
Qed.

Ltac get_none key H :=
  cbn [readWrites writes set_store];
  erewrite (Get_same_key _ _ _ key) by (cbn; auto);
  eapply Get_extends; [|exact H]; extends_tac.

Ltac at_limit_tac key Hfresh Hfull :=
  unfold storage_stub, code_stub;
  repeat (first [ rewrite bind_assoc | rewrite bind_ret | rewrite bind_alloc
                | step_update ]; cbn beta);
  erewrite bind_deref by store_lookup;
  destruct Hfresh as [Hw Hr];
  erewrite (bind_writes_Get _ _ _ None) by (get_none key Hw);
  erewrite (bind_readWrites_Get _ _ _ None) by (get_none key Hr);
  apply check_writes_limit_full; exact Hfull.

(** X5.  Once the write queue holds [limitWrites] items, a write or delete of
    a key that neither index holds panics with the over-limit message;
    nothing is evicted to make room.  This holds for the three [SetXWrite]
    and the three [SetXDelete]. *)
Theorem X5_write_at_limit_panics (sc : StateCache)
    (address location value code : list byte) (incarnation : Z) (account : Account) :
  writes_at_limit sc ->
  (fresh_key sc (account_key address) ->
     SetAccountWrite address account sc = Panic WritesOverLimit /\
     SetAccountDelete address sc = Panic WritesOverLimit) /\
  (fresh_key sc (storage_key address incarnation location) ->
     SetStorageWrite address incarnation location value sc = Panic WritesOverLimit /\
     SetStorageDelete address incarnation location sc = Panic WritesOverLimit) /\
  (fresh_key sc (code_key address) ->
     SetCodeWrite address code sc = Panic WritesOverLimit /\
     SetCodeDelete address sc = Panic WritesOverLimit).
Proof.
  intros Hfull.
  split; [|split]; intros H; split.
  - unfold SetAccountWrite. at_limit_tac (account_key address) H Hfull.
  - unfold SetAccountDelete. at_limit_tac (account_key address) H Hfull.
  - unfold SetStorageWrite.
    at_limit_tac (storage_key address incarnation location) H Hfull.
  - unfold SetStorageDelete.
    at_limit_tac (storage_key address incarnation location) H Hfull.
  - unfold SetCodeWrite. at_limit_tac (code_key address) H Hfull.
  - unfold SetCodeDelete. at_limit_tac (code_key address) H Hfull.
Qed.

(* ------------------------------------------------------------------ *)
(** * What operations keep *)

Section Keeps.
Variable R : StateCache -> StateCache -> Prop.
Hypothesis R_refl : forall sc, R sc sc.
Hypothesis R_trans : forall a b c, R a b -> R b c -> R a c.

Lemma keeps_ret {A} (a : A) : keeps R (ret a).
Proof. intros sc x sc' H. inversion H; subst. apply R_refl. Qed.

Lemma keeps_gets {A} (f : StateCache -> A) : keeps R (gets f).
Proof. intros sc x sc' H. inversion H; subst. apply R_refl. Qed.

Lemma keeps_panic {A} (p : PanicKind) : keeps R (@panic A p).
Proof. intros sc x sc' H. discriminate. Qed.

Lemma keeps_out_of_fuel {A} : keeps R (@out_of_fuel A).
Proof. intros sc x sc' H. discriminate. Qed.

Lemma keeps_liftR {A} (r : Result A) : keeps R (liftR r).
Proof.
  intros sc x sc' H. unfold liftR in H.
  destruct r; inversion H; subst. apply R_refl.
Qed.

Lemma keeps_bind {A B} (m : M A) (k : A -> M B) :
  keeps R m -> (forall a, keeps R (k a)) -> keeps R (bind m k).
Proof.
  intros Hm Hk sc b sc'' H.
  apply bind_Ok_inv in H as (a & sc' & H1 & H2).
  eapply R_trans; [eapply Hm | eapply Hk]; eassumption.
Qed.

Lemma keeps_deref (r : ItemRef) : keeps R (deref r).
Proof.
  intros sc x sc' H. unfold deref in H.
  destruct r as [p|]; [|discriminate].
  destruct (store sc !! p); inversion H; subst. apply R_refl.
Qed.

Lemma keeps_items_get (i : Z) : keeps R (items_get i).
Proof.
  intros sc x sc' H. unfold items_get in H.
  destruct (_ || _); [discriminate|].
  destruct (heapItems sc !! Z.to_nat i); inversion H; subst. apply R_refl.
Qed.

Lemma keeps_assert (x : ItemRef) : keeps R (assert_CacheItem x).
Proof. destruct x; [apply keeps_ret | apply keeps_panic]. Qed.

Lemma keeps_items_len : keeps R items_len.
Proof. apply keeps_gets. Qed.

(** The functions of [container/heap] keep what the five methods of
    the heap they run on keep. *)
Variable h : Interface.
Hypothesis h_Len_keeps : keeps R (h_Len h).
Hypothesis h_Less_keeps : forall i j, keeps R (h_Less h i j).
Hypothesis h_Swap_keeps : forall i j, keeps R (h_Swap h i j).
Hypothesis h_Push_keeps : forall x, keeps R (h_Push h x).
Hypothesis h_Pop_keeps : keeps R (h_Pop h).

Lemma keeps_up_loop (fuel : nat) (j : Z) : keeps R (heap.up_loop fuel h j).
Proof.
  revert j; induction fuel as [|fuel IH]; intros j; cbn [heap.up_loop].
  - apply keeps_out_of_fuel.
  - destruct (_ =? j); [apply keeps_ret|].
    apply keeps_bind; [apply h_Less_keeps|]. intros lt.
    destruct (negb lt); [apply keeps_ret|].
    apply keeps_bind; [apply h_Swap_keeps|]. intros _. apply IH.
Qed.

Lemma keeps_up (j : Z) : keeps R (heap.up h j).
Proof. apply keeps_up_loop. Qed.

Lemma keeps_down_loop (fuel : nat) (i n : Z) : keeps R (heap.down_loop fuel h i n).
Proof.
  revert i; induction fuel as [|fuel IH]; intros i; cbn [heap.down_loop].
  - apply keeps_out_of_fuel.
  - destruct (_ || _); [apply keeps_ret|].
    apply keeps_bind.
    + destruct (_ <? n); [|apply keeps_ret].
      apply keeps_bind; [apply h_Less_keeps|]. intros lt. apply keeps_ret.
    + intros j. apply keeps_bind; [apply h_Less_keeps|]. intros lt.
      destruct (negb lt); [apply keeps_ret|].
      apply keeps_bind; [apply h_Swap_keeps|]. intros _. apply IH.
Qed.

Lemma keeps_down (i n : Z) : keeps R (heap.down h i n).
Proof.
  apply keeps_bind; [apply keeps_down_loop|]. intros. apply keeps_ret.
Qed.

Lemma keeps_Init : keeps R (heap.Init h).
Proof.
  apply keeps_bind; [apply h_Len_keeps|]. intros n.
  induction (Z.to_nat (Z.quot n 2)) as [|k IH]; cbn [heap.Init_loop].
  - apply keeps_ret.
  - apply keeps_bind; [apply keeps_down|]. intros _. exact IH.
Qed.

Lemma keeps_Push (x : ItemRef) : keeps R (heap.Push h x).
Proof.
  apply keeps_bind; [apply h_Push_keeps|]. intros _.
  apply keeps_bind; [apply h_Len_keeps|]. intros n. apply keeps_up.
Qed.

Lemma keeps_Pop : keeps R (heap.Pop h).
Proof.
  apply keeps_bind; [apply h_Len_keeps|]. intros n.
  apply keeps_bind; [apply h_Swap_keeps|]. intros _.
  apply keeps_bind; [apply keeps_down|]. intros _. apply h_Pop_keeps.
Qed.

Lemma keeps_Remove (i : Z) : keeps R (heap.Remove h i).
Proof.
  apply keeps_bind; [apply h_Len_keeps|]. intros n.
  apply keeps_bind; [|intros _; apply h_Pop_keeps].
  destruct (negb _); [|apply keeps_ret].
  apply keeps_bind; [apply h_Swap_keeps|]. intros _.
  apply keeps_bind; [apply keeps_down|]. intros moved.
  destruct (negb moved); [apply keeps_up | apply keeps_ret].
Qed.

Lemma keeps_Fix (i : Z) : keeps R (heap.Fix h i).
Proof.
  apply keeps_bind; [apply h_Len_keeps|]. intros n.
  apply keeps_bind; [apply keeps_down|]. intros moved.
  destruct (negb moved); [apply keeps_up | apply keeps_ret].
Qed.
End Keeps.

Lemma keeps_modify (R : StateCache -> StateCache -> Prop)
    (f : StateCache -> StateCache) :
  (forall sc, R sc (f sc)) -> keeps R (modify f).
Proof. intros Hf sc x sc' H. inversion H; subst. apply Hf. Qed.

Lemma keeps_weaken {A} (R R' : StateCache -> StateCache -> Prop) (m : M A) :
  (forall sc sc', R sc sc' -> R' sc sc') -> keeps R m -> keeps R' m.
Proof. intros HR Hm sc a sc' H. apply HR. eapply Hm. exact H. Qed.

(** ** The frame of the heap operations *)

Lemma heap_frame_refl (sc : StateCache) : heap_frame sc sc.
Proof. repeat split. Qed.

Lemma heap_frame_trans (a b c : StateCache) :
  heap_frame a b -> heap_frame b c -> heap_frame a c.
Proof.
  unfold heap_frame. intros (?&?&?&?&?&?&?) (?&?&?&?&?&?&?).
  repeat split; congruence.
Qed.

Lemma item_rest_SetQueuePos (j : Z) (v : CacheItem) :
  item_rest (SetQueuePos j v) = item_rest v.
Proof. destruct v as [[]|[]|[]]; reflexivity. Qed.

Lemma heap_frame_update_pos (r : ItemRef) (j : Z) :
  keeps heap_frame (update r (SetQueuePos j)).
Proof.
  intros sc x sc' H. unfold update in H.
  apply bind_Ok_inv in H as (v & sc1 & H1 & H2).
  unfold deref in H1. destruct r as [p|]; [|discriminate].
  destruct (store sc !! p) as [w|] eqn:Ep; inversion H1; subst.
  inversion H2; subst. unfold heap_frame. cbn [readWrites writes limitReads
    limitWrites sequence heapItems store set_store].
  repeat split.
  rewrite list_fmap_insert.
  apply list_insert_id. rewrite list_lookup_fmap.
  unfold loc in *. rewrite Ep. cbn [fmap option_fmap option_map].
  f_equal. destruct v as [[]|[]|[]]; reflexivity.
Qed.

Lemma heap_frame_items_set (i : Z) (r : ItemRef) :
  keeps heap_frame (items_set i r).
Proof.
  intros sc x sc' H. unfold items_set in H.
  destruct (_ || _); inversion H; subst.
  unfold heap_frame. cbn. repeat split. apply length_insert.
Qed.

Ltac frame_prim :=
  first
    [ apply keeps_ret; apply heap_frame_refl
    | apply keeps_gets; apply heap_frame_refl
    | apply keeps_panic
    | apply keeps_deref; apply heap_frame_refl
    | apply keeps_items_get; apply heap_frame_refl
    | apply keeps_items_len; apply heap_frame_refl
    | apply keeps_assert; apply heap_frame_refl
    | apply heap_frame_update_pos
    | apply heap_frame_items_set
    | apply keeps_modify; intros; repeat split ].

Ltac frame_tac :=
  repeat first
    [ frame_prim
    | apply (keeps_bind heap_frame heap_frame_trans); [|intros] ].

Lemma ReadHeap_frame :
  keeps heap_frame ReadHeap_Len /\
  (forall i j, keeps heap_frame (ReadHeap_Less i j)) /\
  (forall i j, keeps heap_frame (ReadHeap_Swap i j)) /\
  (forall x, keeps heap_frame (ReadHeap_Push x)) /\
  keeps heap_frame ReadHeap_Pop.
Proof.
  split; [|split; [|split; [|split]]]; intros;
    unfold ReadHeap_Len, ReadHeap_Less, ReadHeap_Swap, ReadHeap_Push, ReadHeap_Pop;
    frame_tac.
Qed.

Lemma WriteHeap_frame :
  keeps heap_frame WriteHeap_Len /\
  (forall i j, keeps heap_frame (WriteHeap_Less i j)) /\
  (forall i j, keeps heap_frame (WriteHeap_Swap i j)) /\
  (forall x, keeps heap_frame (WriteHeap_Push x)) /\
  keeps heap_frame WriteHeap_Pop.
Proof.
  split; [|split; [|split; [|split]]]; intros;
    unfold WriteHeap_Len, WriteHeap_Less, WriteHeap_Swap, WriteHeap_Push,
      WriteHeap_Pop;
    frame_tac.
Qed.

(** ** Lookups see neither heap positions nor [MODIFIED] *)

Lemma land_ldiff_Deleted (f : Z) :
  Z.land (Z.ldiff f ModifiedFlag) DeletedFlag = Z.land f DeletedFlag.
Proof.
  apply Z.bits_inj'. intros n Hn.
  rewrite !Z.land_spec, Z.ldiff_spec.
  destruct (Z.eq_dec n 1) as [->|Hne].
  - change (Z.testbit ModifiedFlag 1) with false.
    now rewrite andb_true_r.
  - replace (Z.testbit DeletedFlag n) with false; [now rewrite !andb_false_r|].
    symmetry. change DeletedFlag with (2 ^ 1).
    rewrite Z.pow2_bits_eqb by lia. apply Z.eqb_neq. lia.
Qed.

Lemma item_view_flags (v w : CacheItem) :
  item_view v = item_view w ->
  Z.ldiff (item_flags v) ModifiedFlag = Z.ldiff (item_flags w) ModifiedFlag.
Proof.
  destruct v as [[]|[]|[]], w as [[]|[]|[]]; cbn; intros H; inversion H;
    reflexivity.
Qed.

Lemma HasFlag_item_flags (f : Z) (v : CacheItem) :
  HasFlag f v = negb (Z.land (item_flags v) f =? 0).
Proof. destruct v as [[]|[]|[]]; reflexivity. Qed.

Lemma item_view_Deleted (v w : CacheItem) :
  item_view v = item_view w -> HasFlag DeletedFlag v = HasFlag DeletedFlag w.
Proof.
  intros H. rewrite !HasFlag_item_flags.
  rewrite <- (land_ldiff_Deleted (item_flags v)),
          <- (land_ldiff_Deleted (item_flags w)).
  now rewrite (item_view_flags v w H).
Qed.

Lemma item_view_Less_l (v k : CacheItem) : Less (item_view v) k = Less v k.
Proof. destruct v as [[]|[]|[]], k as [[]|[]|[]]; reflexivity. Qed.

Lemma item_view_Less_r (v k : CacheItem) : Less k (item_view v) = Less k v.
Proof. destruct v as [[]|[]|[]], k as [[]|[]|[]]; reflexivity. Qed.

Lemma Get_view (st : list CacheItem) (t : BTree) (k : CacheItem) :
  btree.Get (item_view <$> st) t k = btree.Get st t k.
Proof.
  induction t as [|q t IH]; cbn [btree.Get]; [reflexivity|].
  rewrite list_lookup_fmap. unfold loc in *.
  destruct (st !! q) as [x|]; cbn [fmap option_fmap option_map]; [|reflexivity].
  now rewrite item_view_Less_l, item_view_Less_r, IH.
Qed.

Lemma view_frame_Get (sc sc' : StateCache) (k : CacheItem) :
  view_frame sc sc' ->
  btree.Get (store sc') (readWrites sc') k = btree.Get (store sc) (readWrites sc) k.
Proof.
  intros [Hrw Hst]. now rewrite <- (Get_view (store sc')), Hst, Hrw, Get_view.
Qed.

Lemma view_frame_lookup (sc sc' : StateCache) (p : loc) :
  view_frame sc sc' ->
  item_view <$> (store sc' !! p) = item_view <$> (store sc !! p).
Proof.
  intros [_ Hst]. unfold loc in *. now rewrite <- !list_lookup_fmap, Hst.
Qed.

Lemma view_frame_get (sc sc' : StateCache) (key : CacheItem) :
  view_frame sc sc' -> eval (get key) sc' = eval (get key) sc.
Proof.
  intros Hv. unfold eval, get, readWrites_Get, bind, gets, liftR, ret, deref.
  rewrite (view_frame_Get sc sc' key Hv).
  destruct (btree.Get _ _ _) as [[p|]|e|]; try reflexivity.
  pose proof (view_frame_lookup sc sc' p Hv) as Hp.
  destruct (store sc' !! p) as [v'|], (store sc !! p) as [v|];
    try discriminate; try reflexivity.
  injection Hp as Hp. rewrite (item_view_Deleted _ _ Hp).
  destruct (HasFlag DeletedFlag v); reflexivity.
Qed.

Lemma view_frame_lookups (sc sc' : StateCache) (address location : list byte)
    (incarnation : Z) :
  view_frame sc sc' ->
  eval (GetAccount address) sc' = eval (GetAccount address) sc /\
  eval (GetStorage address incarnation location) sc'
    = eval (GetStorage address incarnation location) sc /\
  eval (GetCode address) sc' = eval (GetCode address) sc.
Proof.
  intros Hv.
  repeat split;
    unfold eval, GetAccount, GetStorage, GetCode, get, readWrites_Get, bind,
      gets, liftR, ret, deref, as_account, as_storage, as_code;
    rewrite (view_frame_Get sc sc' _ Hv);
    (destruct (btree.Get _ _ _) as [[p|]|e|]; try reflexivity);
    pose proof (view_frame_lookup sc sc' p Hv) as Hp;
    (destruct (store sc' !! p) as [v'|] eqn:E', (store sc !! p) as [v|] eqn:E;
       try discriminate; try reflexivity);
    injection Hp as Hp; rewrite (item_view_Deleted _ _ Hp);
    (destruct (HasFlag DeletedFlag v); try reflexivity);
    cbn [fst snd]; unfold bind, deref, panic, ret; rewrite ?E', ?E;
    destruct v' as [[]|[]|[]], v as [[]|[]|[]]; try discriminate;
    try reflexivity; inversion Hp; subst; reflexivity.
Qed.

Lemma item_view_rest (v w : CacheItem) :
  item_rest v = item_rest w -> item_view v = item_view w.
Proof.
  destruct v as [[]|[]|[]], w as [[]|[]|[]]; cbn; intros H; inversion H;
    reflexivity.
Qed.

Lemma fmap_view_rest (st st' : list CacheItem) :
  item_rest <$> st' = item_rest <$> st -> item_view <$> st' = item_view <$> st.
Proof.
  revert st'; induction st as [|v st IH]; intros [|v' st']; cbn;
    try discriminate; [reflexivity|].
  intros H. injection H as H1 H2.
  f_equal; [now apply item_view_rest | now apply IH].
Qed.

Lemma heap_frame_view (sc sc' : StateCache) :
  heap_frame sc sc' -> view_frame sc sc'.
Proof.
  intros (Hrw & _ & _ & _ & _ & _ & Hst). split; [exact Hrw|].
  now apply fmap_view_rest.
Qed.

Lemma queue_ops_frame (h : Interface) (i : Z) (x : ItemRef) :
  h = readQueue \/ h = writeQueue ->
  keeps heap_frame (heap.Init h) /\
  keeps heap_frame (heap.Push h x) /\
  keeps heap_frame (heap.Pop h) /\
  keeps heap_frame (heap.Remove h i) /\
  keeps heap_frame (heap.Fix h i).
Proof.
  destruct ReadHeap_frame as (r1 & r2 & r3 & r4 & r5).
  destruct WriteHeap_frame as (w1 & w2 & w3 & w4 & w5).
  intros [-> | ->]; (split; [|split; [|split; [|split]]]);
    first [ now apply (keeps_Init heap_frame heap_frame_refl heap_frame_trans)
          | now apply (keeps_Push heap_frame heap_frame_refl heap_frame_trans)
          | now apply (keeps_Pop heap_frame heap_frame_refl heap_frame_trans)
          | now apply (keeps_Remove heap_frame heap_frame_refl heap_frame_trans)
          | now apply (keeps_Fix heap_frame heap_frame_refl heap_frame_trans) ].
Qed.

(** X6.  The functions of [container/heap], run on either queue, change
    nothing but heap positions, array slots and the two bounds: the
    indices, the limits, the counter, the size of the array and all other
    fields of all items stay as they were, and with them the answer of
    every lookup. *)
Theorem X6_heap_operations_frame (i : Z) (x : ItemRef) :
  (keeps heap_frame (heap.Init readQueue) /\
   keeps heap_frame (heap.Push readQueue x) /\
   keeps heap_frame (heap.Pop readQueue) /\
   keeps heap_frame (heap.Remove readQueue i) /\
   keeps heap_frame (heap.Fix readQueue i)) /\
  (keeps heap_frame (heap.Init writeQueue) /\
   keeps heap_frame (heap.Push writeQueue x) /\
   keeps heap_frame (heap.Pop writeQueue) /\
   keeps heap_frame (heap.Remove writeQueue i) /\
   keeps heap_frame (heap.Fix writeQueue i)) /\
  (forall sc sc' address incarnation location,
      heap_frame sc sc' ->
      eval (GetAccount address) sc' = eval (GetAccount address) sc /\
      eval (GetStorage address incarnation location) sc'
        = eval (GetStorage address incarnation location) sc /\
      eval (GetCode address) sc' = eval (GetCode address) sc).
Proof.
  split; [|split].
  - apply queue_ops_frame. now left.
  - apply queue_ops_frame. now right.
  - intros sc sc' address incarnation location H.
    apply view_frame_lookups. now apply heap_frame_view.
Qed.

(* ------------------------------------------------------------------ *)
(** * The counter and the capacity *)

Lemma steady_refl (sc : StateCache) : steady sc sc.
Proof. repeat split. Qed.

Lemma steady_trans (a b c : StateCache) : steady a b -> steady b c -> steady a c.
Proof.
  unfold steady, same_capacity. intros ((?&?&?)&?) ((?&?&?)&?).
  repeat split; congruence.
Qed.

Lemma steady_bumped (a b c : StateCache) : steady a b -> bumped b c -> bumped a c.
Proof.
  unfold steady, bumped, same_capacity. intros ((?&?&?)&?) ((?&?&?)&?).
  repeat split; congruence.
Qed.

Lemma bumped_steady (a b c : StateCache) : bumped a b -> steady b c -> bumped a c.
Proof.
  unfold steady, bumped, same_capacity. intros ((?&?&?)&?) ((?&?&?)&?).
  repeat split; congruence.
Qed.

Lemma heap_frame_steady (sc sc' : StateCache) : heap_frame sc sc' -> steady sc sc'.
Proof. intros (?&?&?&?&?&?&?). repeat split; assumption. Qed.

Lemma bumped_bind_l {A B} (m : M A) (k : A -> M B) :
  keeps steady m -> (forall a, keeps bumped (k a)) -> keeps bumped (bind m k).
Proof.
  intros Hm Hk sc b sc'' H.
  apply bind_Ok_inv in H as (a & sc' & H1 & H2).
  eapply steady_bumped; [eapply Hm | eapply Hk]; eassumption.
Qed.

Lemma bumped_bind_r {A B} (m : M A) (k : A -> M B) :
  keeps bumped m -> (forall a, keeps steady (k a)) -> keeps bumped (bind m k).
Proof.
  intros Hm Hk sc b sc'' H.
  apply bind_Ok_inv in H as (a & sc' & H1 & H2).
  eapply bumped_steady; [eapply Hm | eapply Hk]; eassumption.
Qed.

Lemma bumped_sequence_incr : keeps bumped sequence_incr.
Proof. intros sc x sc' H. inversion H; subst. repeat split. Qed.

Lemma steady_alloc (v : CacheItem) : keeps steady (alloc v).
Proof. intros sc x sc' H. inversion H; subst. repeat split. Qed.

Lemma steady_update (r : ItemRef) (f : CacheItem -> CacheItem) :
  keeps steady (update r f).
Proof.
  unfold update. apply (keeps_bind steady steady_trans).
  - apply keeps_deref, steady_refl.
  - intros v. destruct r; [|apply keeps_panic].
    apply keeps_modify. intros. repeat split.
Qed.

Lemma steady_items_set (i : Z) (r : ItemRef) : keeps steady (items_set i r).
Proof.
  eapply keeps_weaken; [apply heap_frame_steady | apply heap_frame_items_set].
Qed.

Lemma steady_copy_items (e s : Z) : keeps steady (copy_items e s).
Proof.
  intros sc x sc' H. unfold copy_items in H.
  destruct (_ || _) eqn:Eb; inversion H; subst; clear H.
  repeat split. cbn [heapItems set_heapItems].
  rewrite !orb_false_iff in Eb. destruct Eb as (((E1 & E2) & E3) & E4).
  apply Z.ltb_ge in E1, E2, E3, E4.
  rewrite !length_app, !length_take, !length_drop. lia.
Qed.

Lemma steady_queue_ops (h : Interface) (i : Z) (x : ItemRef) :
  h = readQueue \/ h = writeQueue ->
  keeps steady (heap.Init h) /\
  keeps steady (heap.Push h x) /\
  keeps steady (heap.Pop h) /\
  keeps steady (heap.Remove h i) /\
  keeps steady (heap.Fix h i).
Proof.
  intros H. destruct (queue_ops_frame h i x H) as (a & b & c & d & e).
  split; [|split; [|split; [|split]]];
    (eapply keeps_weaken; [apply heap_frame_steady | eassumption]).
Qed.

Lemma steady_Init (h : Interface) :
  h = readQueue \/ h = writeQueue -> keeps steady (heap.Init h).
Proof. intros H. now destruct (steady_queue_ops h 0 None H) as (?&?&?&?&?). Qed.

Lemma steady_Push (h : Interface) (x : ItemRef) :
  h = readQueue \/ h = writeQueue -> keeps steady (heap.Push h x).
Proof. intros H. now destruct (steady_queue_ops h 0 x H) as (?&?&?&?&?). Qed.

Lemma steady_Pop (h : Interface) :
  h = readQueue \/ h = writeQueue -> keeps steady (heap.Pop h).
Proof. intros H. now destruct (steady_queue_ops h 0 None H) as (?&?&?&?&?). Qed.

Lemma steady_Remove (h : Interface) (i : Z) :
  h = readQueue \/ h = writeQueue -> keeps steady (heap.Remove h i).
Proof. intros H. now destruct (steady_queue_ops h i None H) as (?&?&?&?&?). Qed.

Lemma steady_Fix (h : Interface) (i : Z) :
  h = readQueue \/ h = writeQueue -> keeps steady (heap.Fix h i).
Proof. intros H. now destruct (steady_queue_ops h i None H) as (?&?&?&?&?). Qed.

Lemma keeps_Ascend (R : StateCache -> StateCache -> Prop) (t : BTree)
    (visit : ItemRef -> M unit) :
  (forall sc, R sc sc) -> (forall a b c, R a b -> R b c -> R a c) ->
  (forall i, keeps R (visit i)) -> keeps R (Ascend t visit).
Proof.
  intros Hr Ht Hv. induction t as [|p t IH]; cbn [Ascend].
  - now apply keeps_ret.
  - apply keeps_bind; auto.
Qed.

Ltac steady_leaf :=
  first
    [ apply keeps_ret; apply steady_refl
    | apply keeps_gets; apply steady_refl
    | apply keeps_panic
    | apply keeps_liftR; apply steady_refl
    | apply keeps_deref; apply steady_refl
    | apply keeps_items_get; apply steady_refl
    | apply keeps_items_len; apply steady_refl
    | apply keeps_assert; apply steady_refl
    | apply steady_alloc
    | apply steady_update
    | apply steady_items_set
    | apply steady_copy_items
    | apply steady_Init; auto
    | apply steady_Push; auto
    | apply steady_Pop; auto
    | apply steady_Remove; auto
    | apply steady_Fix; auto
    | apply keeps_modify; intros; repeat split ].

Ltac steady_unfold :=
  unfold setRead, storage_stub, code_stub, check_writes_limit,
    evict_read_if_full, update_account, update_storage, update_code,
    as_account, as_storage, as_code, readWrites_Get, writes_Get,
    readWrites_ReplaceOrInsert, writes_ReplaceOrInsert, readWrites_Delete,
    ReadHeap_Len, WriteHeap_Len.

Ltac steady_tac :=
  steady_unfold; cbv zeta;
  repeat first
    [ steady_leaf
    | apply (keeps_bind steady steady_trans); [|intros]
    | apply keeps_Ascend; [apply steady_refl | apply steady_trans | intros]
    | match goal with
      | |- keeps _ (match ?x with _ => _ end) => destruct x
      | |- keeps _ (if ?b then _ else _) => destruct b
      end ].

Ltac bumped_tac :=
  steady_unfold; cbv zeta;
  repeat first
    [ apply bumped_bind_r; [apply bumped_sequence_incr | intros; steady_tac]
    | apply bumped_bind_l; [solve [steady_tac] | intros]
    | apply keeps_panic
    | match goal with
      | |- keeps _ (match ?x with _ => _ end) => destruct x
      | |- keeps _ (if ?b then _ else _) => destruct b
      end ].

(** The read insertions, the commit and the lookups are [steady]. *)
Lemma reads_steady
    (address location value code : list byte) (incarnation : Z) (account : Account) :
  keeps steady (SetAccountRead address account) /\
  keeps steady (SetAccountAbsent address) /\
  keeps steady (SetStorageRead address incarnation location value) /\
  keeps steady (SetStorageAbsent address incarnation location) /\
  keeps steady (SetCodeRead address code) /\
  keeps steady (SetCodeAbsent address) /\
  keeps steady TurnWritesToReads /\
  keeps steady (GetAccount address) /\
  keeps steady (GetStorage address incarnation location) /\
  keeps steady (GetCode address).
Proof.
  repeat match goal with |- _ /\ _ => split end.
  - unfold SetAccountRead. steady_tac.
  - unfold SetAccountAbsent. steady_tac.
  - unfold SetStorageRead. steady_tac.
  - unfold SetStorageAbsent. steady_tac.
  - unfold SetCodeRead. steady_tac.
  - unfold SetCodeAbsent. steady_tac.
  - unfold TurnWritesToReads. steady_tac.
  - unfold GetAccount, get. steady_tac.
  - unfold GetStorage, get. steady_tac.
  - unfold GetCode, get. steady_tac.
Qed.

(** The writes and the deletes are [bumped]. *)
Lemma writes_bumped
    (address location value code : list byte) (incarnation : Z) (account : Account) :
  keeps bumped (SetAccountWrite address account) /\
  keeps bumped (SetAccountDelete address) /\
  keeps bumped (SetStorageWrite address incarnation location value) /\
  keeps bumped (SetStorageDelete address incarnation location) /\
  keeps bumped (SetCodeWrite address code) /\
  keeps bumped (SetCodeDelete address).
Proof.
  repeat match goal with |- _ /\ _ => split end.
  - unfold SetAccountWrite. bumped_tac.
  - unfold SetAccountDelete. bumped_tac.
  - unfold SetStorageWrite. bumped_tac.
  - unfold SetStorageDelete. bumped_tac.
  - unfold SetCodeWrite. bumped_tac.
  - unfold SetCodeDelete. bumped_tac.
Qed.

(** X7.  The capacity is fixed at construction: no insertion, write, delete
    or commit that returns has changed [limitReads], [limitWrites] or the
    size of the array shared by the two queues; the commit leaves the
    counter [sc.sequence] alone as well. *)
Theorem X7_capacity_is_constant
    (address location value code : list byte) (incarnation : Z) (account : Account) :
  (keeps same_capacity (SetAccountRead address account) /\
   keeps same_capacity (SetAccountAbsent address) /\
   keeps same_capacity (SetStorageRead address incarnation location value) /\
   keeps same_capacity (SetStorageAbsent address incarnation location) /\
   keeps same_capacity (SetCodeRead address code) /\
   keeps same_capacity (SetCodeAbsent address)) /\
  (keeps same_capacity (SetAccountWrite address account) /\
   keeps same_capacity (SetAccountDelete address) /\
   keeps same_capacity (SetStorageWrite address incarnation location value) /\
   keeps same_capacity (SetStorageDelete address incarnation location) /\
   keeps same_capacity (SetCodeWrite address code) /\
   keeps same_capacity (SetCodeDelete address)) /\
  keeps steady TurnWritesToReads.
Proof.
  pose proof (reads_steady address location value code incarnation account)
    as (R1 & R2 & R3 & R4 & R5 & R6 & R7 & _).
  pose proof (writes_bumped address location value code incarnation account)
    as (W1 & W2 & W3 & W4 & W5 & W6).
  assert (S : forall (m : M unit), keeps steady m -> keeps same_capacity m).
  { intros m K sc a sc' H. exact (proj1 (K sc a sc' H)). }
  assert (B : forall (m : M unit), keeps bumped m -> keeps same_capacity m).
  { intros m K sc a sc' H. exact (proj1 (K sc a sc' H)). }
  split; [|split]; [ | | exact R7].
  - split; [|split; [|split; [|split; [|split]]]]; apply S; assumption.
  - split; [|split; [|split; [|split; [|split]]]]; apply B; assumption.
Qed.

(** X8.  Every write and every delete that returns has advanced the counter
    [sc.sequence] by exactly one step (with the wrap-around of [int]), in
    each of its three branches: key already written, key cached as a
    read, key not cached. *)
Theorem X8_writes_advance_counter_by_one (sc sc' : StateCache)
    (address location value code : list byte) (incarnation : Z) (account : Account) :
  SetAccountWrite address account sc = Ok (tt, sc') \/
  SetAccountDelete address sc = Ok (tt, sc') \/
  SetStorageWrite address incarnation location value sc = Ok (tt, sc') \/
  SetStorageDelete address incarnation location sc = Ok (tt, sc') \/
  SetCodeWrite address code sc = Ok (tt, sc') \/
  SetCodeDelete address sc = Ok (tt, sc') ->
  sequence sc' = int_incr (sequence sc).
Proof.
  pose proof (writes_bumped address location value code incarnation account)
    as (W1 & W2 & W3 & W4 & W5 & W6).
  intros [H|[H|[H|[H|[H|H]]]]];
    [ apply W1 in H | apply W2 in H | apply W3 in H | apply W4 in H
    | apply W5 in H | apply W6 in H ]; exact (proj2 H).
Qed.

(* ------------------------------------------------------------------ *)
(** * The commit *)

Lemma view_frame_refl (sc : StateCache) : view_frame sc sc.
Proof. split; reflexivity. Qed.

Lemma view_frame_trans (a b c : StateCache) :
  view_frame a b -> view_frame b c -> view_frame a c.
Proof. intros [? ?] [? ?]. split; congruence. Qed.

Lemma commit_frame_refl (sc : StateCache) : commit_frame sc sc.
Proof. split; [apply view_frame_refl | intros p H; exact H]. Qed.

Lemma commit_frame_trans (a b c : StateCache) :
  commit_frame a b -> commit_frame b c -> commit_frame a c.
Proof.
  intros [V1 N1] [V2 N2]. split; [eapply view_frame_trans; eauto|].
  intros p H. apply N2, N1, H.
Qed.

Lemma bounds_frame_refl (sc : StateCache) : bounds_frame sc sc.
Proof. repeat split. Qed.

Lemma bounds_frame_trans (a b c : StateCache) :
  bounds_frame a b -> bounds_frame b c -> bounds_frame a c.
Proof. intros (?&?&?) (?&?&?). repeat split; congruence. Qed.

Lemma item_modified_rest (sc sc' : StateCache) (p : loc) :
  item_rest <$> store sc' = item_rest <$> store sc ->
  item_modified sc' p = item_modified sc p.
Proof.
  intros H. unfold item_modified.
  assert (Hp : item_rest <$> (store sc' !! p) = item_rest <$> (store sc !! p)).
  { unfold loc in *. now rewrite <- !list_lookup_fmap, H. }
  destruct (store sc' !! p) as [v'|], (store sc !! p) as [v|];
    try discriminate; [|reflexivity].
  injection Hp as Hp.
  destruct v' as [[]|[]|[]], v as [[]|[]|[]]; try discriminate;
    inversion Hp; reflexivity.
Qed.

Lemma heap_frame_commit (sc sc' : StateCache) :
  heap_frame sc sc' -> commit_frame sc sc'.
Proof.
  intros H. split; [now apply heap_frame_view|].
  destruct H as (_&_&_&_&_&_&H). intros p Hp.
  now rewrite (item_modified_rest sc sc' p H).
Qed.

(** An update of one item by a function that keeps the view and does
    not set [MODIFIED]. *)
Lemma commit_frame_update (r : ItemRef) (f : CacheItem -> CacheItem) :
  (forall v, item_view (f v) = item_view v) ->
  (forall v, HasFlag ModifiedFlag v = false -> HasFlag ModifiedFlag (f v) = false) ->
  keeps commit_frame (update r f).
Proof.
  intros Hview Hmod sc x sc' H. unfold update in H.
  apply bind_Ok_inv in H as (v & sc1 & H1 & H2).
  unfold deref in H1. destruct r as [p|]; [|discriminate].
  destruct (store sc !! p) as [w|] eqn:Ep; [|discriminate].
  injection H1 as <- <-. unfold modify in H2. injection H2 as H2. subst sc'.
  split; [split|].
  - reflexivity.
  - cbn [store set_store]. rewrite list_fmap_insert, Hview.
    apply list_insert_id. rewrite list_lookup_fmap. unfold loc in *.
    now rewrite Ep.
  - intros q Hq. unfold item_modified in *. cbn [store set_store].
    destruct (Nat.eq_dec q p) as [->|Hne].
    + rewrite list_lookup_insert_eq by (now apply lookup_lt_Some in Ep).
      rewrite Ep in Hq. now apply Hmod.
    + now rewrite list_lookup_insert_ne by congruence.
Qed.

Lemma commit_frame_update_pos (r : ItemRef) (j : Z) :
  keeps commit_frame (update r (SetQueuePos j)).
Proof.
  apply commit_frame_update; intros v; destruct v as [[]|[]|[]]; auto.
Qed.

Lemma ldiff_Modified_clear (f : Z) :
  Z.land (Z.ldiff f ModifiedFlag) ModifiedFlag = 0.
Proof.
  apply Z.bits_inj'. intros n Hn.
  rewrite Z.land_spec, Z.ldiff_spec, Z.bits_0.
  destruct (Z.testbit ModifiedFlag n); [now rewrite andb_false_r|].
  now rewrite andb_false_r.
Qed.

Lemma ldiff_Modified_idem (f : Z) :
  Z.ldiff (Z.ldiff f ModifiedFlag) ModifiedFlag = Z.ldiff f ModifiedFlag.
Proof.
  apply Z.bits_inj'. intros n Hn. rewrite !Z.ldiff_spec.
  destruct (Z.testbit f n), (Z.testbit ModifiedFlag n); reflexivity.
Qed.

Lemma ClearFlags_Modified (v : CacheItem) :
  HasFlag ModifiedFlag (ClearFlags ModifiedFlag v) = false.
Proof.
  destruct v as [[]|[]|[]]; cbn; now rewrite ldiff_Modified_clear.
Qed.

Lemma commit_frame_clear (r : ItemRef) :
  keeps commit_frame (update r (ClearFlags ModifiedFlag)).
Proof.
  apply commit_frame_update; intros v.
  - destruct v as [[]|[]|[]]; cbn; now rewrite ldiff_Modified_idem.
  - intros _. apply ClearFlags_Modified.
Qed.

Lemma commit_frame_copy_items (e s : Z) : keeps commit_frame (copy_items e s).
Proof.
  intros sc x sc' H. unfold copy_items in H.
  destruct (_ || _); inversion H; subst.
  split; [split; reflexivity | intros p Hp; exact Hp].
Qed.

Lemma commit_frame_Init : keeps commit_frame (heap.Init readQueue).
Proof.
  eapply keeps_weaken; [apply heap_frame_commit|].
  apply (queue_ops_frame readQueue 0 None). now left.
Qed.

Lemma commit_frame_TurnWritesToReads : keeps commit_frame TurnWritesToReads.
Proof.
  unfold TurnWritesToReads, WriteHeap_Len.
  repeat first
    [ apply keeps_ret; apply commit_frame_refl
    | apply keeps_gets; apply commit_frame_refl
    | apply keeps_deref; apply commit_frame_refl
    | apply keeps_items_len; apply commit_frame_refl
    | apply commit_frame_update_pos
    | apply commit_frame_clear
    | apply commit_frame_copy_items
    | apply commit_frame_Init
    | apply keeps_modify; intros;
        split; [split; reflexivity | intros p Hp; exact Hp]
    | apply (keeps_bind commit_frame commit_frame_trans); [|intros]
    | apply keeps_Ascend;
        [apply commit_frame_refl | apply commit_frame_trans | intros] ].
Qed.

Lemma bounds_frame_update (r : ItemRef) (f : CacheItem -> CacheItem) :
  keeps bounds_frame (update r f).
Proof.
  unfold update. apply (keeps_bind bounds_frame bounds_frame_trans).
  - apply keeps_deref, bounds_frame_refl.
  - intros v. destruct r; [|apply keeps_panic].
    apply keeps_modify. intros. repeat split.
Qed.

Lemma bounds_frame_items_set (i : Z) (r : ItemRef) :
  keeps bounds_frame (items_set i r).
Proof.
  intros sc x sc' H. unfold items_set in H.
  destruct (_ || _); inversion H; subst.
  repeat split. cbn. apply length_insert.
Qed.

Ltac bounds_tac :=
  repeat first
    [ apply keeps_ret; apply bounds_frame_refl
    | apply keeps_gets; apply bounds_frame_refl
    | apply keeps_deref; apply bounds_frame_refl
    | apply keeps_items_get; apply bounds_frame_refl
    | apply keeps_items_len; apply bounds_frame_refl
    | apply bounds_frame_update
    | apply bounds_frame_items_set
    | apply (keeps_bind bounds_frame bounds_frame_trans); [|intros] ].

(** Sifting inside the read heap moves no bound. *)
Lemma bounds_frame_read_sift (i n : Z) :
  keeps bounds_frame (heap.Init readQueue) /\
  keeps bounds_frame (heap.Fix readQueue i) /\
  keeps bounds_frame (heap.up readQueue i) /\
  keeps bounds_frame (heap.down readQueue i n).
Proof.
  assert (HLen : keeps bounds_frame (h_Len readQueue))
    by (cbn; unfold ReadHeap_Len; bounds_tac).
  assert (HLess : forall i j, keeps bounds_frame (h_Less readQueue i j))
    by (intros; cbn; unfold ReadHeap_Less; bounds_tac).
  assert (HSwap : forall i j, keeps bounds_frame (h_Swap readQueue i j))
    by (intros; cbn; unfold ReadHeap_Swap; bounds_tac).
  split; [|split; [|split]].
  - now apply (keeps_Init bounds_frame bounds_frame_refl bounds_frame_trans).
  - now apply (keeps_Fix bounds_frame bounds_frame_refl bounds_frame_trans).
  - now apply (keeps_up bounds_frame bounds_frame_refl bounds_frame_trans).
  - now apply (keeps_down bounds_frame bounds_frame_refl bounds_frame_trans).
Qed.

(** The visitor of the commit, for one item. *)
Lemma commit_visit_clears (writeLen : Z) (p : loc) (sc sc' : StateCache) :
  (do cacheItem <- deref (Some p) ;;
   do e <- gets readQueue_end ;;
   run update (Some p) (SetQueuePos (e + writeLen - GetQueuePos cacheItem)) ;;
   update (Some p) (ClearFlags ModifiedFlag)) sc = Ok (tt, sc') ->
  item_modified sc' p = false.
Proof.
  intros H.
  apply bind_Ok_inv in H as (v & sc1 & H1 & H).
  unfold deref in H1. destruct (store sc !! p) as [w|] eqn:Ep; [|discriminate].
  injection H1 as <- <-.
  apply bind_Ok_inv in H as (e & sc1 & H1 & H). injection H1 as <- <-.
  rewrite (bind_update p _ _ sc w Ep) in H.
  unfold update, bind, deref, modify in H. cbn [store set_store] in H.
  rewrite (lookup_updated _ _ w) in H by exact Ep.
  injection H as <-. unfold item_modified. cbn [store set_store].
  rewrite list_lookup_insert_eq.
  - apply ClearFlags_Modified.
  - rewrite length_insert. now apply lookup_lt_Some in Ep.
Qed.

Lemma commit_Ascend_clears (writeLen : Z) (t : BTree) (sc sc' : StateCache) :
  Ascend t (fun i =>
     do cacheItem <- deref i ;;
     do e <- gets readQueue_end ;;
     run update i (SetQueuePos (e + writeLen - GetQueuePos cacheItem)) ;;
     update i (ClearFlags ModifiedFlag)) sc = Ok (tt, sc') ->
  forall p, In p t -> item_modified sc' p = false.
Proof.
  revert sc. induction t as [|q t IH]; intros sc H p Hp; [contradiction|].
  cbn [Ascend] in H.
  apply bind_Ok_inv in H as ([] & sc1 & H1 & H2).
  destruct Hp as [<-|Hp]; [|now apply (IH sc1)].
  apply commit_visit_clears in H1.
  assert (K : keeps commit_frame (Ascend t (fun i =>
     do cacheItem <- deref i ;;
     do e <- gets readQueue_end ;;
     run update i (SetQueuePos (e + writeLen - GetQueuePos cacheItem)) ;;
     update i (ClearFlags ModifiedFlag)))).
  { apply keeps_Ascend; [apply commit_frame_refl | apply commit_frame_trans|].
    intros i.
    repeat first
      [ apply keeps_gets; apply commit_frame_refl
      | apply keeps_deref; apply commit_frame_refl
      | apply commit_frame_update_pos
      | apply commit_frame_clear
      | apply (keeps_bind commit_frame commit_frame_trans); [|intros] ]. }
  destruct (K _ _ _ H2) as [_ Hn]. now apply Hn.
Qed.

Lemma commit_bounds (sc sc' : StateCache) :
  TurnWritesToReads sc = Ok (tt, sc') ->
  writeQueue_start sc' = Z.of_nat (length (heapItems sc')) /\
  length (heapItems sc') = length (heapItems sc) /\
  readQueue_end sc' =
    readQueue_end sc + (Z.of_nat (length (heapItems sc)) - writeQueue_start sc).
Proof.
  unfold TurnWritesToReads. intros H.
  apply bind_Ok_inv in H as (wl & s0 & H0 & H).
  unfold WriteHeap_Len, items_len, bind, gets, ret in H0. injection H0 as <- <-.
  apply bind_Ok_inv in H as (t & s0 & H0 & H). injection H0 as <- <-.
  apply bind_Ok_inv in H as ([] & sc1 & H1 & H).
  assert (B1 : bounds_frame sc sc1).
  { revert H1. apply keeps_Ascend;
      [apply bounds_frame_refl | apply bounds_frame_trans | intros; bounds_tac]. }
  apply bind_Ok_inv in H as (e & s0 & H0 & H). injection H0 as <- <-.
  apply bind_Ok_inv in H as (s & s0 & H0 & H). injection H0 as <- <-.
  apply bind_Ok_inv in H as ([] & sc2 & H2 & H).
  pose proof (steady_copy_items _ _ _ _ _ H2) as ((_ & _ & L2) & _).
  assert (E2 : readQueue_end sc2 = readQueue_end sc1 /\
               writeQueue_start sc2 = writeQueue_start sc1).
  { unfold copy_items in H2. destruct (_ || _); inversion H2; subst. now split. }
  destruct E2 as [E2 S2].
  apply bind_Ok_inv in H as (n & s0 & H0 & H).
  unfold items_len, gets in H0. injection H0 as <- <-.
  apply bind_Ok_inv in H as ([] & sc3 & H3 & H). injection H3 as <-.
  apply bind_Ok_inv in H as ([] & sc4 & H4 & H). injection H4 as <-.
  destruct (bounds_frame_read_sift 0 0) as (KI & _).
  destruct (KI _ _ _ H) as (E5 & S5 & L5).
  cbn [readQueue_end writeQueue_start heapItems set_readQueue_end
       set_writeQueue_start] in E5, S5, L5.
  destruct B1 as (E1 & S1 & L1).
  repeat split; congruence.
Qed.

(** X9.  The commit.  When [TurnWritesToReads] returns, the write queue is
    empty and the read queue has grown by what the write queue held;
    [readWrites] is the same index; every item of [writes] has [MODIFIED]
    clear and no item has gained it; and every lookup answers as it did
    before the commit. *)
Theorem X9_commit_effect (sc sc' : StateCache) :
  TurnWritesToReads sc = Ok (tt, sc') ->
  writeQueue_start sc' = Z.of_nat (length (heapItems sc')) /\
  readQueue_end sc' =
    readQueue_end sc + (Z.of_nat (length (heapItems sc)) - writeQueue_start sc) /\
  readWrites sc' = readWrites sc /\
  (forall p, In p (writes sc) -> item_modified sc' p = false) /\
  (forall p, item_modified sc p = false -> item_modified sc' p = false) /\
  (forall address incarnation location,
      eval (GetAccount address) sc' = eval (GetAccount address) sc /\
      eval (GetStorage address incarnation location) sc'
        = eval (GetStorage address incarnation location) sc /\
      eval (GetCode address) sc' = eval (GetCode address) sc).
Proof.
  intros H.
  destruct (commit_bounds sc sc' H) as (Hs & _ & He).
  destruct (commit_frame_TurnWritesToReads _ _ _ H) as [Hv Hn].
  split; [exact Hs|]. split; [exact He|]. split; [apply Hv|].
  split; [|split; [exact Hn|]].
  - intros p Hp. revert H. unfold TurnWritesToReads. intros H.
    apply bind_Ok_inv in H as (wl & s0 & H0 & H).
    unfold WriteHeap_Len, items_len, bind, gets, ret in H0. injection H0 as <- <-.
    apply bind_Ok_inv in H as (t & s0 & H0 & H). injection H0 as <- <-.
    apply bind_Ok_inv in H as ([] & sc1 & H1 & H).
    pose proof (commit_Ascend_clears _ _ _ _ H1 p Hp) as Hc.
    assert (K : keeps commit_frame
      (do e <- gets readQueue_end ;;
       do s <- gets writeQueue_start ;;
       run copy_items e s ;;
       do n <- items_len ;;
       run modify (fun sc => set_readQueue_end
                     (readQueue_end sc + (n - writeQueue_start sc)) sc) ;;
       run modify (set_writeQueue_start n) ;;
       heap.Init readQueue)).
    { repeat first
        [ apply keeps_gets; apply commit_frame_refl
        | apply keeps_items_len; apply commit_frame_refl
        | apply commit_frame_copy_items
        | apply commit_frame_Init
        | apply keeps_modify; intros;
            split; [split; reflexivity | intros q Hq; exact Hq]
        | apply (keeps_bind commit_frame commit_frame_trans); [|intros] ]. }
    destruct (K _ _ _ H) as [_ Hn']. now apply Hn'.
  - intros. now apply view_frame_lookups.
Qed.

(** Two accounts written on a cache of limits 2 and 2, then committed. *)
Lemma X9_commit_effect_witness :
  TurnWritesToReads full22 = Ok (tt, committed22) /\
  writeQueue_start committed22 = 4 /\
  readQueue_end committed22 = 2 /\
  item_modified full22 0%nat = true /\
  item_modified committed22 0%nat = false.
Proof.
  assert (H : TurnWritesToReads full22 = Ok (tt, committed22))
    by (vm_compute; reflexivity).
  destruct (X9_commit_effect full22 committed22 H) as (Hs & He & _ & Hm & _).
  split; [exact H|]. split; [exact Hs|]. split; [exact He|].
  split; [vm_compute; reflexivity|]. apply Hm.
  replace (writes full22) with [0%nat; 1%nat] by (vm_compute; reflexivity).
  left. reflexivity.
Defined.

(* ------------------------------------------------------------------ *)
(** * Sifting in a filled read region returns *)

Ltac zlia := unfold ItemRef, loc in *; lia.

Lemma items_get_filled (sc : StateCache) (n k : Z) :
  filled sc n -> 0 <= k < n ->
  exists q : loc, items_get k sc = Ok (Some q, sc) /\ (q < length (store sc))%nat.
Proof.
  intros Hf Hk. destruct (Hf k Hk) as (q & Hq & Hv).
  exists q. split; [|exact Hv]. unfold items_get.
  pose proof (lookup_lt_Some _ _ _ Hq) as Hlt.
  destruct (Z.ltb_spec k 0); [zlia|].
  match goal with
  | |- context [?a <=? k] => destruct (Z.leb_spec a k); [zlia|]
  end.
  cbn [orb]. unfold ItemRef in *. now rewrite Hq.
Qed.

Lemma deref_valid (sc : StateCache) (q : loc) :
  (q < length (store sc))%nat -> exists w, deref (Some q) sc = Ok (w, sc).
Proof.
  intros H. destruct (lookup_lt_is_Some_2 _ _ H) as [w Hw].
  exists w. unfold deref. unfold loc in *. now rewrite Hw.
Qed.

Lemma update_valid (sc : StateCache) (q : loc) (f : CacheItem -> CacheItem) :
  (q < length (store sc))%nat ->
  exists w, update (Some q) f sc = Ok (tt, set_store (<[q := w]> (store sc)) sc).
Proof.
  intros H. destruct (lookup_lt_is_Some_2 _ _ H) as [w Hw].
  exists (f w). unfold update, bind, deref, modify. unfold loc in *. now rewrite Hw.
Qed.

Lemma filled_store (sc : StateCache) (n : Z) (st : list CacheItem) :
  filled sc n -> length st = length (store sc) -> filled (set_store st sc) n.
Proof.
  intros Hf Hl k Hk. destruct (Hf k Hk) as (q & Hq & Hv).
  exists q. cbn [heapItems store set_store]. split; [exact Hq | zlia].
Qed.

Lemma ReadHeap_Less_filled (sc : StateCache) (n i j : Z) :
  filled sc n -> 0 <= i < n -> 0 <= j < n ->
  exists b, ReadHeap_Less i j sc = Ok (b, sc).
Proof.
  intros Hf Hi Hj.
  destruct (items_get_filled sc n i Hf Hi) as (qa & Ga & Va).
  destruct (items_get_filled sc n j Hf Hj) as (qb & Gb & Vb).
  destruct (deref_valid sc qa Va) as (wa & Da).
  destruct (deref_valid sc qb Vb) as (wb & Db).
  exists (GetSequence wa <? GetSequence wb).
  unfold ReadHeap_Less, bind. now rewrite Ga, Da, Gb, Db.
Qed.

Lemma filled_swap (sc : StateCache) (n i j : Z) (qa qb : loc) :
  filled sc n -> 0 <= i < n -> 0 <= j < n ->
  (qa < length (store sc))%nat -> (qb < length (store sc))%nat ->
  filled (set_heapItems
            (<[Z.to_nat j := Some qa]> (<[Z.to_nat i := Some qb]> (heapItems sc)))
            sc) n.
Proof.
  intros Hf Hi Hj Va Vb k Hk. cbn [heapItems store set_heapItems].
  destruct (Hf i Hi) as (xi & Xi & _). destruct (Hf j Hj) as (xj & Xj & _).
  apply lookup_lt_Some in Xi, Xj.
  destruct (Z.eq_dec k j) as [->|Hkj].
  - exists qa. split; [|exact Va].
    apply list_lookup_insert_eq. now rewrite length_insert.
  - rewrite list_lookup_insert_ne by zlia.
    destruct (Z.eq_dec k i) as [->|Hki].
    + exists qb. split; [|exact Vb]. now apply list_lookup_insert_eq.
    + rewrite list_lookup_insert_ne by zlia. apply Hf, Hk.
Qed.

Lemma ReadHeap_Swap_filled (sc : StateCache) (n i j : Z) :
  filled sc n -> 0 <= i < n -> 0 <= j < n ->
  exists sc', ReadHeap_Swap i j sc = Ok (tt, sc') /\ filled sc' n.
Proof.
  intros Hf Hi Hj.
  destruct (items_get_filled sc n i Hf Hi) as (qa & Ga & Va).
  destruct (update_valid sc qa (SetQueuePos j) Va) as (wa & Ua).
  set (sc1 := set_store (<[qa := wa]> (store sc)) sc) in *.
  assert (Hf1 : filled sc1 n) by (apply filled_store; [exact Hf | apply length_insert]).
  destruct (items_get_filled sc1 n j Hf1 Hj) as (qb & Gb & Vb).
  destruct (update_valid sc1 qb (SetQueuePos i) Vb) as (wb & Ub).
  set (sc2 := set_store (<[qb := wb]> (store sc1)) sc1) in *.
  assert (Hf2 : filled sc2 n) by (apply filled_store; [exact Hf1 | apply length_insert]).
  assert (Gb2 : items_get j sc2 = Ok (Some qb, sc2)).
  { revert Gb. unfold items_get. cbn [heapItems sc2 set_store].
    destruct (_ || _); [discriminate|].
    destruct (heapItems sc1 !! Z.to_nat j); [|discriminate].
    intros E. injection E as ->. reflexivity. }
  assert (Ga2 : items_get i sc2 = Ok (Some qa, sc2)).
  { revert Ga. unfold items_get. cbn [heapItems sc2 sc1 set_store].
    destruct (_ || _); [discriminate|].
    destruct (heapItems sc !! Z.to_nat i); [|discriminate].
    intros E. injection E as ->. reflexivity. }
  assert (Li : items_set i (Some qb) sc2 =
               Ok (tt, set_heapItems (<[Z.to_nat i := Some qb]> (heapItems sc2)) sc2)).
  { revert Ga2. unfold items_get, items_set. destruct (_ || _); [discriminate|].
    reflexivity. }
  eexists. split.
  - unfold ReadHeap_Swap, bind. rewrite Ga, Ua. fold sc1. rewrite Gb, Ub. fold sc2.
    rewrite Gb2, Ga2, Li.
    unfold items_set. cbn [heapItems set_heapItems]. rewrite length_insert.
    revert Gb2. unfold items_get. destruct (_ || _); [discriminate|]. intros _.
    reflexivity.
  - assert (Va2 : (qa < length (store sc2))%nat).
    { cbn [store sc2 sc1 set_store]. rewrite !length_insert. exact Va. }
    assert (Vb2 : (qb < length (store sc2))%nat).
    { cbn [store sc2 set_store]. rewrite length_insert. exact Vb. }
    exact (filled_swap sc2 n i j qa qb Hf2 Hi Hj Va2 Vb2).
Qed.

Lemma parent_bounds (j : Z) :
  0 <= j -> Z.quot (j - 1) 2 <> j -> 0 <= Z.quot (j - 1) 2 < j.
Proof.
  intros Hj Hne.
  destruct (Z.eq_dec j 0) as [->|H0]; [now contradiction Hne|].
  rewrite Z.quot_div_nonneg in * by lia.
  pose proof (Z.div_mod (j - 1) 2 ltac:(lia)).
  pose proof (Z.mod_pos_bound (j - 1) 2 ltac:(lia)). lia.
Qed.

Lemma read_up_loop_returns (n : Z) (fuel : nat) (j : Z) (sc : StateCache) :
  filled sc n -> 0 <= j < n -> (Z.to_nat j < fuel)%nat ->
  exists sc', heap.up_loop fuel readQueue j sc = Ok (tt, sc') /\ filled sc' n.
Proof.
  revert j sc. induction fuel as [|fuel IH]; intros j sc Hf Hj Hfuel; [lia|].
  cbn [heap.up_loop].
  destruct (Z.eqb_spec (Z.quot (j - 1) 2) j) as [E|E].
  - exists sc. now split.
  - pose proof (parent_bounds j ltac:(lia) E) as Hi.
    destruct (ReadHeap_Less_filled sc n j (Z.quot (j - 1) 2) Hf Hj ltac:(lia))
      as (b & Lb).
    unfold bind at 1. cbn [h_Less readQueue]. rewrite Lb.
    destruct b; cbn [negb].
    + destruct (ReadHeap_Swap_filled sc n (Z.quot (j - 1) 2) j Hf ltac:(lia) Hj)
        as (sc1 & S1 & Hf1).
      unfold bind. cbn [h_Swap readQueue]. rewrite S1.
      apply IH; [exact Hf1 | lia | lia].
    + exists sc. now split.
Qed.

Lemma read_Push_returns (sc : StateCache) (p : loc) :
  filled sc (readQueue_end sc) ->
  0 <= readQueue_end sc < Z.of_nat (length (heapItems sc)) ->
  (p < length (store sc))%nat ->
  exists sc',
    heap.Push readQueue (Some p) sc = Ok (tt, sc') /\
    readQueue_end sc' = readQueue_end sc + 1 /\
    filled sc' (readQueue_end sc + 1).
Proof.
  intros Hf He Hp.
  set (sc1 := set_readQueue_end (readQueue_end sc + 1)
                (set_heapItems (<[Z.to_nat (readQueue_end sc) := Some p]> (heapItems sc)) sc)).
  assert (P1 : ReadHeap_Push (Some p) sc = Ok (tt, sc1)).
  { unfold ReadHeap_Push, bind, assert_CacheItem, ret, gets, items_set, modify.
    destruct (Z.ltb_spec (readQueue_end sc) 0); [lia|].
    match goal with
    | |- context [?a <=? readQueue_end sc] =>
        destruct (Z.leb_spec a (readQueue_end sc)); [zlia|]
    end.
    reflexivity. }
  assert (Hf1 : filled sc1 (readQueue_end sc + 1)).
  { intros k Hk. cbn [heapItems store sc1 set_readQueue_end set_heapItems].
    destruct (Z.eq_dec k (readQueue_end sc)) as [->|Hne].
    - exists p. split; [|exact Hp]. apply list_lookup_insert_eq. zlia.
    - rewrite list_lookup_insert_ne by zlia. apply Hf. lia. }
  destruct (read_up_loop_returns (readQueue_end sc + 1)
              (S (Z.to_nat (Z.abs (readQueue_end sc + 1 - 1))))
              (readQueue_end sc + 1 - 1) sc1 Hf1 ltac:(lia) ltac:(lia))
    as (sc' & U & Hf').
  exists sc'. split; [|split; [|exact Hf']].
  - unfold heap.Push, bind. cbn [h_Push h_Len readQueue]. rewrite P1.
    unfold ReadHeap_Len, gets. cbn [readQueue_end sc1 set_readQueue_end].
    exact U.
  - destruct (bounds_frame_read_sift (readQueue_end sc + 1 - 1) 0) as (_ & _ & KU & _).
    destruct (KU _ _ _ U) as (E & _). rewrite E. reflexivity.
Qed.

(** ** Index insertion after a miss *)

Lemma same_key_refl (v : CacheItem) : same_key v v.
Proof. destruct v as [[]|[]|[]]; cbn; auto. Qed.

Lemma same_key_SetQueuePos (j : Z) (v : CacheItem) : same_key (SetQueuePos j v) v.
Proof. destruct v as [[]|[]|[]]; cbn; auto. Qed.

Lemma same_key_SetSequence (s : Z) (v : CacheItem) : same_key (SetSequence s v) v.
Proof. destruct v as [[]|[]|[]]; cbn; auto. Qed.

Lemma same_key_trans (a b c : CacheItem) :
  same_key a b -> same_key b c -> same_key a c.
Proof.
  destruct a as [[]|[]|[]], b as [[]|[]|[]], c as [[]|[]|[]]; cbn;
    try contradiction; intuition congruence.
Qed.

Lemma same_key_sym (a b : CacheItem) : same_key a b -> same_key b a.
Proof.
  destruct a as [[]|[]|[]], b as [[]|[]|[]]; cbn;
    try contradiction; intuition congruence.
Qed.

(** Replacing an item by one of the same key changes no index lookup. *)
Lemma Get_update_same_key (st : list CacheItem) (t : BTree) (k : CacheItem)
    (p : loc) (v w : CacheItem) :
  st !! p = Some v -> same_key w v ->
  btree.Get (<[p := w]> st) t k = btree.Get st t k.
Proof.
  intros Hp Hk. unfold loc in *.
  induction t as [|q t IH]; cbn [btree.Get]; [reflexivity|].
  unfold loc in *.
  destruct (Nat.eq_dec q p) as [->|Hne].
  - rewrite list_lookup_insert_eq by (now apply lookup_lt_Some in Hp).
    rewrite Hp.
    now rewrite (Less_same_key_l k w v Hk), (Less_same_key_r k w v Hk), IH.
  - rewrite list_lookup_insert_ne by congruence.
    destruct (st !! q); [|reflexivity]. now rewrite IH.
Qed.

Lemma insert_after_miss (st : list CacheItem) (t : BTree) (p : loc) (v : CacheItem) :
  btree.Get st t v = Ok None ->
  st !! p = Some v ->
  exists t', btree.insert st t p v = Ok t' /\ btree.Get st t' v = Ok (Some p).
Proof.
  intros Hg Hp. induction t as [|q t IH]; cbn [btree.Get btree.insert] in *.
  - exists [p]. split; [reflexivity|]. cbn [btree.Get]. rewrite Hp.
    now rewrite Less_irrefl.
  - destruct (st !! q) as [x|] eqn:Eq; [|discriminate].
    destruct (Less x v) eqn:E1.
    + destruct (IH Hg) as (t' & I' & G'). rewrite I'.
      exists (q :: t'). split; [reflexivity|]. cbn [btree.Get].
      now rewrite Eq, E1.
    + destruct (Less v x) eqn:E2; [|discriminate].
      exists (p :: q :: t). split; [reflexivity|]. cbn [btree.Get].
      rewrite Hp. now rewrite Less_irrefl.
Qed.

Lemma bind_gets {A B} (f : StateCache -> A) (k : A -> M B) (sc : StateCache) :
  bind (gets f) k sc = k (f sc) sc.
Proof. reflexivity. Qed.

Lemma bind_modify {B} (f : StateCache -> StateCache) (k : unit -> M B)
    (sc : StateCache) :
  bind (modify f) k sc = k tt (f sc).
Proof. reflexivity. Qed.

(** ** A read insertion with room in the read queue *)

Lemma setRead_room (sc : StateCache) (p : loc) (v : CacheItem) :
  store sc !! p = Some v ->
  btree.Get (store sc) (readWrites sc) v = Ok None ->
  read_room sc ->
  exists sc3 sc',
    setRead (Some p) sc = Ok (tt, sc') /\
    readQueue_end sc' = readQueue_end sc + 1 /\
    heap_frame sc3 sc' /\
    sequence sc3 = sequence sc /\
    btree.Get (store sc3) (readWrites sc3) v = Ok (Some p) /\
    store sc3 !! p = Some (SetSequence (sequence sc) (SetQueuePos 0 v)).
Proof.
  intros Hp Hg (Hf & He & Hlim).
  set (v1 := SetQueuePos 0 v).
  set (v2 := SetSequence (sequence sc) v1).
  set (sc1 := set_store (<[p := v1]> (store sc)) sc).
  set (sc2 := set_store (<[p := v2]> (store sc1)) sc1).
  assert (Hp1 : store sc1 !! p = Some v1) by (apply (lookup_updated _ _ v); exact Hp).
  assert (Hp2 : store sc2 !! p = Some v2) by (apply (lookup_updated _ _ v1); exact Hp1).
  assert (K2 : same_key v2 v).
  { apply (same_key_trans _ v1); [apply same_key_SetSequence | apply same_key_SetQueuePos]. }
  assert (Hg2 : btree.Get (store sc2) (readWrites sc2) v2 = Ok None).
  { rewrite (Get_same_key _ _ v2 v K2).
    cbn [store readWrites sc2 sc1 set_store].
    rewrite (Get_update_same_key _ _ _ p v1 v2 Hp1 (same_key_SetSequence _ _)).
    cbn [store sc1 set_store].
    rewrite (Get_update_same_key _ _ _ p v v1 Hp (same_key_SetQueuePos _ _)).
    exact Hg. }
  destruct (insert_after_miss _ _ p v2 Hg2 Hp2) as (t' & Hins & Hget).
  set (sc3 := set_readWrites t' sc2).
  assert (Hf3 : filled sc3 (readQueue_end sc3)).
  { intros k Hk. destruct (Hf k Hk) as (q & Hq & Hv). exists q.
    split; [exact Hq|]. cbn [store sc3 sc2 sc1 set_readWrites set_store].
    rewrite !length_insert. exact Hv. }
  assert (Hv3 : (p < length (store sc3))%nat).
  { cbn [store sc3 sc2 sc1 set_readWrites set_store]. rewrite !length_insert.
    now apply lookup_lt_Some in Hp. }
  destruct (read_Push_returns sc3 p Hf3 He Hv3) as (sc' & HP & HE & _).
  exists sc3, sc'.
  split; [|split; [exact HE|split; [|split; [reflexivity|split]]]].
  - unfold setRead.
    rewrite (bind_deref p _ sc v Hp).
    rewrite (bind_readWrites_Get v _ sc None Hg).
    rewrite (bind_update p _ _ sc v Hp). fold v1. fold sc1.
    rewrite bind_gets.
    rewrite (bind_update p _ _ sc1 v1 Hp1).
    change (sequence sc1) with (sequence sc). fold v2. fold sc2.
    unfold readWrites_ReplaceOrInsert at 1.
    rewrite !bind_assoc, bind_gets, bind_assoc, bind_gets, bind_assoc.
    unfold btree.ReplaceOrInsert. rewrite Hp2, Hins.
    unfold liftR at 1. unfold bind at 1. rewrite bind_modify. fold sc3.
    unfold ReadHeap_Len. rewrite !bind_gets.
    destruct (Z.leb_spec (limitReads sc3) (readQueue_end sc3)) as [Hle|_];
      [cbn [limitReads readQueue_end sc3 sc2 sc1 set_readWrites set_store] in Hle; lia|].
    exact HP.
  - destruct (queue_ops_frame readQueue 0 (Some p) (or_introl eq_refl))
      as (_ & KP & _).
    exact (KP _ _ _ HP).
  - rewrite (Get_same_key _ _ v v2 (same_key_sym _ _ K2)). exact Hget.
  - exact Hp2.
Qed.

Lemma get_found (sc : StateCache) (key : CacheItem) (p : loc) (v : CacheItem) :
  btree.Get (store sc) (readWrites sc) key = Ok (Some p) ->
  store sc !! p = Some v ->
  get key sc =
    Ok ((if HasFlag DeletedFlag v then (None, false) else (Some p, true)), sc).
Proof.
  intros Hg Hp. unfold get, readWrites_Get, bind, gets, liftR, ret, deref.
  rewrite Hg, Hp. now destruct (HasFlag DeletedFlag v).
Qed.

Lemma GetAccount_at (sc : StateCache) (address : list byte) (p : loc)
    (a : AccountCacheItem) :
  btree.Get (store sc) (readWrites sc) (account_key address) = Ok (Some p) ->
  store sc !! p = Some (AccountItem a) ->
  eval (GetAccount address) sc =
    Ok (if HasFlag DeletedFlag a then (None, false)
        else (Some (aci_account a), true)).
Proof.
  intros Hg Hp. unfold eval, GetAccount, bind.
  rewrite (get_found sc _ p _ Hg Hp). cbn [HasFlag CacheItem_ops lift_item].
  destruct (HasFlag DeletedFlag a); cbn [fst snd]; [reflexivity|].
  unfold as_account, bind, deref, ret. now rewrite Hp.
Qed.

Lemma GetStorage_at (sc : StateCache) (address location : list byte)
    (incarnation : Z) (p : loc) (s : StorageCacheItem) :
  btree.Get (store sc) (readWrites sc) (storage_key address incarnation location)
    = Ok (Some p) ->
  store sc !! p = Some (StorageItem s) ->
  eval (GetStorage address incarnation location) sc =
    Ok (if HasFlag DeletedFlag s then (None, false)
        else (Some (sci_value s), true)).
Proof.
  intros Hg Hp. unfold eval, GetStorage, bind.
  rewrite (get_found sc _ p _ Hg Hp). cbn [HasFlag CacheItem_ops lift_item].
  destruct (HasFlag DeletedFlag s); cbn [fst snd]; [reflexivity|].
  unfold as_storage, bind, deref, ret. now rewrite Hp.
Qed.

Lemma GetCode_at (sc : StateCache) (address : list byte) (p : loc)
    (c : CodeCacheItem) :
  btree.Get (store sc) (readWrites sc) (code_key address) = Ok (Some p) ->
  store sc !! p = Some (CodeItem c) ->
  eval (GetCode address) sc =
    Ok (if HasFlag DeletedFlag c then None else cci_code c, true).
Proof.
  intros Hg Hp. unfold eval, GetCode, bind.
  rewrite (get_found sc _ p _ Hg Hp). cbn [HasFlag CacheItem_ops lift_item].
  destruct (HasFlag DeletedFlag c); cbn [fst snd]; [reflexivity|].
  unfold as_code, bind, deref, ret. now rewrite Hp.
Qed.

Lemma read_room_store (sc s : StateCache) :
  read_room sc ->
  heapItems s = heapItems sc ->
  readQueue_end s = readQueue_end sc ->
  limitReads s = limitReads sc ->
  (length (store sc) <= length (store s))%nat ->
  read_room s.
Proof.
  intros (Hf & He & Hl) E1 E2 E3 Hlen. unfold read_room.
  rewrite E1, E2, E3. split; [|split; assumption].
  intros k Hk. destruct (Hf k Hk) as (q & Hq & Hv). exists q.
  rewrite E1. split; [exact Hq|]. zlia.
Qed.

Lemma fresh_code_eq (code : list byte) : fresh_code code = Some code.
Proof.
  unfold fresh_code, copy_bytes, zero_bytes.
  rewrite repeat_length, firstn_all, drop_repeat, Nat.sub_diag. cbn.
  now rewrite app_nil_r.
Qed.

Ltac room_store Hroom :=
  apply (read_room_store _ _ Hroom); [reflexivity | reflexivity | reflexivity |];
  cbn [store set_store]; rewrite ?length_insert, length_app; cbn [length]; lia.

(** Runs the prologue of a read insertion and hands the rest to
    [setRead_room]. *)
Ltac read_insert_tac key Hmiss Hroom :=
  rewrite bind_alloc; repeat step_update;
  match goal with
  | |- exists sc', setRead (Some ?p) ?s = _ /\ _ =>
      let v := fresh "v" in
      let Hp := fresh "Hp" in
      let Hg := fresh "Hg" in
      let Hr := fresh "Hr" in
      evar (v : CacheItem);
      assert (Hp : store s !! p = Some v) by (subst v; store_lookup);
      assert (Hg : btree.Get (store s) (readWrites s) v = Ok None)
        by (subst v; get_none key Hmiss);
      assert (Hr : read_room s) by (room_store Hroom);
      destruct (setRead_room s p v Hp Hg Hr)
        as (sc3 & sc' & HS & HE & HF & _ & HG & HP3);
      exists sc'; split; [exact HS|]; split; [exact HE|];
      apply heap_frame_view in HF
  end.

(** X10.  A read insertion into a cache with room in its read queue, of a key
    that [readWrites] does not hold, returns, lengthens the read queue by
    one, and the lookup that follows finds what was inserted: the value
    with [true] for [SetXRead], no value for [SetXAbsent].
    Storage values come back as the 32 bytes kept in the item. *)
Theorem X10_read_insert_then_lookup (sc : StateCache)
    (address location value code : list byte) (incarnation : Z) (account : Account) :
  read_room sc ->
  (missing sc (account_key address) ->
     (exists sc',
         SetAccountRead address account sc = Ok (tt, sc') /\
         readQueue_end sc' = readQueue_end sc + 1 /\
         eval (GetAccount address) sc' = Ok (Some account, true)) /\
     (exists sc',
         SetAccountAbsent address sc = Ok (tt, sc') /\
         readQueue_end sc' = readQueue_end sc + 1 /\
         eval (GetAccount address) sc' = Ok (None, false))) /\
  (missing sc (storage_key address incarnation location) ->
     (exists sc',
         SetStorageRead address incarnation location value sc = Ok (tt, sc') /\
         readQueue_end sc' = readQueue_end sc + 1 /\
         eval (GetStorage address incarnation location) sc'
           = Ok (Some (copy_bytes (zero_bytes HashLength) value), true)) /\
     (exists sc',
         SetStorageAbsent address incarnation location sc = Ok (tt, sc') /\
         readQueue_end sc' = readQueue_end sc + 1 /\
         eval (GetStorage address incarnation location) sc' = Ok (None, false))) /\
  (missing sc (code_key address) ->
     (exists sc',
         SetCodeRead address code sc = Ok (tt, sc') /\
         readQueue_end sc' = readQueue_end sc + 1 /\
         eval (GetCode address) sc' = Ok (Some code, true)) /\
     (exists sc',
         SetCodeAbsent address sc = Ok (tt, sc') /\
         readQueue_end sc' = readQueue_end sc + 1 /\
         exists found, eval (GetCode address) sc' = Ok (None, found))).
Proof.
  intros Hroom.
  split; [|split]; intros Hmiss; unfold missing in Hmiss; split.
  - unfold SetAccountRead. read_insert_tac (account_key address) Hmiss Hroom.
    destruct (view_frame_lookups _ _ address location incarnation HF) as (-> & _ & _).
    erewrite GetAccount_at;
      [ | erewrite Get_same_key; [exact HG | cbn; auto] | exact HP3].
    reflexivity.
  - unfold SetAccountAbsent. read_insert_tac (account_key address) Hmiss Hroom.
    destruct (view_frame_lookups _ _ address location incarnation HF) as (-> & _ & _).
    erewrite GetAccount_at;
      [ | erewrite Get_same_key; [exact HG | cbn; auto] | exact HP3].
    reflexivity.
  - unfold SetStorageRead.
    read_insert_tac (storage_key address incarnation location) Hmiss Hroom.
    destruct (view_frame_lookups _ _ address location incarnation HF) as (_ & -> & _).
    erewrite GetStorage_at;
      [ | erewrite Get_same_key; [exact HG | cbn; auto] | exact HP3].
    reflexivity.
  - unfold SetStorageAbsent.
    read_insert_tac (storage_key address incarnation location) Hmiss Hroom.
    destruct (view_frame_lookups _ _ address location incarnation HF) as (_ & -> & _).
    erewrite GetStorage_at;
      [ | erewrite Get_same_key; [exact HG | cbn; auto] | exact HP3].
    reflexivity.
  - unfold SetCodeRead. read_insert_tac (code_key address) Hmiss Hroom.
    destruct (view_frame_lookups _ _ address location incarnation HF) as (_ & _ & ->).
    erewrite GetCode_at;
      [ | erewrite Get_same_key; [exact HG | cbn; auto] | exact HP3].
    cbn. now rewrite fresh_code_eq.
  - unfold SetCodeAbsent. read_insert_tac (code_key address) Hmiss Hroom.
    exists true.
    destruct (view_frame_lookups _ _ address location incarnation HF) as (_ & _ & ->).
    erewrite GetCode_at;
      [ | erewrite Get_same_key; [exact HG | cbn; auto] | exact HP3].
    reflexivity.
Qed.

(* ------------------------------------------------------------------ *)
(** * A push on the write queue that needs no swap *)






Ltac state_cbn :=
  cbn [store readWrites writes heapItems readQueue_end writeQueue_start
       limitReads limitWrites sequence set_store set_readWrites set_writes
       set_heapItems set_readQueue_end set_writeQueue_start set_sequence].

Ltac store_lookup' :=
  state_cbn; repeat (eapply lookup_updated); apply lookup_alloc.

Ltac step_update' :=
  first
    [ erewrite bind_update_account by store_lookup'
    | erewrite bind_update_storage by store_lookup'
    | erewrite bind_update_code by store_lookup' ].

Ltac extends_tac' :=
  state_cbn;
  repeat (apply extends_update; [|state_cbn; lia]);
  first [apply extends_alloc | apply extends_refl].






(* ------------------------------------------------------------------ *)
(** * Writes over a key the cache holds *)

Lemma heap_frame_update_rest (r : ItemRef) (f : CacheItem -> CacheItem) :
  (forall v, item_rest (f v) = item_rest v) ->
  keeps heap_frame (update r f).
Proof.
  intros Hf sc x sc' H. unfold update in H.
  apply bind_Ok_inv in H as (v & sc1 & H1 & H2).
  unfold deref in H1. destruct r as [p|]; [|discriminate].
  destruct (store sc !! p) as [w|] eqn:Ep; [|discriminate].
  injection H1 as <- <-. unfold modify in H2. injection H2 as H2. subst sc'.
  unfold heap_frame. state_cbn. repeat split.
  rewrite list_fmap_insert, Hf.
  apply list_insert_id. rewrite list_lookup_fmap. unfold loc in *. now rewrite Ep.
Qed.

Lemma heap_frame_store_pos (sc : StateCache) (p : loc) (v w : CacheItem) :
  store sc !! p = Some v -> item_rest w = item_rest v ->
  heap_frame sc (set_store (<[p := w]> (store sc)) sc).
Proof.
  intros Hp Hw. unfold heap_frame. state_cbn. repeat split.
  rewrite list_fmap_insert, Hw.
  apply list_insert_id. rewrite list_lookup_fmap. unfold loc in *. now rewrite Hp.
Qed.

Lemma heap_frame_update_account_pos (r : ItemRef) (j : Z) :
  keeps heap_frame (update_account r (aci_set_queuePos j)).
Proof.
  intros sc x sc' H.
  unfold update_account, as_account, update, bind, deref, modify, ret, panic in H.
  destruct r as [p|]; [|discriminate].
  destruct (store sc !! p) as [[a|s|c]|] eqn:Ep; try discriminate.
  rewrite Ep in H. injection H as H. subst sc'. now apply (heap_frame_store_pos sc p (AccountItem a)).
Qed.

Lemma heap_frame_update_storage_pos (r : ItemRef) (j : Z) :
  keeps heap_frame (update_storage r (sci_set_queuePos j)).
Proof.
  intros sc x sc' H.
  unfold update_storage, as_storage, update, bind, deref, modify, ret, panic in H.
  destruct r as [p|]; [|discriminate].
  destruct (store sc !! p) as [[a|s|c]|] eqn:Ep; try discriminate.
  rewrite Ep in H. injection H as H. subst sc'. now apply (heap_frame_store_pos sc p (StorageItem s)).
Qed.

Lemma heap_frame_update_code_pos (r : ItemRef) (j : Z) :
  keeps heap_frame (update_code r (cci_set_queuePos j)).
Proof.
  intros sc x sc' H.
  unfold update_code, as_code, update, bind, deref, modify, ret, panic in H.
  destruct r as [p|]; [|discriminate].
  destruct (store sc !! p) as [[a|s|c]|] eqn:Ep; try discriminate.
  rewrite Ep in H. injection H as H. subst sc'. now apply (heap_frame_store_pos sc p (CodeItem c)).
Qed.

Lemma heap_frame_as (r : ItemRef) :
  keeps heap_frame (as_account r) /\
  keeps heap_frame (as_storage r) /\
  keeps heap_frame (as_code r).
Proof.
  split; [|split]; unfold as_account, as_storage, as_code;
    (apply (keeps_bind heap_frame heap_frame_trans);
       [apply keeps_deref, heap_frame_refl|]);
    intros [a|s|c];
    first [apply keeps_ret, heap_frame_refl | apply keeps_panic].
Qed.

Lemma frame_as_account (r : ItemRef) : keeps heap_frame (as_account r).
Proof. apply heap_frame_as. Qed.
Lemma frame_as_storage (r : ItemRef) : keeps heap_frame (as_storage r).
Proof. apply heap_frame_as. Qed.
Lemma frame_as_code (r : ItemRef) : keeps heap_frame (as_code r).
Proof. apply heap_frame_as. Qed.

Lemma frame_Fix (h : Interface) (i : Z) :
  h = readQueue \/ h = writeQueue -> keeps heap_frame (heap.Fix h i).
Proof. intros H. now destruct (queue_ops_frame h i None H) as (?&?&?&?&?). Qed.
Lemma frame_Remove (h : Interface) (i : Z) :
  h = readQueue \/ h = writeQueue -> keeps heap_frame (heap.Remove h i).
Proof. intros H. now destruct (queue_ops_frame h i None H) as (?&?&?&?&?). Qed.
Lemma frame_Push (h : Interface) (x : ItemRef) :
  h = readQueue \/ h = writeQueue -> keeps heap_frame (heap.Push h x).
Proof. intros H. now destruct (queue_ops_frame h 0 x H) as (?&?&?&?&?). Qed.

(** The tail of a write over a held key: everything after the value,
    the sequence and the flags have been assigned. *)
Ltac tail_frame :=
  unfold WriteHeap_Len;
  repeat first
    [ apply keeps_ret; apply heap_frame_refl
    | apply keeps_gets; apply heap_frame_refl
    | apply keeps_items_len; apply heap_frame_refl
    | apply frame_as_account
    | apply frame_as_storage
    | apply frame_as_code
    | apply heap_frame_update_account_pos
    | apply heap_frame_update_storage_pos
    | apply heap_frame_update_code_pos
    | apply frame_Fix; auto
    | apply frame_Remove; auto
    | apply frame_Push; auto
    | apply (keeps_bind heap_frame heap_frame_trans); [|intros] ].

Lemma account_tail_frame (existing : ItemRef) :
  keeps heap_frame
    (do e <- as_account existing ;; heap.Fix writeQueue (aci_queuePos e)) /\
  keeps heap_frame
    (do e <- as_account existing ;;
     do _ <- heap.Remove readQueue (aci_queuePos e) ;;
     do wl <- WriteHeap_Len ;;
     run update_account existing (aci_set_queuePos wl) ;;
     heap.Push writeQueue existing).
Proof. split; tail_frame. Qed.

Lemma same_keys_extends (st st' : list CacheItem) :
  extends st st' -> same_keys st st'.
Proof. intros H q v Hq. exists v. split; [now apply H | apply same_key_refl]. Qed.

Lemma same_keys_update (st st' : list CacheItem) (e : loc) (v' w : CacheItem) :
  same_keys st st' -> st' !! e = Some v' -> same_key w v' ->
  same_keys st (<[e := w]> st').
Proof.
  intros H He Hk q v Hq. destruct (H q v Hq) as (x & Hx & Kx).
  destruct (Nat.eq_dec q e) as [->|Hne].
  - exists w. split; [now apply (lookup_updated _ _ v')|].
    unfold loc in *. rewrite He in Hx. injection Hx as <-.
    now apply (same_key_trans _ v').
  - exists x. split; [|exact Kx]. now rewrite list_lookup_insert_ne by congruence.
Qed.

Lemma Get_same_keys (st st' : list CacheItem) (t : BTree) (k : CacheItem)
    (r : ItemRef) :
  same_keys st st' -> btree.Get st t k = Ok r -> btree.Get st' t k = Ok r.
Proof.
  intros H. induction t as [|q t IH]; cbn [btree.Get]; [auto|].
  destruct (st !! q) as [x|] eqn:Eq; [|discriminate].
  destruct (H q x Eq) as (x' & Hx' & Kx). rewrite Hx'.
  rewrite (Less_same_key_l k x' x Kx), (Less_same_key_r k x' x Kx).
  destruct (Less x k); [exact IH|]. auto.
Qed.

Lemma lookup_extends (st st' : list CacheItem) (e : loc) (v : CacheItem) :
  extends st st' -> st !! e = Some v -> st' !! e = Some v.
Proof. intros H. apply H. Qed.

Lemma item_modified_at (sc : StateCache) (e : loc) (v : CacheItem) :
  store sc !! e = Some v -> item_modified sc e = HasFlag ModifiedFlag v.
Proof. intros H. unfold item_modified. now rewrite H. Qed.

Ltac lookup_held Hlook :=
  state_cbn; repeat (eapply lookup_updated);
  eapply lookup_extends; [|exact Hlook]; extends_tac'.

Ltac step_held Hlook :=
  first
    [ erewrite bind_update_account by (lookup_held Hlook)
    | erewrite bind_update_storage by (lookup_held Hlook)
    | erewrite bind_update_code by (lookup_held Hlook) ].

Ltac same_keys_tac Hlook :=
  state_cbn;
  repeat (eapply same_keys_update;
            [ | lookup_held Hlook | cbn; auto ]);
  apply same_keys_extends; extends_tac'.

Ltac get_held key H :=
  state_cbn;
  erewrite (Get_same_key _ _ _ key) by (cbn; auto);
  eapply Get_extends; [|exact H]; extends_tac'.

Lemma storage_tail_frame (existing : ItemRef) :
  keeps heap_frame
    (do e <- as_storage existing ;; heap.Fix writeQueue (sci_queuePos e)) /\
  keeps heap_frame
    (do e <- as_storage existing ;;
     do _ <- heap.Remove readQueue (sci_queuePos e) ;;
     do wl <- WriteHeap_Len ;;
     run update_storage existing (sci_set_queuePos wl) ;;
     heap.Push writeQueue existing).
Proof. split; tail_frame. Qed.

Lemma code_tail_frame (existing : ItemRef) :
  keeps heap_frame
    (do e <- as_code existing ;; heap.Fix writeQueue (cci_queuePos e)) /\
  keeps heap_frame
    (do e <- as_code existing ;;
     do _ <- heap.Remove readQueue (cci_queuePos e) ;;
     do wl <- WriteHeap_Len ;;
     run update_code existing (cci_set_queuePos wl) ;;
     heap.Push writeQueue existing).
Proof. split; tail_frame. Qed.

(** The common end of the two in-place branches: the run of the tail
    from the state [s] only moves heap positions, so [readWrites] is that
    of [s], lookups answer as in [s] and the flags are those of [s]. *)
Lemma in_place_end (sc s sc' : StateCache) (tail : M unit) :
  keeps heap_frame tail ->
  readWrites s = readWrites sc ->
  tail s = Ok (tt, sc') ->
  readWrites sc' = readWrites sc /\
  view_frame s sc' /\
  (forall e, item_modified sc' e = item_modified s e).
Proof.
  intros K Hrw Hrun.
  pose proof (K _ _ _ Hrun) as F.
  pose proof F as (F1 & _ & _ & _ & _ & _ & F7).
  split; [congruence|]. split; [now apply heap_frame_view|].
  intros e. exact (item_modified_rest s sc' e F7).
Qed.

(** Runs a write over a held key up to the tail of its branch; leaves
    the facts of [in_place_end] about the state [s] reached there, with
    the index lookup and the item of [s] as two more hypotheses. *)
Ltac held_branch sc e key tailframe He Hr :=
  cbv zeta;
  repeat first
    [ step_held He
    | rewrite bind_gets
    | unfold sequence_incr; rewrite bind_modify ];
  match goal with
  | |- ?tail ?s = Ok (tt, ?sc') -> _ =>
      let Hrun := fresh "Hrun" in
      let Hg := fresh "Hg" in
      let Hs := fresh "Hs" in
      let v := fresh "v" in
      intros Hrun;
      apply (in_place_end sc s sc' tail) in Hrun;
        [ | apply tailframe | reflexivity ];
      assert (Hg : btree.Get (store s) (readWrites s) key = Ok (Some e))
        by (state_cbn; eapply Get_same_keys; [|exact Hr]; same_keys_tac He);
      evar (v : CacheItem);
      assert (Hs : store s !! e = Some v) by (subst v; lookup_held He);
      destruct Hrun as (Hrw' & Hview & Hmod)
  end.

Ltac held_tac sc e op key tailframe He Hr Hwr :=
  unfold op, storage_stub, code_stub;
  repeat (first [ rewrite bind_assoc | rewrite bind_ret | rewrite bind_alloc
                | step_update' ]; cbn beta);
  erewrite bind_deref by store_lookup';
  destruct Hwr as [Hw|Hw];
  [ erewrite (bind_writes_Get _ _ _ None) by (get_held key Hw);
    erewrite (bind_readWrites_Get _ _ _ (Some e)) by (get_held key Hr)
  | erewrite (bind_writes_Get _ _ _ (Some e)) by (get_held key Hw) ];
  held_branch sc e key tailframe He Hr.

Lemma account_write_held (sc sc' : StateCache) (address : list byte)
    (account : Account) (e : loc) :
  held_at sc (account_key address) e ->
  SetAccountWrite address account sc = Ok (tt, sc') ->
  readWrites sc' = readWrites sc /\
  eval (GetAccount address) sc' = Ok (Some account, true) /\
  item_modified sc' e = true.
Proof.
  intros [Hr Hwr].
  destruct (Get_found_same_key _ _ _ _ Hr) as (x & He & Hk).
  destruct x as [a|s|c]; try contradiction.
  held_tac sc e SetAccountWrite (account_key address) account_tail_frame He Hr Hwr;
    (split; [exact Hrw'|]; split;
     [ destruct (view_frame_lookups _ _ address [] 0 Hview) as (-> & _ & _);
       erewrite GetAccount_at; [ | exact Hg | exact Hs]; reflexivity
     | rewrite Hmod; erewrite item_modified_at by exact Hs; reflexivity ]).
Qed.

Lemma account_delete_held (sc sc' : StateCache) (address : list byte) (e : loc) :
  held_at sc (account_key address) e ->
  SetAccountDelete address sc = Ok (tt, sc') ->
  readWrites sc' = readWrites sc /\
  eval (GetAccount address) sc' = Ok (None, false) /\
  item_modified sc' e = true.
Proof.
  intros [Hr Hwr].
  destruct (Get_found_same_key _ _ _ _ Hr) as (x & He & Hk).
  destruct x as [a|s|c]; try contradiction.
  held_tac sc e SetAccountDelete (account_key address) account_tail_frame He Hr Hwr;
    (split; [exact Hrw'|]; split;
     [ destruct (view_frame_lookups _ _ address [] 0 Hview) as (-> & _ & _);
       erewrite GetAccount_at; [ | exact Hg | exact Hs]; reflexivity
     | rewrite Hmod; erewrite item_modified_at by exact Hs; reflexivity ]).
Qed.

Lemma storage_write_held (sc sc' : StateCache) (address location value : list byte)
    (incarnation : Z) (e : loc) :
  held_at sc (storage_key address incarnation location) e ->
  SetStorageWrite address incarnation location value sc = Ok (tt, sc') ->
  readWrites sc' = readWrites sc /\
  (exists old, store sc !! e = Some (StorageItem old) /\
     eval (GetStorage address incarnation location) sc' =
       Ok (Some (copy_bytes (sci_value old) value), true)) /\
  item_modified sc' e = true.
Proof.
  intros [Hr Hwr].
  destruct (Get_found_same_key _ _ _ _ Hr) as (x & He & Hk).
  destruct x as [a|s|c]; try contradiction.
  held_tac sc e SetStorageWrite (storage_key address incarnation location)
    storage_tail_frame He Hr Hwr;
    (split; [exact Hrw'|]; split;
     [ exists s; split; [exact He|];
       destruct (view_frame_lookups _ _ address location incarnation Hview)
         as (_ & -> & _);
       erewrite GetStorage_at; [ | exact Hg | exact Hs]; reflexivity
     | rewrite Hmod; erewrite item_modified_at by exact Hs; reflexivity ]).
Qed.

Lemma storage_delete_held (sc sc' : StateCache) (address location : list byte)
    (incarnation : Z) (e : loc) :
  held_at sc (storage_key address incarnation location) e ->
  SetStorageDelete address incarnation location sc = Ok (tt, sc') ->
  readWrites sc' = readWrites sc /\
  eval (GetStorage address incarnation location) sc' = Ok (None, false) /\
  item_modified sc' e = true.
Proof.
  intros [Hr Hwr].
  destruct (Get_found_same_key _ _ _ _ Hr) as (x & He & Hk).
  destruct x as [a|s|c]; try contradiction.
  held_tac sc e SetStorageDelete (storage_key address incarnation location)
    storage_tail_frame He Hr Hwr;
    (split; [exact Hrw'|]; split;
     [ destruct (view_frame_lookups _ _ address location incarnation Hview)
         as (_ & -> & _);
       erewrite GetStorage_at; [ | exact Hg | exact Hs]; reflexivity
     | rewrite Hmod; erewrite item_modified_at by exact Hs; reflexivity ]).
Qed.

Lemma code_write_held (sc sc' : StateCache) (address code : list byte) (e : loc) :
  held_at sc (code_key address) e ->
  SetCodeWrite address code sc = Ok (tt, sc') ->
  readWrites sc' = readWrites sc /\
  eval (GetCode address) sc' = Ok (Some code, true) /\
  item_modified sc' e = true.
Proof.
  intros [Hr Hwr].
  destruct (Get_found_same_key _ _ _ _ Hr) as (x & He & Hk).
  destruct x as [a|s|c]; try contradiction.
  held_tac sc e SetCodeWrite (code_key address) code_tail_frame He Hr Hwr;
    (split; [exact Hrw'|]; split;
     [ destruct (view_frame_lookups _ _ address [] 0 Hview) as (_ & _ & ->);
       erewrite GetCode_at; [ | exact Hg | exact Hs];
       cbn; rewrite ?fresh_code_eq; reflexivity
     | rewrite Hmod; erewrite item_modified_at by exact Hs; reflexivity ]).
Qed.

Lemma code_delete_held (sc sc' : StateCache) (address : list byte) (e : loc) :
  held_at sc (code_key address) e ->
  SetCodeDelete address sc = Ok (tt, sc') ->
  readWrites sc' = readWrites sc /\
  (exists found, eval (GetCode address) sc' = Ok (None, found)) /\
  item_modified sc' e = true.
Proof.
  intros [Hr Hwr].
  destruct (Get_found_same_key _ _ _ _ Hr) as (x & He & Hk).
  destruct x as [a|s|c]; try contradiction.
  held_tac sc e SetCodeDelete (code_key address) code_tail_frame He Hr Hwr;
    (split; [exact Hrw'|]; split;
     [ exists true;
       destruct (view_frame_lookups _ _ address [] 0 Hview) as (_ & _ & ->);
       erewrite GetCode_at; [ | exact Hg | exact Hs]; reflexivity
     | rewrite Hmod; erewrite item_modified_at by exact Hs; reflexivity ]).
Qed.

(* ------------------------------------------------------------------ *)
(** * The loops of the queues terminate *)

Lemma fuelled_ret {A} (a : A) : fuelled (ret a).
Proof. intros sc. discriminate. Qed.

Lemma fuelled_gets {A} (f : StateCache -> A) : fuelled (gets f).
Proof. intros sc. discriminate. Qed.

Lemma fuelled_modify (f : StateCache -> StateCache) : fuelled (modify f).
Proof. intros sc. discriminate. Qed.

Lemma fuelled_panic {A} (p : PanicKind) : fuelled (@panic A p).
Proof. intros sc. discriminate. Qed.

Lemma fuelled_bind {A B} (m : M A) (k : A -> M B) :
  fuelled m -> (forall a, fuelled (k a)) -> fuelled (bind m k).
Proof.
  intros Hm Hk sc. unfold bind.
  destruct (m sc) as [[a sc']| |] eqn:E; [apply Hk|discriminate|].
  now apply Hm in E.
Qed.

(** As [fuelled_bind], with what is known of the value handed on. *)
Lemma fuelled_bind_post {A B} (P : A -> Prop) (m : M A) (k : A -> M B) :
  fuelled m ->
  (forall sc a sc', m sc = Ok (a, sc') -> P a) ->
  (forall a, P a -> fuelled (k a)) ->
  fuelled (bind m k).
Proof.
  intros Hm HP Hk sc. unfold bind.
  destruct (m sc) as [[a sc']| |] eqn:E; [|discriminate|now apply Hm in E].
  apply Hk. eapply HP, E.
Qed.

Lemma fuelled_liftR {A} (r : Result A) : r <> OutOfFuel -> fuelled (liftR r).
Proof. intros H sc. unfold liftR. destruct r; congruence. Qed.

Lemma insert_fuel_free (st : list CacheItem) (t : BTree) (p : loc) (v : CacheItem) :
  btree.insert st t p v <> OutOfFuel.
Proof.
  induction t as [|q t IH]; cbn; [discriminate|].
  destruct (st !! q); [|discriminate].
  destruct (Less c v); [destruct (btree.insert st t p v); congruence|].
  destruct (Less v c); discriminate.
Qed.

Lemma remove_fuel_free (st : list CacheItem) (t : BTree) (key : CacheItem) :
  btree.remove st t key <> OutOfFuel.
Proof.
  induction t as [|q t IH]; cbn; [discriminate|].
  destruct (st !! q); [|discriminate].
  destruct (Less c key); [destruct (btree.remove st t key); congruence|].
  destruct (Less key c); discriminate.
Qed.

Lemma ReplaceOrInsert_fuel_free (st : list CacheItem) (t : BTree) (item : ItemRef) :
  btree.ReplaceOrInsert st t item <> OutOfFuel.
Proof.
  unfold btree.ReplaceOrInsert. destruct item as [p|]; [|discriminate].
  destruct (st !! p); [apply insert_fuel_free|discriminate].
Qed.

Lemma Delete_fuel_free (st : list CacheItem) (t : BTree) (item : ItemRef) :
  btree.Delete st t item <> OutOfFuel.
Proof.
  unfold btree.Delete. destruct t as [|q t]; [discriminate|].
  destruct item as [p|]; [|discriminate].
  destruct (st !! p); [apply remove_fuel_free|discriminate].
Qed.

Lemma fuelled_deref (r : ItemRef) : fuelled (deref r).
Proof.
  intros sc. unfold deref. destruct r as [p|]; [|discriminate].
  destruct (store sc !! p); discriminate.
Qed.

Lemma fuelled_alloc (v : CacheItem) : fuelled (alloc v).
Proof. intros sc. discriminate. Qed.

Lemma fuelled_update (r : ItemRef) (f : CacheItem -> CacheItem) :
  fuelled (update r f).
Proof.
  apply fuelled_bind; [apply fuelled_deref|intros v].
  destruct r; [apply fuelled_modify|apply fuelled_panic].
Qed.

Lemma fuelled_items_len : fuelled items_len.
Proof. intros sc. discriminate. Qed.

Lemma fuelled_items_get (i : Z) : fuelled (items_get i).
Proof.
  intros sc. unfold items_get.
  repeat match goal with |- context [if ?b then _ else _] => destruct b end;
    try discriminate.
  destruct (heapItems sc !! _); discriminate.
Qed.

Lemma fuelled_items_set (i : Z) (x : ItemRef) : fuelled (items_set i x).
Proof.
  intros sc. unfold items_set.
  repeat match goal with |- context [if ?b then _ else _] => destruct b end;
    discriminate.
Qed.

Lemma fuelled_assert (x : ItemRef) : fuelled (assert_CacheItem x).
Proof. intros sc. unfold assert_CacheItem. destruct x; discriminate. Qed.

Lemma fuelled_copy_items (e s : Z) : fuelled (copy_items e s).
Proof.
  intros sc. unfold copy_items.
  match goal with |- context [if ?b then _ else _] => destruct b end;
    discriminate.
Qed.

Ltac fuelled_leaf :=
  first
    [ apply fuelled_ret | apply fuelled_gets | apply fuelled_modify
    | apply fuelled_panic | apply fuelled_deref | apply fuelled_alloc
    | apply fuelled_update | apply fuelled_items_len | apply fuelled_items_get
    | apply fuelled_items_set | apply fuelled_assert | apply fuelled_copy_items
    | apply fuelled_liftR;
      first [ apply Get_fuel_free | apply ReplaceOrInsert_fuel_free
            | apply Delete_fuel_free ] ].

Ltac fuelled_step :=
  first
    [ fuelled_leaf
    | apply fuelled_bind; [|intros]
    | match goal with
      | |- fuelled (match ?x with _ => _ end) => destruct x
      | |- fuelled (if ?b then _ else _) => destruct b
      end ].

(** The methods of the two queues have no loop. *)
Lemma fuelled_readQueue : fuelled_heap readQueue.
Proof.
  repeat split; intros; cbn [h_Len h_Less h_Swap h_Push h_Pop readQueue];
    unfold ReadHeap_Len, ReadHeap_Less, ReadHeap_Swap, ReadHeap_Push,
      ReadHeap_Pop; repeat fuelled_step.
Qed.

Lemma fuelled_writeQueue : fuelled_heap writeQueue.
Proof.
  repeat split; intros; cbn [h_Len h_Less h_Swap h_Push h_Pop writeQueue];
    unfold WriteHeap_Len, WriteHeap_Less, WriteHeap_Swap, WriteHeap_Push,
      WriteHeap_Pop; repeat fuelled_step.
Qed.

(** The parent index is closer to 0 than the child, on either side of 0. *)
Lemma parent_closer (j : Z) :
  Z.quot (j - 1) 2 <> j -> Z.abs (Z.quot (j - 1) 2) < Z.abs j.
Proof.
  intros Hne.
  pose proof (Z.quot_rem' (j - 1) 2) as E.
  destruct (Z_lt_le_dec (j - 1) 0) as [Hn|Hp].
  - pose proof (Z.rem_bound_pos_neg (j - 1) 2 ltac:(lia) ltac:(lia)). lia.
  - pose proof (Z.rem_bound_pos (j - 1) 2 ltac:(lia) ltac:(lia)). lia.
Qed.

Section Loops.
Variable h : Interface.
Hypothesis Hh : fuelled_heap h.

Lemma fuelled_up_loop (fuel : nat) (j : Z) :
  Z.abs j < Z.of_nat fuel -> fuelled (heap.up_loop fuel h j).
Proof.
  destruct Hh as (_ & HLess & HSwap & _ & _).
  revert j. induction fuel as [|fuel IH]; intros j Hj; [lia|].
  cbn [heap.up_loop]. cbv zeta.
  destruct (Z.eqb_spec (Z.quot (j - 1) 2) j) as [|Hne]; [apply fuelled_ret|].
  apply fuelled_bind; [apply HLess|intros lt].
  destruct lt; cbn [negb]; [|apply fuelled_ret].
  apply fuelled_bind; [apply HSwap|intros _].
  apply IH. pose proof (parent_closer j Hne). lia.
Qed.

Lemma fuelled_up (j : Z) : fuelled (heap.up h j).
Proof. unfold heap.up. apply fuelled_up_loop. lia. Qed.

Lemma fuelled_down_loop (fuel : nat) (i n : Z) :
  (1 <= fuel)%nat -> (0 <= i -> n - i <= Z.of_nat fuel) ->
  fuelled (heap.down_loop fuel h i n).
Proof.
  destruct Hh as (_ & HLess & HSwap & _ & _).
  revert i. induction fuel as [|fuel IH]; intros i H1 Hi; [lia|].
  cbn [heap.down_loop]. cbv zeta.
  destruct (Z.leb_spec n (2 * i + 1)) as [|Hn]; [apply fuelled_ret|].
  destruct (Z.ltb_spec (2 * i + 1) 0) as [|H0]; [apply fuelled_ret|].
  cbn [orb].
  apply (fuelled_bind_post (fun j => i < j < n)).
  - destruct (2 * i + 1 + 1 <? n); repeat fuelled_step. apply HLess.
  - intros sc a sc'.
    destruct (Z.ltb_spec (2 * i + 1 + 1) n) as [H2|H2].
    + intros E. apply bind_Ok_inv in E as (lt & s1 & _ & E).
      injection E as <- _. destruct lt; lia.
    + intros E. injection E as <- _. lia.
  - intros j Hj.
    apply fuelled_bind; [apply HLess|intros lt].
    destruct lt; cbn [negb]; [|apply fuelled_ret].
    apply fuelled_bind; [apply HSwap|intros _].
    apply IH; lia.
Qed.

Lemma fuelled_down (i n : Z) : fuelled (heap.down h i n).
Proof.
  unfold heap.down. apply fuelled_bind; [|intros; apply fuelled_ret].
  apply fuelled_down_loop; lia.
Qed.

Lemma fuelled_Init : fuelled (heap.Init h).
Proof.
  unfold heap.Init. apply fuelled_bind; [apply Hh|intros n].
  induction (Z.to_nat (Z.quot n 2)) as [|k IH]; cbn [heap.Init_loop];
    [apply fuelled_ret|].
  apply fuelled_bind; [apply fuelled_down|intros _; exact IH].
Qed.

Lemma fuelled_Push (x : ItemRef) : fuelled (heap.Push h x).
Proof.
  unfold heap.Push.
  apply fuelled_bind; [apply Hh|intros _].
  apply fuelled_bind; [apply Hh|intros n]. apply fuelled_up.
Qed.

Lemma fuelled_Pop : fuelled (heap.Pop h).
Proof.
  unfold heap.Pop. cbv zeta.
  apply fuelled_bind; [apply Hh|intros n].
  apply fuelled_bind; [apply Hh|intros _].
  apply fuelled_bind; [apply fuelled_down|intros _]. apply Hh.
Qed.

Lemma fuelled_Remove (i : Z) : fuelled (heap.Remove h i).
Proof.
  unfold heap.Remove. cbv zeta.
  apply fuelled_bind; [apply Hh|intros n].
  apply fuelled_bind; [|intros _; apply Hh].
  destruct (negb _); [|apply fuelled_ret].
  apply fuelled_bind; [apply Hh|intros _].
  apply fuelled_bind; [apply fuelled_down|intros moved].
  destruct (negb moved); [apply fuelled_up|apply fuelled_ret].
Qed.

Lemma fuelled_Fix (i : Z) : fuelled (heap.Fix h i).
Proof.
  unfold heap.Fix.
  apply fuelled_bind; [apply Hh|intros n].
  apply fuelled_bind; [apply fuelled_down|intros moved].
  destruct (negb moved); [apply fuelled_up|apply fuelled_ret].
Qed.
End Loops.

Lemma fuelled_Ascend (t : BTree) (visit : ItemRef -> M unit) :
  (forall i, fuelled (visit i)) -> fuelled (Ascend t visit).
Proof.
  intros Hv. induction t as [|p t IH]; cbn [Ascend]; [apply fuelled_ret|].
  apply fuelled_bind; [apply Hv|intros _; exact IH].
Qed.

Ltac fuelled_tac :=
  steady_unfold; unfold get, sequence_incr; cbv zeta;
  repeat first
    [ apply fuelled_readQueue | apply fuelled_writeQueue
    | apply fuelled_Init | apply fuelled_Push | apply fuelled_Pop
    | apply fuelled_Remove | apply fuelled_Fix
    | apply fuelled_Ascend; intros
    | fuelled_step ].

(** X12.  No operation of the cache runs out of fuel: the loops of
    [container/heap] end within the fuel they are given here, whatever
    the queue holds, so a call returns or panics as the Go code does. *)
Theorem X12_operations_terminate
    (address location value code : list byte) (incarnation i : Z)
    (account : Account) (x : ItemRef) :
  (forall h, h = readQueue \/ h = writeQueue ->
     fuelled (heap.Init h) /\ fuelled (heap.Push h x) /\ fuelled (heap.Pop h) /\
     fuelled (heap.Remove h i) /\ fuelled (heap.Fix h i)) /\
  fuelled (GetAccount address) /\
  fuelled (GetStorage address incarnation location) /\
  fuelled (GetCode address) /\
  fuelled (SetAccountRead address account) /\
  fuelled (SetAccountAbsent address) /\
  fuelled (SetStorageRead address incarnation location value) /\
  fuelled (SetStorageAbsent address incarnation location) /\
  fuelled (SetCodeRead address code) /\
  fuelled (SetCodeAbsent address) /\
  fuelled (SetAccountWrite address account) /\
  fuelled (SetAccountDelete address) /\
  fuelled (SetStorageWrite address incarnation location value) /\
  fuelled (SetStorageDelete address incarnation location) /\
  fuelled (SetCodeWrite address code) /\
  fuelled (SetCodeDelete address) /\
  fuelled TurnWritesToReads.
Proof.
  split.
  { intros h [->| ->]; repeat split; fuelled_tac. }
  unfold GetAccount, GetStorage, GetCode,
    SetAccountRead, SetAccountAbsent, SetStorageRead, SetStorageAbsent,
    SetCodeRead, SetCodeAbsent, SetAccountWrite, SetAccountDelete,
    SetStorageWrite, SetStorageDelete, SetCodeWrite, SetCodeDelete,
    TurnWritesToReads.
  repeat split; fuelled_tac.
Qed.

(* ------------------------------------------------------------------ *)
(** * Writes over a key the cache holds *)

(** X13.  A write or delete of a key that [readWrites] holds at an item,
    while [writes] does not hold the key or holds it at that same item
    ([held_at]; an entry of [writes] for the key at another item, as an
    earlier commit can leave behind, is excluded).  When the call
    returns, it has updated the item in place: [readWrites] is the same
    index, the item carries [MODIFIED], and the lookup that follows
    returns what was written with [true] (a storage value as copied over
    the 32 bytes of the item), or no value after a delete. *)
Theorem X13_write_over_held_key (sc sc' : StateCache)
    (address location value code : list byte) (incarnation : Z)
    (account : Account) (e : loc) :
  (held_at sc (account_key address) e ->
     (SetAccountWrite address account sc = Ok (tt, sc') ->
        readWrites sc' = readWrites sc /\
        eval (GetAccount address) sc' = Ok (Some account, true) /\
        item_modified sc' e = true) /\
     (SetAccountDelete address sc = Ok (tt, sc') ->
        readWrites sc' = readWrites sc /\
        eval (GetAccount address) sc' = Ok (None, false) /\
        item_modified sc' e = true)) /\
  (held_at sc (storage_key address incarnation location) e ->
     (SetStorageWrite address incarnation location value sc = Ok (tt, sc') ->
        readWrites sc' = readWrites sc /\
        (exists old, store sc !! e = Some (StorageItem old) /\
           eval (GetStorage address incarnation location) sc' =
             Ok (Some (copy_bytes (sci_value old) value), true)) /\
        item_modified sc' e = true) /\
     (SetStorageDelete address incarnation location sc = Ok (tt, sc') ->
        readWrites sc' = readWrites sc /\
        eval (GetStorage address incarnation location) sc' = Ok (None, false) /\
        item_modified sc' e = true)) /\
  (held_at sc (code_key address) e ->
     (SetCodeWrite address code sc = Ok (tt, sc') ->
        readWrites sc' = readWrites sc /\
        eval (GetCode address) sc' = Ok (Some code, true) /\
        item_modified sc' e = true) /\
     (SetCodeDelete address sc = Ok (tt, sc') ->
        readWrites sc' = readWrites sc /\
        (exists found, eval (GetCode address) sc' = Ok (None, found)) /\
        item_modified sc' e = true)).
Proof.
  split; [|split]; intros H; split.
  - now apply account_write_held.
  - now apply account_delete_held.
  - now apply storage_write_held.
  - now apply storage_delete_held.
  - now apply code_write_held.
  - now apply code_delete_held.
Qed.

(** An account cached by a read, then written. *)
Lemma X13_write_over_held_key_witness :
  held_at read12 (account_key addr1) 0%nat /\
  SetAccountWrite addr1 acc2 read12
    = Ok (tt, state_of (SetAccountWrite addr1 acc2 read12)) /\
  eval (GetAccount addr1) (state_of (SetAccountWrite addr1 acc2 read12))
    = Ok (Some acc2, true).
Proof.
  assert (Hh : held_at read12 (account_key addr1) 0%nat)
    by (split; [|left]; vm_compute; reflexivity).
  assert (Hr : SetAccountWrite addr1 acc2 read12
               = Ok (tt, state_of (SetAccountWrite addr1 acc2 read12)))
    by (vm_compute; reflexivity).
  split; [exact Hh|]. split; [exact Hr|].
  destruct (X13_write_over_held_key read12
              (state_of (SetAccountWrite addr1 acc2 read12))
              addr1 [] [] [] 0 acc2 0%nat) as (Ha & _).
  destruct (Ha Hh) as (Hw & _).
  exact (proj1 (proj2 (Hw Hr))).
Defined.

(* ------------------------------------------------------------------ *)
(** * The constructor and the queue methods *)

(** X14.  [NewStateCache] panics on a degree of 1 or less, and on a sum
    of the two limits that, as an [int], is negative or above the
    largest length [make] accepts; it panics in no other case.  The
    cache it returns has the two limits as given, an array of as many
    slots as their sum, both queues and both indices empty, and every
    lookup on it finds nothing. *)
Theorem X14_new_cache_is_empty (degree lr lw : Z) :
  match NewStateCache degree lr lw with
  | Ok sc =>
      1 < degree /\ 0 <= int_add lr lw <= maxSliceLen /\
      limitReads sc = lr /\ limitWrites sc = lw /\
      Z.of_nat (length (heapItems sc)) = int_add lr lw /\
      eval ReadHeap_Len sc = Ok 0 /\ eval WriteHeap_Len sc = Ok 0 /\
      btree.Len (readWrites sc) = 0 /\ btree.Len (writes sc) = 0 /\
      sequence sc = 0 /\
      forall (address location : list byte) (incarnation : Z),
        eval (GetAccount address) sc = Ok (None, false) /\
        eval (GetStorage address incarnation location) sc = Ok (None, false) /\
        exists found, eval (GetCode address) sc = Ok (None, found)
  | Panic p =>
      (degree <= 1 /\ p = BadDegree) \/
      (1 < degree /\ (int_add lr lw < 0 \/ maxSliceLen < int_add lr lw) /\
       p = MakeLenOutOfRange)
  | OutOfFuel => False
  end.
Proof.
  unfold NewStateCache, btree.New.
  destruct (Z.leb_spec degree 1) as [Hd|Hd]; [left; auto|].
  cbv zeta. generalize (int_add lr lw). intros n.
  destruct (Z.ltb_spec n 0) as [Hl|Hl]; [right; auto|].
  destruct (Z.ltb_spec maxSliceLen n) as [Hm|Hm]; [right; auto|].
  cbn [orb limitReads limitWrites heapItems readWrites writes sequence].
  rewrite repeat_length, Z2Nat.id by lia.
  split; [lia|]. split; [lia|]. repeat split.
  - unfold eval, WriteHeap_Len, bind, items_len, gets, ret.
    cbn [heapItems writeQueue_start].
    rewrite repeat_length, Z2Nat.id by lia. f_equal. lia.
  - now exists true.
Qed.

(** The sum of the limits wraps: the largest [int] and 1 give a
    negative length, and a length of 2^50 is more than [make] takes. *)
Lemma X14_new_cache_is_empty_witness :
  NewStateCache 32 (2 ^ 63 - 1) 1 = Panic MakeLenOutOfRange /\
  NewStateCache 32 (2 ^ 50) 0 = Panic MakeLenOutOfRange /\
  NewStateCache 1 2 2 = Panic BadDegree /\
  0 <= int_add 2 2 <= maxSliceLen.
Proof.
  split; [vm_compute; reflexivity|]. split; [vm_compute; reflexivity|].
  split; [vm_compute; reflexivity|].
  pose proof (X14_new_cache_is_empty 32 2 2) as H.
  change (NewStateCache 32 2 2) with (Ok fresh22) in H.
  exact (proj1 (proj2 H)).
Defined.

(** X15.  A push on either queue followed by a pop gives back the item pushed
    and leaves the bound of the queue where it was, provided the queue
    has a free slot next to it inside the array; without one, the push
    on the read queue panics on the index. *)
Theorem X15_queue_push_then_pop (sc : StateCache) (p : loc) :
  (0 <= readQueue_end sc < Z.of_nat (length (heapItems sc)) ->
     exists sc',
       (run ReadHeap_Push (Some p) ;; ReadHeap_Pop) sc = Ok (Some p, sc') /\
       readQueue_end sc' = readQueue_end sc /\
       writeQueue_start sc' = writeQueue_start sc /\
       store sc' = store sc) /\
  (0 < writeQueue_start sc <= Z.of_nat (length (heapItems sc)) ->
     exists sc',
       (run WriteHeap_Push (Some p) ;; WriteHeap_Pop) sc = Ok (Some p, sc') /\
       writeQueue_start sc' = writeQueue_start sc /\
       readQueue_end sc' = readQueue_end sc /\
       store sc' = store sc) /\
  (readQueue_end sc < 0 \/ Z.of_nat (length (heapItems sc)) <= readQueue_end sc ->
     ReadHeap_Push (Some p) sc = Panic IndexOutOfRange) /\
  (writeQueue_start sc <= 0 \/ Z.of_nat (length (heapItems sc)) < writeQueue_start sc ->
     WriteHeap_Push (Some p) sc = Panic IndexOutOfRange).
Proof.
  split; [|split; [|split]].
  - intros H. eexists.
    unfold ReadHeap_Push, ReadHeap_Pop, bind, assert_CacheItem, ret, gets,
      modify, items_set, items_get.
    destruct (Z.ltb_spec (readQueue_end sc) 0); [lia|].
    destruct (Z.leb_spec (Z.of_nat (length (heapItems sc))) (readQueue_end sc));
      [lia|].
    cbn [orb readQueue_end set_readQueue_end set_heapItems heapItems].
    replace (readQueue_end sc + 1 - 1) with (readQueue_end sc) by lia.
    rewrite length_insert.
    destruct (Z.ltb_spec (readQueue_end sc) 0); [lia|].
    destruct (Z.leb_spec (Z.of_nat (length (heapItems sc))) (readQueue_end sc));
      [lia|].
    cbn [orb]. rewrite list_lookup_insert_eq by lia.
    split; [reflexivity|]. cbn. split; [lia|]. split; reflexivity.
  - intros H. eexists.
    unfold WriteHeap_Push, WriteHeap_Pop, bind, assert_CacheItem, ret, gets,
      modify, items_set, items_get.
    cbn [writeQueue_start set_writeQueue_start heapItems].
    destruct (Z.ltb_spec (writeQueue_start sc - 1) 0); [lia|].
    destruct (Z.leb_spec (Z.of_nat (length (heapItems sc)))
                (writeQueue_start sc - 1)); [lia|].
    cbn [orb writeQueue_start set_writeQueue_start set_heapItems heapItems].
    replace (writeQueue_start sc - 1 + 1 - 1) with (writeQueue_start sc - 1) by lia.
    rewrite length_insert.
    destruct (Z.ltb_spec (writeQueue_start sc - 1) 0); [lia|].
    destruct (Z.leb_spec (Z.of_nat (length (heapItems sc)))
                (writeQueue_start sc - 1)); [lia|].
    cbn [orb]. rewrite list_lookup_insert_eq by lia.
    split; [reflexivity|]. cbn. split; [lia|]. split; reflexivity.
  - intros H.
    unfold ReadHeap_Push, bind, assert_CacheItem, ret, gets, items_set.
    destruct (Z.ltb_spec (readQueue_end sc) 0); [reflexivity|].
    destruct (Z.leb_spec (Z.of_nat (length (heapItems sc))) (readQueue_end sc));
      [reflexivity|lia].
  - intros H.
    unfold WriteHeap_Push, bind, assert_CacheItem, ret, gets, modify, items_set.
    cbn [writeQueue_start set_writeQueue_start heapItems].
    destruct (Z.ltb_spec (writeQueue_start sc - 1) 0); [reflexivity|].
    destruct (Z.leb_spec (Z.of_nat (length (heapItems sc)))
                (writeQueue_start sc - 1)); [reflexivity|lia].
Qed.

(* ------------------------------------------------------------------ *)
(** * The flag methods of the items *)

Lemma land_lor_nonzero (a f g : Z) :
  negb (Z.land (Z.lor a g) f =? 0)
  = negb (Z.land a f =? 0) || negb (Z.land g f =? 0).
Proof.
  rewrite Z.land_lor_distr_l.
  destruct (Z.eqb_spec (Z.lor (Z.land a f) (Z.land g f)) 0) as [E|E].
  - apply Z.lor_eq_0_iff in E as [-> ->]. reflexivity.
  - destruct (Z.eqb_spec (Z.land a f) 0) as [Ha|Ha];
      destruct (Z.eqb_spec (Z.land g f) 0) as [Hg|Hg]; try reflexivity.
    exfalso. apply E. now rewrite Ha, Hg.
Qed.

Lemma land_ldiff_swap (a f g : Z) :
  Z.land (Z.ldiff a g) f = Z.land a (Z.ldiff f g).
Proof.
  apply Z.bits_inj'. intros n Hn.
  rewrite !Z.land_spec, !Z.ldiff_spec.
  destruct (Z.testbit a n), (Z.testbit f n), (Z.testbit g n); reflexivity.
Qed.

(** X16.  The flag methods, for the three kinds of item: [HasFlag] after
    [SetFlags] holds where it held before or where the two masks share a
    bit; after [ClearFlags] it holds for the bits of the mask that were
    not cleared.  So a flag set is seen, a flag cleared is gone, and
    [MODIFIED] and [DELETED] do not disturb each other.  Neither method
    touches the key, the sequence number or the heap position. *)
Theorem X16_flag_methods (v : CacheItem) (f g : Z) :
  HasFlag f (SetFlags g v) = HasFlag f v || negb (Z.land g f =? 0) /\
  HasFlag f (ClearFlags g v) = HasFlag (Z.ldiff f g) v /\
  HasFlag f (SetFlags f v) = negb (f =? 0) /\
  HasFlag f (ClearFlags f v) = false /\
  HasFlag DeletedFlag (SetFlags ModifiedFlag v) = HasFlag DeletedFlag v /\
  HasFlag DeletedFlag (ClearFlags ModifiedFlag v) = HasFlag DeletedFlag v /\
  HasFlag ModifiedFlag (SetFlags DeletedFlag v) = HasFlag ModifiedFlag v /\
  same_key (SetFlags g v) v /\ same_key (ClearFlags g v) v /\
  GetSequence (SetFlags g v) = GetSequence v /\
  GetSequence (ClearFlags g v) = GetSequence v /\
  GetQueuePos (SetFlags g v) = GetQueuePos v /\
  GetQueuePos (ClearFlags g v) = GetQueuePos v.
Proof.
  assert (S : forall f g, HasFlag f (SetFlags g v)
                = HasFlag f v || negb (Z.land g f =? 0)).
  { intros f' g'. destruct v as [a|s|c]; cbn; apply land_lor_nonzero. }
  assert (C : forall f g, HasFlag f (ClearFlags g v) = HasFlag (Z.ldiff f g) v).
  { intros f' g'. destruct v as [a|s|c]; cbn; now rewrite land_ldiff_swap. }
  assert (Z0 : forall w : CacheItem, HasFlag 0 w = false).
  { intros w. destruct w as [a|s|c]; cbn; now rewrite Z.land_0_r. }
  split; [apply S|]. split; [apply C|].
  split.
  { rewrite S, Z.land_diag.
    destruct (Z.eqb_spec f 0) as [->|Hf]; [|apply orb_true_r].
    now rewrite Z0. }
  split; [now rewrite C, Z.ldiff_diag, Z0|].
  split; [rewrite S; apply orb_false_r|].
  split; [now rewrite C|].
  split; [rewrite S; apply orb_false_r|].
  destruct v as [a|s|c]; cbn; repeat split; reflexivity.
Qed.

(* ------------------------------------------------------------------ *)
(** * The properties above at concrete states *)

(** An account cached by a read and inserted again. *)
Lemma X4_read_insert_twice_panics_witness :
  held (store read12) (readWrites read12) (account_key addr1) /\
  SetAccountRead addr1 acc2 read12 = Panic ItemAlreadyPresent.
Proof.
  assert (Hh : held (store read12) (readWrites read12) (account_key addr1))
    by (exists 0%nat; vm_compute; reflexivity).
  split; [exact Hh|].
  destruct (X4_read_insert_twice_panics read12 addr1 [] [] [] 0 acc2) as (Ha & _).
  exact (proj1 (Ha Hh)).
Defined.

(** A third account written into a write queue of limit 2 that holds
    two. *)
Lemma X5_write_at_limit_panics_witness :
  writes_at_limit full22 /\
  fresh_key full22 (account_key addr3) /\
  SetAccountWrite addr3 acc1 full22 = Panic WritesOverLimit.
Proof.
  assert (Hl : writes_at_limit full22)
    by (unfold writes_at_limit; vm_compute; discriminate).
  assert (Hf : fresh_key full22 (account_key addr3))
    by (split; vm_compute; reflexivity).
  split; [exact Hl|]. split; [exact Hf|].
  destruct (X5_write_at_limit_panics full22 addr3 [] [] [] 0 acc1 Hl) as (Ha & _).
  exact (proj1 (Ha Hf)).
Defined.

(** A write on the new cache. *)
Lemma X8_writes_advance_counter_by_one_witness :
  SetAccountWrite addr1 acc1 fresh22 = Ok (tt, written12) /\
  sequence written12 = int_incr (sequence fresh22).
Proof.
  assert (H : SetAccountWrite addr1 acc1 fresh22 = Ok (tt, written12))
    by (vm_compute; reflexivity).
  split; [exact H|].
  apply (X8_writes_advance_counter_by_one fresh22 written12 addr1 [] [] [] 0 acc1).
  left. exact H.
Defined.

(** A read insertion on the new cache keeps its capacity. *)
Lemma X7_capacity_is_constant_witness :
  SetAccountRead addr1 acc1 fresh22 = Ok (tt, read12) /\
  same_capacity fresh22 read12.
Proof.
  assert (H : SetAccountRead addr1 acc1 fresh22 = Ok (tt, read12))
    by (vm_compute; reflexivity).
  split; [exact H|].
  destruct (X7_capacity_is_constant addr1 [] [] [] 0 acc1) as ((K & _) & _).
  exact (K _ _ _ H).
Defined.

(** The one item of the read queue popped. *)
Lemma X6_heap_operations_frame_witness :
  heap.Pop readQueue read12
    = Ok (Some 0%nat, state_of (heap.Pop readQueue read12)) /\
  heap_frame read12 (state_of (heap.Pop readQueue read12)).
Proof.
  assert (H : heap.Pop readQueue read12
              = Ok (Some 0%nat, state_of (heap.Pop readQueue read12)))
    by (vm_compute; reflexivity).
  split; [exact H|].
  destruct (X6_heap_operations_frame 0 (Some 0%nat)) as ((_ & _ & K & _) & _).
  exact (K _ _ _ H).
Defined.

(** A second account read into the cache that holds one. *)
Lemma X10_read_insert_then_lookup_witness :
  read_room read12 /\
  missing read12 (account_key addr2) /\
  exists sc',
    SetAccountRead addr2 acc2 read12 = Ok (tt, sc') /\
    readQueue_end sc' = readQueue_end read12 + 1 /\
    eval (GetAccount addr2) sc' = Ok (Some acc2, true).
Proof.
  assert (Hr : read_room read12).
  { split; [|split].
    - intros k Hk.
      assert (E : readQueue_end read12 = 1) by (vm_compute; reflexivity).
      rewrite E in Hk. assert (k = 0) as -> by lia.
      exists 0%nat. split; [vm_compute; reflexivity|vm_compute; lia].
    - vm_compute. split; [discriminate|reflexivity].
    - vm_compute. reflexivity. }
  assert (Hm : missing read12 (account_key addr2)) by (vm_compute; reflexivity).
  split; [exact Hr|]. split; [exact Hm|].
  destruct (X10_read_insert_then_lookup read12 addr2 [] [] [] 0 acc2 Hr) as (Ha & _).
  exact (proj1 (Ha Hm)).
Defined.

